(** * deen: keyword sets and dictionary installation

    A shallow embedding of [src/core/keyword.c] and [src/core/install.c]
    of the deen German-English dictionary, and the properties of the
    keyword set, the umlaut recovery, the DING format check, the index
    callback and the install procedure.

    C strings are lists of bytes: a [uint8_t *] that points at a
    NUL-terminated string is the list of the bytes before the terminator;
    where the code looks at a raw buffer (memcmp, strlen on a buffer of
    unknown content) the terminator is written out. *)

From Stdlib Require Import Strings.Byte Strings.String ZArith QArith.
From stdpp Require Import base tactics option list sorting strings gmap.

Open Scope Z_scope.
Open Scope nat_scope.

(* ================================================================== *)
(** * Part I: the model                                                *)
(* ================================================================== *)

Abbreviation byte := Byte.byte.

#[global] Instance byte_eq_dec : EqDecision byte := Byte.byte_eq_dec.

(** A string literal as the bytes of a C string. *)
Definition bytes (s : string) : list byte := String.list_byte_of_string s.

(** ** The C library, as far as the sources use it *)
Module CLib.

(** The C string held by a buffer: the bytes before the first NUL. *)
Fixpoint cstr (buf : list byte) : list byte :=
  match buf with
  | [] => []
  | b :: rest => if decide (b = x00) then [] else b :: cstr rest
  end.

Definition strlen (buf : list byte) : nat := length (cstr buf).

(** [isspace] in the "C" locale: space, and \t \n \v \f \r. *)
Definition isspace (b : byte) : bool :=
  let n := Byte.to_N b in
  (N.eqb n 32 || (N.leb 9 n && N.leb n 13))%bool.

(** [0 == memcmp(a, b, n)].  The result of memcmp is fixed by the first
    differing byte, so the comparison stops there; running off either
    buffer before [n] bytes were seen equal is not an equal result. *)
Fixpoint memcmp_eq (a b : list byte) (n : nat) {struct n} : bool :=
  match n with
  | 0 => true
  | S n' =>
      match a, b with
      | x :: a', y :: b' => if decide (x = y) then memcmp_eq a' b' n' else false
      | _, _ => false
      end
  end.

(** The sign of [strcmp(a, b)]: bytes compare as unsigned char, and the
    end of a string (its NUL) is below every other byte. *)
Fixpoint strcmp (a b : list byte) : Z :=
  match a, b with
  | [], [] => 0
  | [], _ :: _ => -1
  | _ :: _, [] => 1
  | x :: a', y :: b' =>
      match N.compare (Byte.to_N x) (Byte.to_N y) with
      | Lt => -1
      | Gt => 1
      | Eq => strcmp a' b'
      end
  end%Z.

(** Does [needle] stand at the head of [s]? *)
Definition starts_with (needle s : list byte) : bool :=
  bool_decide (take (length needle) s = needle).

(** [strstr(s, needle)] as the offset of the first occurrence in [s],
    [None] for NULL. *)
Fixpoint strstr_off (s needle : list byte) : option nat :=
  if starts_with needle s then Some 0
  else match s with
       | [] => None
       | _ :: rest => S <$> strstr_off rest needle
       end.

(** [strstr(&buf[str], needle)]: a pointer into [buf] is an offset. *)
Definition strstr (buf : list byte) (str : nat) (needle : list byte) : option nat :=
  (λ k, str + k) <$> strstr_off (drop str buf) needle.

(** [memcpy(&buf[off], src, n)]: overwrites in place. *)
Definition memcpy (buf : list byte) (off : nat) (src : list byte) (n : nat) : list byte :=
  list_inserts off (take n src) buf.

(** [qsort] with a comparator that cannot fail, as an insertion sort.  The
    comparators of the sources are total orders on the arrays they sort,
    so every sorting algorithm yields the same array. *)
Section Sort.
Context {A : Type} (cmp : A → A → Z).

Fixpoint sort_insert (x : A) (l : list A) : list A :=
  match l with
  | [] => [x]
  | y :: l' => if (cmp x y <=? 0)%Z then x :: y :: l' else y :: sort_insert x l'
  end.

Fixpoint qsort (l : list A) : list A :=
  match l with
  | [] => []
  | x :: l' => sort_insert x (qsort l')
  end.

(** [bsearch] over a sorted array: an element that compares equal to the
    key, if there is one. *)
Definition bsearch (key : A) (l : list A) : option A :=
  List.find (λ y, (cmp key y =? 0)%Z) l.

End Sort.

(** [qsort] with a comparator that may end the process ([None]). *)
Section SortOrExit.
Context {A : Type} (cmp : A → A → option Z).

Fixpoint sort_insert_or_exit (x : A) (l : list A) : option (list A) :=
  match l with
  | [] => Some [x]
  | y :: l' =>
      c ← cmp x y;
      if (c <=? 0)%Z then Some (x :: y :: l')
      else (y ::.) <$> sort_insert_or_exit x l'
  end.

Fixpoint qsort_or_exit (l : list A) : option (list A) :=
  match l with
  | [] => Some []
  | x :: l' => l'' ← qsort_or_exit l'; sort_insert_or_exit x l''
  end.

End SortOrExit.

End CLib.

(** ** common.h and constants.h: the interface of the text primitives

    [common.c] and [constants.h] are not part of the sources at hand: the
    functions below are the ones [keyword.c] and [install.c] call, taken
    as the operations of a class, so that what is proved of the callers
    holds for every implementation of them. *)

Inductive deen_utf8_sequence_result :=
  | DEEN_SEQUENCE_OK
  | DEEN_BAD_SEQUENCE
  | DEEN_INCOMPLETE_SEQUENCE.

Class Common := {
  (** [void deen_to_upper(uint8_t *s)], in place: the string after the call *)
  deen_to_upper : list byte → list byte;
  (** [deen_is_common_upper_word(s, len)] on the [len] bytes at [s] *)
  deen_is_common_upper_word : list byte → bool;
  (** [deen_utf8_sequences_count(c, c_length, &sequence_count)] on the
      [c_length] bytes at [c]: the result and the count written *)
  deen_utf8_sequences_count : list byte → deen_utf8_sequence_result * nat;
  (** [deen_utf8_crop_to_unicode_len(c, c_length, unicode_length)]: the
      string left at [c], and the number of characters it was cropped at *)
  deen_utf8_crop_to_unicode_len : list byte → nat → list byte * nat;
  (** [deen_ifind_first(s, f, from, to)]; [None] is [DEEN_NOT_FOUND] *)
  deen_ifind_first : list byte → list byte → nat → nat → option nat;
  (** the words [deen_for_each_word_from_file] finds in a file of the
      given content, each with the ref and the progress it is delivered
      with *)
  deen_file_words : list byte → list (list byte * Z * Q);
  (** [deen_data_path(root_dir)] and [deen_index_path(root_dir)] *)
  deen_data_path : string → string;
  deen_index_path : string → string;
  (** constants.h *)
  DEEN_INDEXING_MIN : nat;
  DEEN_INDEXING_DEPTH : nat;
  DEEN_CAUSE_ERROR_IN_INSTALL : bool;
  DEEN_FILE_SEP : string;
  DEEN_LEAF_INDEX : string;
  DEEN_LEAF_DING_DATA : string;
}.

(** ** keyword.c *)
Module Keyword.
Import CLib.

(** [deen_keywords]: [count] strings. *)
Abbreviation deen_keywords := (list (list byte)).

(** The loop of [deen_keywords_single_substitute_german_usascii_abbreviations]:
    [str] is the offset of the pointer of the same name.  Each round moves
    [str] past the start of a match, so [S (length buf)] rounds are more
    than the loop can take. *)
Fixpoint single_substitute_loop (fuel : nat) (buf : list byte) (str : nat)
    (search replace : list byte) (result : bool) : list byte * bool :=
  match fuel with
  | 0 => (buf, result)
  | S fuel' =>
      match strstr buf str search with
      | None => (buf, result)
      | Some p =>
          single_substitute_loop fuel' (memcpy buf p replace 2) (S p)
            search replace true
      end
  end.

Definition deen_keywords_single_substitute_german_usascii_abbreviations
    (str search replace : list byte) : list byte * bool :=
  single_substitute_loop (S (length str)) str 0 search replace false.

Definition s_Ee : list byte := bytes "EE".
Definition s_Ue : list byte := bytes "UE".
Definition s_Oe : list byte := bytes "OE".
Definition s_Ae : list byte := bytes "AE".
Definition s_Ie : list byte := bytes "IE".
Definition s_ss : list byte := bytes "SS".

Definition r_Ee : list byte := [xc3; x8b].
Definition r_Ue : list byte := [xc3; x9c].
Definition r_Oe : list byte := [xc3; x96].
Definition r_Ae : list byte := [xc3; x84].
Definition r_Ie : list byte := [xc3; x8f].
Definition r_ss : list byte := [xc3; x9f].

(** The search strings with their replacements, in the order the code
    applies them. *)
Definition digraphs : list (list byte * list byte) :=
  [(s_Ee, r_Ee); (s_Ue, r_Ue); (s_Oe, r_Oe); (s_Ae, r_Ae); (s_Ie, r_Ie); (s_ss, r_ss)].

Definition deen_keywords_substitute_german_usascii_abbreviations
    (value : list byte) : list byte * bool :=
  let adjusted := false in
  let '(value, r) := deen_keywords_single_substitute_german_usascii_abbreviations value s_Ee r_Ee in
  let adjusted := adjusted || r in
  let '(value, r) := deen_keywords_single_substitute_german_usascii_abbreviations value s_Ue r_Ue in
  let adjusted := adjusted || r in
  let '(value, r) := deen_keywords_single_substitute_german_usascii_abbreviations value s_Oe r_Oe in
  let adjusted := adjusted || r in
  let '(value, r) := deen_keywords_single_substitute_german_usascii_abbreviations value s_Ae r_Ae in
  let adjusted := adjusted || r in
  let '(value, r) := deen_keywords_single_substitute_german_usascii_abbreviations value s_Ie r_Ie in
  let adjusted := adjusted || r in
  let '(value, r) := deen_keywords_single_substitute_german_usascii_abbreviations value s_ss r_ss in
  let adjusted := adjusted || r in
  (value, adjusted).

(** [deen_keywords_adjust]: the keywords after the call, and its result. *)
Fixpoint adjust_from (keywords : deen_keywords) (adjusted : bool) : deen_keywords * bool :=
  match keywords with
  | [] => ([], adjusted)
  | k :: rest =>
      let '(k', r) := deen_keywords_substitute_german_usascii_abbreviations k in
      let '(rest', adjusted') := adjust_from rest (adjusted || r) in
      (k' :: rest', adjusted')
  end.

Definition deen_keywords_adjust (keywords : deen_keywords) : deen_keywords * bool :=
  adjust_from keywords false.

Section WithCommon.
Context {common : Common}.

Definition deen_keywords_sequence_count_or_exit (c : list byte) (len : nat) : option nat :=
  match deen_utf8_sequences_count (take len c) with
  | (DEEN_SEQUENCE_OK, sequence_count) => Some sequence_count
  | (DEEN_BAD_SEQUENCE, _) => None        (* deen_log_error_and_exit *)
  | (DEEN_INCOMPLETE_SEQUENCE, _) => None (* deen_log_error_and_exit *)
  end.

(** The comparator handed to qsort; [None] when it ends the process. *)
Definition deen_keywords_compare_length (c1 c2 : list byte) : option Z :=
  let cl1 := length c1 in
  let cl2 := length c2 in
  sequence_count_1 ← deen_keywords_sequence_count_or_exit c1 cl1;
  sequence_count_2 ← deen_keywords_sequence_count_or_exit c2 cl2;
  if decide (sequence_count_1 = sequence_count_2) then Some (strcmp c1 c2)
  else if decide (sequence_count_1 < sequence_count_2) then Some 1%Z
  else Some (-1)%Z.

Definition deen_keywords_create : deen_keywords := [].

(** [prefix] points into the input buffer; a keyword is stored with its
    terminator. *)
Fixpoint deen_keywords_has_prefix (keywords : deen_keywords)
    (prefix : list byte) (prefix_len : nat) : bool :=
  match keywords with
  | [] => false
  | k :: rest =>
      if memcmp_eq (k ++ [x00]) prefix prefix_len then true
      else deen_keywords_has_prefix rest prefix prefix_len
  end.

(** [while (c) i++] over the rest of the input: what is left of it. *)
Fixpoint skip_while (c : byte → bool) (input : list byte) : list byte :=
  match input with
  | [] => []
  | b :: rest => if c b then skip_while c rest else input
  end.

(** The outer loop of [deen_keywords_add_from_string]; [input] is the rest
    of the input from offset [i] to [input_length].  Each round consumes at
    least one byte of it. *)
Fixpoint add_from_string_loop (fuel : nat) (keywords : deen_keywords)
    (input : list byte) : deen_keywords :=
  match fuel, input with
  | 0, _ => keywords
  | _, [] => keywords
  | S fuel', _ :: _ =>
      let at_start := skip_while isspace input in
      let at_i := skip_while (λ b, negb (isspace b)) at_start in
      let len := length at_start - length at_i in (* i - start *)
      if (0 <? len)
         && negb (deen_is_common_upper_word (take len at_start))
         && negb (deen_keywords_has_prefix keywords at_start len)
      then add_from_string_loop fuel' (keywords ++ [take len at_start]) at_i
      else add_from_string_loop fuel' keywords at_i
  end.

(** The keywords in the order the loop appended them, before the sort. *)
Definition deen_keywords_collect (keywords : deen_keywords) (input : list byte)
    : deen_keywords :=
  let input := cstr (deen_to_upper input) in (* input_length = strlen(input) *)
  add_from_string_loop (length input) keywords input.

(** [None]: the comparator ended the process during the sort. *)
Definition deen_keywords_add_from_string (keywords : deen_keywords)
    (input : list byte) : option deen_keywords :=
  qsort_or_exit deen_keywords_compare_length (deen_keywords_collect keywords input).

Fixpoint deen_keywords_longest_keyword_from (keywords : deen_keywords) (longest : nat) : nat :=
  match keywords with
  | [] => longest
  | k :: rest =>
      let len := length k in
      deen_keywords_longest_keyword_from rest (if decide (longest < len) then len else longest)
  end.

Definition deen_keywords_longest_keyword (keywords : deen_keywords) : nat :=
  deen_keywords_longest_keyword_from keywords 0.

Fixpoint deen_keywords_all_present (keywords : deen_keywords) (input : list byte) : bool :=
  let input_len := length input in
  match keywords with
  | [] => true
  | k :: rest =>
      match deen_ifind_first input k 0 input_len with
      | None => false
      | Some _ => deen_keywords_all_present rest input
      end
  end.

End WithCommon.

End Keyword.



(** ** install.c *)
Module Install.
Import CLib.

Definition DEEN_SIZE_CHECK_DING_BUFFER : nat := 4 * 1024.
Definition DEEN_SIZE_FILE_COPY_BUFFER : nat := 4 * 1024.
Definition DEEN_SIZE_UPPER_BUFFER : nat := 32.

Inductive deen_install_state :=
  | DEEN_INSTALL_STATE_IDLE
  | DEEN_INSTALL_STATE_STARTING
  | DEEN_INSTALL_STATE_INDEXING
  | DEEN_INSTALL_STATE_COMPLETED
  | DEEN_INSTALL_STATE_ERROR.

Inductive deen_install_check_ding_format_check_result :=
  | DEEN_INSTALL_CHECK_OK
  | DEEN_INSTALL_CHECK_IS_COMPRESSED
  | DEEN_INSTALL_CHECK_IO_PROBLEM
  | DEEN_INSTALL_CHECK_TOO_SMALL
  | DEEN_INSTALL_CHECK_BAD_FORMAT.

#[global] Instance deen_install_state_eq_dec : EqDecision deen_install_state.
Proof. solve_decision. Defined.

#[global] Instance check_result_eq_dec :
  EqDecision deen_install_check_ding_format_check_result.
Proof. solve_decision. Defined.

(** *** The format check *)

(** The inner loop [while (upto < SIZE && 0x0a != buffer[upto]) upto++] on
    the rest of the buffer from [curr]: the bytes before the newline and
    the rest behind it, or [None] when [upto] reaches the end. *)
Fixpoint find_newline (buffer : list byte) : option (list byte * list byte) :=
  match buffer with
  | [] => None
  | b :: rest =>
      if decide (b = x0a) then Some ([], rest)
      else '(line, rest') ← find_newline rest; Some (b :: line, rest')
  end.

(** The outer loop; [buffer] is the rest of the buffer from [upto].  Every
    round moves [upto] behind a newline, so [length buffer] rounds are
    enough.  After [buffer[upto] = 0] the string at [curr] is the line up to
    its first NUL, and [buffer[curr]] is the first byte of the line, or the
    NUL just written when the line is empty. *)
Fixpoint check_lines (fuel : nat) (buffer : list byte)
    (result : deen_install_check_ding_format_check_result) (found_ok_line : bool)
    : deen_install_check_ding_format_check_result * bool :=
  match fuel with
  | 0 => (result, found_ok_line)
  | S fuel' =>
      if bool_decide (result = DEEN_INSTALL_CHECK_OK) && negb found_ok_line
         && bool_decide (buffer ≠ [])
      then
        match find_newline buffer with
        | None => (result, found_ok_line) (* upto = SIZE: the loop ends *)
        | Some (line, rest) =>
            let at_curr := hd x00 (line ++ [x00]) in
            if bool_decide (at_curr ≠ "#"%byte) && bool_decide (at_curr ≠ x0a)
               && bool_decide (at_curr ≠ x00)
            then
              match strstr_off (cstr line) (bytes "::") with
              | Some _ => check_lines fuel' rest result true
              | None => check_lines fuel' rest DEEN_INSTALL_CHECK_BAD_FORMAT found_ok_line
              end
            else check_lines fuel' rest result found_ok_line
        end
      else (result, found_ok_line)
  end.

(** Does the file name end in ".gz"? *)
Definition ends_in_gz (filename : string) : bool :=
  (3 <? String.length filename)
  && bool_decide (String.substring (String.length filename - 3) 3 filename = ".gz"%string).

(** [open] and [read] see a file system of regular files: a path opens
    when it names a file, and a read of 4096 bytes is short only at the
    end of the file. *)
Definition deen_install_check_for_ding_format (fs : gmap string (list byte))
    (filename : string) : deen_install_check_ding_format_check_result :=
  if ends_in_gz filename then DEEN_INSTALL_CHECK_IS_COMPRESSED
  else
    match fs !! filename with
    | None => DEEN_INSTALL_CHECK_IO_PROBLEM
    | Some content =>
        let buffer := take DEEN_SIZE_CHECK_DING_BUFFER content in
        if bool_decide (length buffer ≠ DEEN_SIZE_CHECK_DING_BUFFER)
        then DEEN_INSTALL_CHECK_TOO_SMALL
        else
          let '(result, found_ok_line) :=
            check_lines (length buffer) buffer DEEN_INSTALL_CHECK_OK false in
          if bool_decide (result = DEEN_INSTALL_CHECK_OK) && negb found_ok_line
          then DEEN_INSTALL_CHECK_BAD_FORMAT
          else result
    end.

(** *** The world of an install *)

(** A cancellation callback: what it answers to its [n]-th call. *)
Definition deen_is_cancelled_cb := nat → bool.

(** A progress callback; the code ignores what it returns. *)
Definition deen_install_progress_cb := deen_install_state → Q → bool.

(** What the operating system and sqlite do when asked. *)
Record environment := {
  (** [mkdir] succeeds where no object is *)
  env_mkdir_ok : bool;
  (** [stat] succeeds on the object at the path; it fails on an object it
      cannot examine (a directory on the way cannot be searched, a link
      leads nowhere) *)
  env_stat_ok : string → bool;
  (** [remove] succeeds on the object at the path *)
  env_remove_succeeds : string → bool;
  env_dest_open_ok : bool;
  (** the [n]-th [write] of the copy writes all it was given *)
  env_write_ok : nat → bool;
  env_db_open_ok : bool;
  (** [Some n]: reading the data file fails after [n] words *)
  env_read_fails_after : option nat;
}.

(** [deen_remove_fileobject] can remove the object at the path: [stat]
    finds it and [remove] succeeds on it. *)
Definition env_remove_ok (env : environment) (filename : string) : bool :=
  env_stat_ok env filename && env_remove_succeeds env filename.

Record world := {
  (** the files: path to content (a directory has none) *)
  fs : gmap string (list byte);
  (** the answers of the cancellation callback so far, latest last *)
  polls : list bool;
  (** the calls of the progress callback so far, latest last *)
  events : list (deen_install_state * Q);
  (** [deen_index_init] was called *)
  db_initialised : bool;
  (** the calls of [deen_index_add]: ref and prefixes, latest last *)
  index_rows : list (Z * list (list byte));
}.

Definition set_fs (f : gmap string (list byte) → gmap string (list byte)) (w : world) : world :=
  {| fs := f (fs w); polls := polls w; events := events w;
     db_initialised := db_initialised w; index_rows := index_rows w |}.

Definition add_poll (answer : bool) (w : world) : world :=
  {| fs := fs w; polls := polls w ++ [answer]; events := events w;
     db_initialised := db_initialised w; index_rows := index_rows w |}.

Definition add_event (e : deen_install_state * Q) (w : world) : world :=
  {| fs := fs w; polls := polls w; events := events w ++ [e];
     db_initialised := db_initialised w; index_rows := index_rows w |}.

Definition set_db_initialised (w : world) : world :=
  {| fs := fs w; polls := polls w; events := events w;
     db_initialised := true; index_rows := index_rows w |}.

Definition add_index_row (row : Z * list (list byte)) (w : world) : world :=
  {| fs := fs w; polls := polls w; events := events w;
     db_initialised := db_initialised w; index_rows := index_rows w ++ [row] |}.

(** Code that changes the world, and that a call through a NULL function
    pointer ends ([None]). *)
Definition M (A : Type) : Type := world → option (A * world).

#[global] Instance M_ret : MRet M := λ A x w, Some (x, w).
#[global] Instance M_bind : MBind M := λ A B f m w,
  match m w with
  | Some (x, w') => f x w'
  | None => None
  end.

Definition modify (f : world → world) : M unit := λ w, Some (tt, f w).
Definition gets {A : Type} (f : world → A) : M A := λ w, Some (f w, w).

(** [is_cancelled_cb(context)] *)
Definition call_is_cancelled (cb : option deen_is_cancelled_cb) : M bool := λ w,
  match cb with
  | None => None
  | Some f => let answer := f (length (polls w)) in Some (answer, add_poll answer w)
  end.

(** [progress_cb(context, state, progress)] *)
Definition call_progress (cb : option deen_install_progress_cb)
    (state : deen_install_state) (progress : Q) : M unit := λ w,
  match cb with
  | None => None
  | Some f => let _ := f state progress in Some (tt, add_event (state, progress) w)
  end.

(** [stat] fails where no object is (ENOENT) and on an object it cannot
    examine; the code answers false on either branch. *)
Definition deen_exists_fileobject (env : environment) (filename : string) : M bool :=
  gets (λ w, env_stat_ok env filename && bool_decide (is_Some (fs w !! filename))).

(** [mkdir] fails on a path where an object is. *)
Definition mkdir (env : environment) (path : string) : M bool :=
  absent ← gets (λ w, bool_decide (fs w !! path = None));
  if env_mkdir_ok env && absent
  then _ ← modify (set_fs (insert path [])); mret true
  else mret false.

Definition deen_remove_fileobject (env : environment) (filename : string) : M bool :=
  exists_ ← deen_exists_fileobject env filename;
  if exists_ : bool then
    if env_remove_succeeds env filename
    then _ ← modify (set_fs (delete filename)); mret true
    else mret false
  else mret true.

Section WithCommon.
Context {common : Common}.

Definition deen_remove_fileobject_in_root_dir (env : environment)
    (deen_root_dir leafname : string) : M bool :=
  deen_remove_fileobject env (deen_root_dir +:+ DEEN_FILE_SEP +:+ leafname).

Definition deen_install_init (env : environment) (deen_root_dir : string) : M bool :=
  exists_ ← deen_exists_fileobject env deen_root_dir;
  created ← (if exists_ : bool then mret true else mkdir env deen_root_dir);
  if created : bool then
    removed ← deen_remove_fileobject_in_root_dir env deen_root_dir DEEN_LEAF_INDEX;
    if removed : bool then
      deen_remove_fileobject_in_root_dir env deen_root_dir DEEN_LEAF_DING_DATA
    else mret false
  else mret false.

(** *** The index callback *)

(** [struct deen_index_context].  The handles [index_add_context] and
    [progress_cb_context] carry no data of their own here: the index
    database and whatever the callbacks look at are part of the world.
    [prefixes] are the allocated slots, of which the first [prefix_count]
    are the prefixes of the current ref. *)
Record deen_index_context := {
  is_cancelled_cb : option deen_is_cancelled_cb;
  lastprogress : Q;
  progress_cb : option deen_install_progress_cb;
  c_buffer_upper : list byte;
  c_buffer_upper_len : nat;
  current_ref : Z;
  prefix_count : nat;
  prefix_count_allocated : nat;
  prefixes : list (list byte);
}.

Definition set_progress (ref : Z) (progress : Q) (c : deen_index_context) : deen_index_context :=
  {| is_cancelled_cb := is_cancelled_cb c; lastprogress := progress;
     progress_cb := progress_cb c; c_buffer_upper := c_buffer_upper c;
     c_buffer_upper_len := c_buffer_upper_len c; current_ref := ref;
     prefix_count := prefix_count c;
     prefix_count_allocated := prefix_count_allocated c; prefixes := prefixes c |}.

Definition set_buffer (buffer : list byte) (len : nat) (c : deen_index_context) : deen_index_context :=
  {| is_cancelled_cb := is_cancelled_cb c; lastprogress := lastprogress c;
     progress_cb := progress_cb c; c_buffer_upper := buffer;
     c_buffer_upper_len := len; current_ref := current_ref c;
     prefix_count := prefix_count c;
     prefix_count_allocated := prefix_count_allocated c; prefixes := prefixes c |}.

Definition set_prefixes (count allocated : nat) (slots : list (list byte))
    (c : deen_index_context) : deen_index_context :=
  {| is_cancelled_cb := is_cancelled_cb c; lastprogress := lastprogress c;
     progress_cb := progress_cb c; c_buffer_upper := c_buffer_upper c;
     c_buffer_upper_len := c_buffer_upper_len c; current_ref := current_ref c;
     prefix_count := count;
     prefix_count_allocated := allocated; prefixes := slots |}.

(** [deen_index_prefix_compare] *)
Definition deen_index_prefix_compare (a b : list byte) : Z := strcmp a b.

(** The new slot is allocated, not yet written; the sort is over the first
    [prefix_count] slots. *)
Definition deen_index_add_prefix_to_context (context : deen_index_context)
    (s : list byte) (len : nat) : deen_index_context :=
  let '(allocated, slots) :=
    if decide (prefix_count context = prefix_count_allocated context)
    then (S (prefix_count_allocated context), prefixes context ++ [[]])
    else (prefix_count_allocated context, prefixes context) in
  let slots := <[prefix_count context := take len s]> slots in
  let count := S (prefix_count context) in
  let slots := qsort deen_index_prefix_compare (take count slots) ++ drop count slots in
  set_prefixes count allocated slots context.

Definition deen_index_add_prefix_to_context_if_not_present
    (context : deen_index_context) (s : list byte) (len : nat) : deen_index_context :=
  if decide (prefix_count context = 0)
  then deen_index_add_prefix_to_context context s len
  else
    match bsearch deen_index_prefix_compare s
            (take (prefix_count context) (prefixes context)) with
    | None => deen_index_add_prefix_to_context context s len
    | Some _ => context
    end.

(** [deen_index_add] is a call into index.c: the world records it. *)
Definition deen_index_flush_context_prefixes_to_index
    (context : deen_index_context) : M deen_index_context :=
  if decide (prefix_count context ≠ 0) then
    _ ← modify (add_index_row
                  (current_ref context, take (prefix_count context) (prefixes context)));
    mret (set_prefixes 0 (prefix_count_allocated context) (prefixes context) context)
  else mret context.

(** [(uint8_t) (progress * 100.0)], on rationals in place of floats: the
    conversion cuts the fraction off, toward zero.  Where the result is
    outside of [uint8_t], as for the -100 of the first [lastprogress], C
    leaves the conversion open; it is taken modulo 256 here, as
    converting through [int] gives it. *)
Definition percent (progress : Q) : Z :=
  ((Qnum (progress * 100) ÷ Z.pos (Qden (progress * 100))) mod 256)%Z.

(** The first block of [deen_index_callback],
    [if (context2->current_ref != ref) { ... }]: the context after it. *)
Definition index_callback_new_ref (ref : Z) (progress : Q)
    (context2 : deen_index_context) : M deen_index_context :=
  if decide (current_ref context2 ≠ ref) then
    context2 ← deen_index_flush_context_prefixes_to_index context2;
    let context2 := set_progress ref (lastprogress context2) context2 in
    let last_percent := percent (lastprogress context2) in
    let percent := percent progress in
    if decide (percent ≠ last_percent) then
      _ ← call_progress (progress_cb context2) DEEN_INSTALL_STATE_INDEXING progress;
      mret (set_progress ref progress context2)
    else mret context2
  else mret context2.

(** The second block, [if (len >= DEEN_INDEXING_MIN) { ... }]: the result
    of the callback and the context after it. *)
Definition index_callback_word (s : list byte) (len : nat)
    (context2 : deen_index_context) : M (bool * deen_index_context) :=
  if decide (DEEN_INDEXING_MIN ≤ len) then
    cancelled ← call_is_cancelled (is_cancelled_cb context2);
    if cancelled : bool then mret (false, context2) (* stop processing *)
    else
      let buffer_len :=
        if decide (c_buffer_upper_len context2 = 0) then DEEN_SIZE_UPPER_BUFFER
        else c_buffer_upper_len context2 in
      let buffer_len := if decide (buffer_len ≤ len) then len + 1 else buffer_len in
      let upper := deen_to_upper (take len s) in
      let context2 := set_buffer upper buffer_len context2 in
      if negb (deen_is_common_upper_word (take len upper)) then
        let '(cropped, unicode_length) :=
          deen_utf8_crop_to_unicode_len (take len upper) DEEN_INDEXING_DEPTH in
        let context2 := set_buffer cropped buffer_len context2 in
        if decide (DEEN_INDEXING_MIN ≤ unicode_length) then
          mret (true, deen_index_add_prefix_to_context_if_not_present
                        context2 (cstr cropped) (strlen cropped))
        else mret (true, context2)
      else mret (true, context2)
  else mret (true, context2).

Definition deen_index_callback (s : list byte) (len : nat) (ref : Z) (progress : Q)
    (context2 : deen_index_context) : M (bool * deen_index_context) :=
  context2 ← index_callback_new_ref ref progress context2;
  index_callback_word s len context2.

Definition deen_noop_is_cancelled_cb : deen_is_cancelled_cb := λ _, false.

Definition deen_noop_install_progress_cb : deen_install_progress_cb := λ _ _, true.

(** Modelled from the spec: [deen_for_each_word_from_file] is part of
    common.c, which is not at hand.  It calls the callback once for each
    word of the file, in order, with the word, its length, its ref and the
    progress; when the callback returns false it stops and returns false;
    it returns true when it got through the file, and false when reading
    failed. *)
Fixpoint for_each_word (words : list (list byte * Z * Q))
    (process_callback : list byte → nat → Z → Q → deen_index_context →
                        M (bool * deen_index_context))
    (context : deen_index_context) : M (bool * deen_index_context) :=
  match words with
  | [] => mret (true, context)
  | (s, ref, progress) :: rest =>
      '(continue, context) ← process_callback s (length s) ref progress context;
      if continue : bool then for_each_word rest process_callback context
      else mret (false, context)
  end.

Definition deen_for_each_word_from_file (env : environment) (content : list byte)
    (process_callback : list byte → nat → Z → Q → deen_index_context →
                        M (bool * deen_index_context))
    (context : deen_index_context) : M (bool * deen_index_context) :=
  match env_read_fails_after env with
  | None => for_each_word (deen_file_words content) process_callback context
  | Some n =>
      '(continue, context) ←
        for_each_word (take n (deen_file_words content)) process_callback context;
      mret (false, context)
  end.

(** *** [deen_install_from_path] *)

(** [DEEN_INSTALL_RAISE_ERROR]: the value is the new [is_error]. *)
Definition DEEN_INSTALL_RAISE_ERROR (progress_cb : option deen_install_progress_cb)
    : M bool :=
  _ ← call_progress progress_cb DEEN_INSTALL_STATE_ERROR 0;
  mret true.

(** [!is_error && !is_cancelled_cb(process_cb_context)]: the callback is
    asked only when there is no error. *)
Definition neither_error_nor_cancelled (is_error : bool)
    (is_cancelled_cb : option deen_is_cancelled_cb) : M bool :=
  if is_error then mret false
  else cancelled ← call_is_cancelled is_cancelled_cb; mret (negb cancelled).

(** [is_error || is_cancelled_cb(process_cb_context)] *)
Definition error_or_cancelled (is_error : bool)
    (is_cancelled_cb : option deen_is_cancelled_cb) : M bool :=
  if is_error then mret true else call_is_cancelled is_cancelled_cb.

(** The copy loop: [src] is what is left to read, [n] counts the writes. *)
Fixpoint copy_loop (fuel : nat) (env : environment) (data_path : string)
    (progress_cb : option deen_install_progress_cb)
    (src : list byte) (n : nat) (is_error : bool) : M bool :=
  match fuel with
  | 0 => mret is_error
  | S fuel' =>
      if is_error then mret is_error
      else
        let chunk := take DEEN_SIZE_FILE_COPY_BUFFER src in
        if decide (0 < length chunk) then
          if env_write_ok env n then
            _ ← modify (set_fs (λ fs, <[data_path := default [] (fs !! data_path) ++ chunk]> fs));
            copy_loop fuel' env data_path progress_cb
              (drop DEEN_SIZE_FILE_COPY_BUFFER src) (S n) is_error
          else
            is_error ← DEEN_INSTALL_RAISE_ERROR progress_cb;
            copy_loop fuel' env data_path progress_cb
              (drop DEEN_SIZE_FILE_COPY_BUFFER src) (S n) is_error
        else mret is_error
  end.

(** "first thing is to copy the file over to the new location" *)
Definition install_copy (env : environment) (ding_filename data_path : string)
    (progress_cb : option deen_install_progress_cb) (is_error : bool) : M bool :=
  fd_src_data ← gets (λ w, fs w !! ding_filename);
  match fd_src_data with
  | None => DEEN_INSTALL_RAISE_ERROR progress_cb
  | Some _ =>
      if env_dest_open_ok env then
        _ ← modify (set_fs (insert data_path [])); (* O_CREAT|O_TRUNC *)
        src ← gets (λ w, default [] (fs w !! ding_filename));
        copy_loop (S (length src)) env data_path progress_cb src 0 is_error
      else DEEN_INSTALL_RAISE_ERROR progress_cb
  end.

(** "create the target sqllite database": the new [is_error], and whether
    [db] is open. *)
Definition install_open_db (env : environment) (index_path : string)
    (progress_cb : option deen_install_progress_cb) (is_error : bool) : M (bool * bool) :=
  if env_db_open_ok env then
    _ ← modify (set_fs (λ fs, <[index_path := default [] (fs !! index_path)]> fs));
    mret (is_error, true)
  else
    is_error ← DEEN_INSTALL_RAISE_ERROR progress_cb;
    mret (is_error, false).

(** [fd_data = open(data_path, O_RDONLY)]: the new [is_error] and the file
    behind [fd_data]. *)
Definition install_open_data (data_path : string)
    (progress_cb : option deen_install_progress_cb) (is_error : bool)
    : M (bool * option (list byte)) :=
  fd_data ← gets (λ w, fs w !! data_path);
  if bool_decide (fd_data = None) || DEEN_CAUSE_ERROR_IN_INSTALL then
    is_error ← DEEN_INSTALL_RAISE_ERROR progress_cb;
    mret (is_error, fd_data)
  else mret (is_error, fd_data).

(** The indexing block: the new [is_error]. *)
Definition install_index (env : environment) (fd_data : option (list byte))
    (progress_cb : option deen_install_progress_cb)
    (is_cancelled_cb : option deen_is_cancelled_cb) (is_error : bool) : M bool :=
  let index_context :=
    {| is_cancelled_cb := is_cancelled_cb; lastprogress := (-1)%Q;
       progress_cb := progress_cb; c_buffer_upper := []; c_buffer_upper_len := 0;
       current_ref := 0%Z; prefix_count := 0; prefix_count_allocated := 0;
       prefixes := [] |} in
  '(ok, index_context) ←
    deen_for_each_word_from_file env (default [] fd_data) deen_index_callback
      index_context;
  is_error ← (if ok : bool then mret is_error
              else DEEN_INSTALL_RAISE_ERROR progress_cb);
  (* deen_transaction_commit *)
  _ ← deen_index_flush_context_prefixes_to_index index_context;
  mret is_error.

Definition deen_install_from_path (env : environment)
    (deen_root_dir ding_filename : string)
    (progress_cb : option deen_install_progress_cb)
    (is_cancelled_cb : option deen_is_cancelled_cb) : M bool :=
  let progress_cb :=
    match progress_cb with
    | None => Some deen_noop_install_progress_cb
    | Some _ => progress_cb
    end in
  let is_cancelled_cb :=
    match is_cancelled_cb with
    | None => Some deen_noop_is_cancelled_cb
    | Some _ => is_cancelled_cb
    end in
  let is_error := false in
  let data_path := deen_data_path deen_root_dir in
  let index_path := deen_index_path deen_root_dir in
  _ ← call_progress progress_cb DEEN_INSTALL_STATE_STARTING 0;
  _ ← deen_install_init env deen_root_dir;
  go ← neither_error_nor_cancelled is_error is_cancelled_cb;
  is_error ← (if go : bool
              then install_copy env ding_filename data_path progress_cb is_error
              else mret is_error);
  go ← neither_error_nor_cancelled is_error is_cancelled_cb;
  '(is_error, db) ← (if go : bool
                     then install_open_db env index_path progress_cb is_error
                     else mret (is_error, false));
  go ← neither_error_nor_cancelled is_error is_cancelled_cb;
  _ ← (if go : bool then modify set_db_initialised (* deen_index_init(db) *)
       else mret tt);
  go ← neither_error_nor_cancelled is_error is_cancelled_cb;
  '(is_error, fd_data) ← (if go : bool
                          then install_open_data data_path progress_cb is_error
                          else mret (is_error, None));
  go ← neither_error_nor_cancelled is_error is_cancelled_cb;
  is_error ← (if go : bool
              then install_index env fd_data progress_cb is_cancelled_cb is_error
              else mret is_error);
  (* close(fd_data); sqlite3_close_v2(db) *)
  clean_up ← error_or_cancelled is_error is_cancelled_cb;
  _ ← (if clean_up : bool then
         _ ← deen_remove_fileobject env data_path;
         _ ← deen_remove_fileobject env index_path;
         mret tt
       else mret tt);
  _ ← (if negb is_error
       then call_progress progress_cb DEEN_INSTALL_STATE_COMPLETED 1
       else
         cancelled ← call_is_cancelled is_cancelled_cb;
         if cancelled : bool
         then call_progress progress_cb DEEN_INSTALL_STATE_IDLE 0
         else mret tt);
  mret (negb is_error).

Definition deen_is_installed (env : environment) (deen_root_dir : string) : M bool :=
  deen_exists_fileobject env (deen_root_dir +:+ DEEN_FILE_SEP +:+ DEEN_LEAF_DING_DATA).

End WithCommon.
End Install.

(** ** common.h: the text primitives of the terminal output

    The three functions of [common.c] that [rendercommon.c] calls, as the
    operations of a class. *)
Class Text := {
  (** [deen_utf8_is_usascii_clean(c, c_length)] on the [c_length] bytes at
      [c] *)
  deen_utf8_is_usascii_clean : list byte → bool;
  (** [deen_utf8_sequence_len(c, c_length, &sequence_length)]: the result
      and the length written *)
  deen_utf8_sequence_len : list byte → deen_utf8_sequence_result * nat;
  (** [deen_utf8_usascii_equivalent(c, c_length)]; [None] is NULL *)
  deen_utf8_usascii_equivalent : list byte → option (list byte);
}.

(** ** rendercommon.c *)
Module Render.
Import CLib.

(** [size_t] arithmetic: 64 bits, wrapping. *)
Definition size_sub (a b : nat) : nat :=
  Z.to_nat ((Z.of_nat a - Z.of_nat b) mod 2 ^ 64).

Definition size_add (a b : nat) : nat :=
  Z.to_nat ((Z.of_nat a + Z.of_nat b) mod 2 ^ 64).

(** [lang_value] is the string that [getenv] returned, [None] for NULL. *)
Definition deen_term_is_utf8_langenv (lang_value : option (list byte)) : bool :=
  match lang_value with
  | Some lang_value =>
      let len := length lang_value in
      (6 <? len) && (strcmp (drop (len - 6) lang_value) (bytes ".UTF-8") =? 0)%Z
  | None => false
  end.

(** [lang] is the value of LANG in the environment. *)
Definition deen_term_is_utf8 (lang : option (list byte)) : bool :=
  deen_term_is_utf8_langenv lang.

(** [for (i = from; i < to; i++) fputc(str[i], stdout)]: the bytes put, for
    the [n] rounds that are left. *)
Fixpoint print_ascii_loop (str : list byte) (n i : nat) : list byte :=
  match n with
  | 0 => []
  | S n' => nth i str x00 :: print_ascii_loop str n' (S i)
  end.

Definition deen_term_print_ascii_str (str : list byte) (from to : nat) : list byte :=
  print_ascii_loop str (to - from) from.

Section WithText.
Context {text : Text}.

(** The loop of [deen_term_print_str_range] over the sequences: what it
    has put on stdout, and whether it has logged an error and returned.
    [None]: the rounds given were not enough. *)
Fixpoint print_sequences_loop (fuel : nat) (str : list byte) (len to i : nat)
    (out : list byte) : option (list byte * bool) :=
  if i <? to then
    match fuel with
    | 0 => None
    | S fuel' =>
        let c := take (size_sub len i) (drop i str) in (* &str[i], len - i *)
        match deen_utf8_sequence_len c with
        | (DEEN_SEQUENCE_OK, sequence_length) =>
            let out :=
              if decide (sequence_length = 1) then out ++ [nth i str x00]
              else match deen_utf8_usascii_equivalent c with
                   | Some equivalent => out ++ equivalent
                   | None => out ++ ["?"%byte]
                   end in
            print_sequences_loop fuel' str len to (size_add i sequence_length) out
        | (DEEN_BAD_SEQUENCE, _) => Some (out, true)
        | (DEEN_INCOMPLETE_SEQUENCE, _) => Some (out, true)
        end
    end
  else Some (out, false).

Definition deen_term_print_str_range (fuel : nat) (lang : option (list byte))
    (str : list byte) (from to : nat) : option (list byte * bool) :=
  if deen_term_is_utf8 lang then Some (deen_term_print_ascii_str str from to, false)
  else if deen_utf8_is_usascii_clean (take (size_sub to from) (drop from str))
  then Some (deen_term_print_ascii_str str from to, false)
  else
    let len := size_sub to from in
    print_sequences_loop fuel str len to from [].

(** [str] is the buffer; the string in it ends at its first NUL. *)
Definition deen_term_print_str (fuel : nat) (lang : option (list byte))
    (str : list byte) : option (list byte * bool) :=
  deen_term_print_str_range fuel lang str 0 (strlen str).

End WithText.
End Render.

(** ** common.c and constants.h as the specification describes them

    An implementation of the interface [Common], for the examples: what
    is proved above it holds for every implementation. *)
Module SpecCommon.
Import CLib.

Definition byte_in (lo hi : N) (b : byte) : bool :=
  (N.leb lo (Byte.to_N b) && N.leb (Byte.to_N b) hi)%bool.

Definition byte_sub_32 (b : byte) : byte :=
  default b (Byte.of_N (Byte.to_N b - 32)).

(** Modelled from the spec: [deen_to_upper] of common.c.  US-ASCII a-z
    becomes A-Z; the two-byte letters [ä ö ü ï ë] (C3 A4, C3 B6, C3 BC,
    C3 AF, C3 AB) become [Ä Ö Ü Ï Ë]; [ß] and all else stay. *)
Fixpoint to_upper (s : list byte) : list byte :=
  match s with
  | [] => []
  | b :: rest =>
      if decide (b = xc3) then
        match rest with
        | c :: rest' =>
            if bool_decide (c ∈ [xa4; xb6; xbc; xaf; xab])
            then xc3 :: byte_sub_32 c :: to_upper rest'
            else xc3 :: to_upper rest
        | [] => [xc3]
        end
      else (if byte_in 97 122 b then byte_sub_32 b else b) :: to_upper rest
  end.

(** Modelled from the spec: the common-word set of common.c, "a
    compile-time-fixed set of short upper-case tokens in both German and
    English"; the words that common.h names stand for it. *)
Definition common_words : list (list byte) := [bytes "THE"; bytes "DER"; bytes "WIR"].

Definition is_common_upper_word (s : list byte) : bool :=
  bool_decide (s ∈ common_words).

(** Modelled from the spec: [deen_utf8_sequence_len] of common.c, the
    classification of RFC 3629 by the leading byte. *)
Definition utf8_sequence_len (c : list byte) : deen_utf8_sequence_result * nat :=
  match c with
  | [] => (DEEN_INCOMPLETE_SEQUENCE, 0)
  | b :: _ =>
      let need :=
        if byte_in 0 127 b then 1
        else if byte_in 194 223 b then 2
        else if byte_in 224 239 b then 3
        else if byte_in 240 244 b then 4
        else 0 in
      if decide (need = 0) then (DEEN_BAD_SEQUENCE, 0)
      else if decide (need ≤ length c) then (DEEN_SEQUENCE_OK, need)
      else (DEEN_INCOMPLETE_SEQUENCE, 0)
  end.

(** Modelled from the spec: [deen_utf8_sequences_count], "repeated
    application of the above; same failure modes". *)
Fixpoint sequences_count_from (fuel : nat) (c : list byte) (count : nat)
    : deen_utf8_sequence_result * nat :=
  match fuel, c with
  | _, [] => (DEEN_SEQUENCE_OK, count)
  | 0, _ => (DEEN_SEQUENCE_OK, count)
  | S fuel', _ =>
      match utf8_sequence_len c with
      | (DEEN_SEQUENCE_OK, n) => sequences_count_from fuel' (drop n c) (S count)
      | (r, _) => (r, count)
      end
  end.

Definition utf8_sequences_count (c : list byte) : deen_utf8_sequence_result * nat :=
  sequences_count_from (length c) c 0.

(** Modelled from the spec: [deen_utf8_crop_to_unicode_len], which
    "truncates a UTF-8 buffer in place so that it contains exactly
    [min(N, total_chars)] code points; returns the resulting code-point
    count". *)
Fixpoint crop_from (c : list byte) (unicode_length : nat)
    : list byte * nat :=
  match unicode_length with
  | 0 => ([], 0)
  | S n =>
      match utf8_sequence_len c with
      | (DEEN_SEQUENCE_OK, k) =>
          let '(rest, count) := crop_from (drop k c) n in
          (take k c ++ rest, S count)
      | _ => ([], 0)
      end
  end.

(** Modelled from the spec: [deen_ifind_first], which "searches buffer
    [s[from..to)] for the first occurrence of needle [f], comparing
    byte-by-byte after uppercasing each byte of [s]". *)
Definition imatches_at (s f : list byte) (at_ : nat) : bool :=
  bool_decide ((λ b, if byte_in 97 122 b then byte_sub_32 b else b)
                 <$> take (length f) (drop at_ s) = f).

Fixpoint ifind_first_from (fuel : nat) (s f : list byte) (from to : nat) : option nat :=
  match fuel with
  | 0 => None
  | S fuel' =>
      if decide (from + length f ≤ to) then
        if imatches_at s f from then Some from
        else ifind_first_from fuel' s f (S from) to
      else None
  end.

Definition ifind_first (s f : list byte) (from to : nat) : option nat :=
  ifind_first_from (S to - from) s f from to.

(** Modelled from the spec: the words of [deen_for_each_word_from_file],
    the maximal runs of bytes that are neither whitespace nor control
    bytes, each with the offset behind the latest newline before it (its
    ref) and the share of the file read so far. *)
Fixpoint file_words_from (content : list byte) (size : nat) (offset : nat)
    (ref : nat) (word : list byte) : list (list byte * Z * Q) :=
  let progress := (Z.of_nat offset # Pos.of_nat size)%Q in
  match content with
  | [] => if decide (word = []) then [] else [(reverse word, Z.of_nat ref, progress)]
  | b :: rest =>
      if byte_in 0 32 b then
        let ref' := if decide (b = x0a) then S offset else ref in
        if decide (word = []) then file_words_from rest size (S offset) ref' []
        else (reverse word, Z.of_nat ref, progress)
               :: file_words_from rest size (S offset) ref' []
      else file_words_from rest size (S offset) ref (b :: word)
  end.

Definition file_words (content : list byte) : list (list byte * Z * Q) :=
  file_words_from content (length content) 0 0 [].

(** Modelled from the spec: the constants of constants.h.  The spec gives
    [D] "e.g. 3" and asks for [M ≤ D]; the installed files are dict.txt
    and index.db under the root. *)
#[export] Instance spec_common : Common := {|
  deen_to_upper := to_upper;
  deen_is_common_upper_word := is_common_upper_word;
  deen_utf8_sequences_count := utf8_sequences_count;
  deen_utf8_crop_to_unicode_len := crop_from;
  deen_ifind_first := ifind_first;
  deen_file_words := file_words;
  deen_data_path := λ root, (root +:+ "/" +:+ "dict.txt")%string;
  deen_index_path := λ root, (root +:+ "/" +:+ "index.db")%string;
  DEEN_INDEXING_MIN := 3;
  DEEN_INDEXING_DEPTH := 3;
  DEEN_CAUSE_ERROR_IN_INSTALL := false;
  DEEN_FILE_SEP := "/";
  DEEN_LEAF_INDEX := "index.db";
  DEEN_LEAF_DING_DATA := "dict.txt";
|}.

End SpecCommon.

(** ** The text primitives of the terminal output as the specification
    describes them *)
Module SpecText.
Import SpecCommon.

(** Modelled from the spec: [deen_utf8_is_usascii_clean], "true iff every
    byte has its high bit clear". *)
Definition is_usascii_clean (c : list byte) : bool := forallb (byte_in 0 127) c.

(** Modelled from the spec: [deen_utf8_usascii_equivalent], "for a single
    UTF-8 sequence, returns the canonical ASCII transliteration when one
    exists (e.g. ä to ae, ß to ss), otherwise null"; the German letters
    stand for the table of common.c. *)
Definition usascii_equivalent (c : list byte) : option (list byte) :=
  match c with
  | b0 :: b1 :: _ =>
      if decide (b0 = xc3) then
        if decide (b1 = xa4) then Some (bytes "ae")
        else if decide (b1 = xb6) then Some (bytes "oe")
        else if decide (b1 = xbc) then Some (bytes "ue")
        else if decide (b1 = x84) then Some (bytes "Ae")
        else if decide (b1 = x96) then Some (bytes "Oe")
        else if decide (b1 = x9c) then Some (bytes "Ue")
        else if decide (b1 = x9f) then Some (bytes "ss")
        else None
      else None
  | _ => None
  end.

#[export] Instance spec_text : Text := {|
  deen_utf8_is_usascii_clean := is_usascii_clean;
  deen_utf8_sequence_len := utf8_sequence_len;
  deen_utf8_usascii_equivalent := usascii_equivalent;
|}.

End SpecText.

(** ** The vocabulary of the specifications *)

Import CLib Keyword Install.

(** *** Umlaut recovery *)
Module AdjustSpec.

(** One left-to-right pass that replaces the two bytes [s0 s1] by [r0 r1]
    and goes on behind the replacement: the usual reading of "replace
    every occurrence" for one search string. *)
Fixpoint replace_pass (s0 s1 r0 r1 : byte) (s : list byte) : list byte :=
  match s with
  | a :: ((b :: t) as rest) =>
      if decide (a = s0 ∧ b = s1) then r0 :: r1 :: replace_pass s0 s1 r0 r1 t
      else a :: replace_pass s0 s1 r0 r1 rest
  | _ => s
  end.

(** The two bytes [p] stand at offset [i] of [s]. *)
Definition occurs_at (p s : list byte) (i : nat) : Prop :=
  take (length p) (drop i s) = p.

Definition occurs (p s : list byte) : Prop := ∃ i, occurs_at p s i.

(** The six passes in the order of the code. *)
Definition umlaut_passes (k : list byte) : list byte :=
  replace_pass "S" "S" xc3 x9f
    (replace_pass "I" "E" xc3 x8f
      (replace_pass "A" "E" xc3 x84
        (replace_pass "O" "E" xc3 x96
          (replace_pass "U" "E" xc3 x9c
            (replace_pass "E" "E" xc3 x8b k))))).

(** An occurrence at [i] that no occurrence of a digraph starting before
    it shares a byte with. *)
Definition unhindered (k : list byte) (i : nat) : Prop :=
  ∀ search replace j,
    (search, replace) ∈ digraphs → occurs_at search k j → j < i → S j < i.

(** The claim, read with the care that overlapping occurrences ask for:
    wherever a digraph stands in the keyword before the call, with no
    occurrence before it that shares a byte with it, its replacement
    stands after the call.  Every replacement that goes through the
    keyword from left to right does this much, whatever it does where
    occurrences overlap. *)
Definition replaces_every_occurrence (k k' : list byte) : Prop :=
  ∀ search replace i,
    (search, replace) ∈ digraphs → occurs_at search k i → unhindered k i →
    occurs_at replace k' i.

(** One pass from left to right that replaces any of the digraphs where
    it finds one and goes on behind the replacement. *)
Fixpoint replace_scan (s : list byte) : list byte :=
  match s with
  | a :: ((b :: t) as rest) =>
      match List.find (λ d, bool_decide (d.1 = [a; b])) digraphs with
      | Some d => d.2 ++ replace_scan t
      | None => a :: replace_scan rest
      end
  | _ => s
  end.

(** An occurrence at [i] that shares no byte with another occurrence of a
    digraph. *)
Definition isolated (k : list byte) (i : nat) : Prop :=
  ∀ search replace j,
    (search, replace) ∈ digraphs → occurs_at search k j → j = i ∨ S j < i ∨ S i < j.

(** The bytes the search strings are made of. *)
Definition letter (b : byte) : Prop := b ∈ bytes "AEIOUS".

#[global] Instance letter_dec b : Decision (letter b).
Proof. unfold letter. apply _. Defined.

(** [digraphs] byte by byte: search [s0 s1], replacement [r0 r1]. *)
Definition pass_table : list (byte * byte * byte * byte) :=
  [("E", "E", xc3, x8b); ("U", "E", xc3, x9c); ("O", "E", xc3, x96);
   ("A", "E", xc3, x84); ("I", "E", xc3, x8f); ("S", "S", xc3, x9f)]%byte.

Definition search_of (d : byte * byte * byte * byte) : list byte :=
  let '(s0, s1, _, _) := d in [s0; s1].

Definition replace_of (d : byte * byte * byte * byte) : list byte :=
  let '(_, _, r0, r1) := d in [r0; r1].

(** A table of search strings made of letters, replaced by other bytes. *)
Definition table_ok (ds : list (byte * byte * byte * byte)) : Prop :=
  Forall (λ '(s0, s1, r0, r1), letter s0 ∧ letter s1 ∧ ¬ letter r0 ∧ ¬ letter r1) ds.

(** The passes of a table one after the other, with the flag the code
    accumulates. *)
Fixpoint run_passes (ds : list (byte * byte * byte * byte)) (k : list byte)
    (adjusted : bool) : list byte * bool :=
  match ds with
  | [] => (k, adjusted)
  | (s0, s1, r0, r1) :: ds' =>
      run_passes ds' (replace_pass s0 s1 r0 r1 k)
        (adjusted || bool_decide (is_Some (strstr_off k [s0; s1])))
  end.

(** [r] is [s] with some letters overwritten by bytes that are no letters. *)
Definition overwrites (s r : list byte) : Prop :=
  length r = length s
  ∧ ∀ i, r !! i = s !! i
         ∨ ∃ b c, s !! i = Some b ∧ r !! i = Some c ∧ letter b ∧ ¬ letter c.

(** [isolated] for the search strings of a table. *)
Definition isolated_in (ds : list (byte * byte * byte * byte)) (k : list byte)
    (i : nat) : Prop :=
  ∀ d j, d ∈ ds → occurs_at (search_of d) k j → j = i ∨ S j < i ∨ S i < j.

End AdjustSpec.
Import AdjustSpec.

(** *** The keyword set *)
Module KeywordSpec.

(** Ascending lexicographic order of the bytes, as unsigned numbers. *)
Fixpoint lex_le (a b : list byte) : Prop :=
  match a, b with
  | [], _ => True
  | _ :: _, [] => False
  | x :: a', y :: b' =>
      (Byte.to_N x < Byte.to_N y)%N ∨ (x = y ∧ lex_le a' b')
  end.

(** No member is a prefix of (or equal to) another member. *)
Definition prefix_free (ks : deen_keywords) : Prop :=
  ∀ i j a b, i ≠ j → ks !! i = Some a → ks !! j = Some b → ¬ a `prefix_of` b.

(** The words of a string: its runs of bytes that are no whitespace, from
    left to right; [word] is the run read so far. *)
Fixpoint words_from (word input : list byte) : list (list byte) :=
  match input with
  | [] => if decide (word = []) then [] else [word]
  | b :: rest =>
      if isspace b
      then (if decide (word = []) then [] else [word]) ++ words_from [] rest
      else words_from (word ++ [b]) rest
  end.

Definition words (input : list byte) : list (list byte) := words_from [] input.

Section WithCommon.
Context {common : Common}.

(** [a] comes before [b]: more UTF-8 sequences, or as many and not above
    [b] in lexicographic order. *)
Definition keyword_before (a b : list byte) : Prop :=
  ∃ ca cb,
    deen_utf8_sequences_count a = (DEEN_SEQUENCE_OK, ca)
    ∧ deen_utf8_sequences_count b = (DEEN_SEQUENCE_OK, cb)
    ∧ (cb < ca ∨ (ca = cb ∧ lex_le a b)).

(** The keyword set behind a word: the word is appended unless it is a
    common word or a prefix of (or equal to) a keyword of the set. *)
Definition keep_word (keywords : deen_keywords) (t : list byte) : deen_keywords :=
  if deen_is_common_upper_word t then keywords
  else if decide (Exists (λ k, t `prefix_of` k) keywords) then keywords
  else keywords ++ [t].

End WithCommon.
End KeywordSpec.
Import KeywordSpec.

(** *** The format check *)
Module CheckSpec.

(** The lines of a buffer that end in a newline within it, in order; what
    follows the last newline is no line of the buffer. *)
Fixpoint terminated_lines_acc (acc buffer : list byte) : list (list byte) :=
  match buffer with
  | [] => []
  | b :: rest =>
      if decide (b = x0a) then reverse acc :: terminated_lines_acc [] rest
      else terminated_lines_acc (b :: acc) rest
  end.

Definition terminated_lines (buffer : list byte) : list (list byte) :=
  terminated_lines_acc [] buffer.

(** A line that is neither empty nor a comment (nor starts with a NUL). *)
Definition significant (line : list byte) : bool :=
  match line with
  | [] => false
  | b :: _ => bool_decide (b ≠ "#"%byte) && bool_decide (b ≠ x00)
  end.

(** The line holds the separator; a line is read as a C string, up to its
    first NUL if it has one. *)
Definition has_separator (line : list byte) : Prop :=
  occurs (bytes "::") (cstr line).

(** A valid data line. *)
Definition data_line (line : list byte) : Prop :=
  significant line = true ∧ has_separator line.

(** The first line of the buffer that is neither empty nor a comment. *)
Definition first_significant (buffer : list byte) : option (list byte) :=
  List.find significant (terminated_lines buffer).

End CheckSpec.
Import CheckSpec.

(** *** Code that runs in a world *)
Module Run.

(** [m], started in [w], does not end in a call through NULL, and its
    value and the world it leaves satisfy [post]. *)
Definition total {A : Type} (m : M A) (w : world) (post : A → world → Prop) : Prop :=
  ∃ x w', m w = Some (x, w') ∧ post x w'.

(** The world after differs from the world before at most in its files. *)
Definition same_but_fs (w w' : world) : Prop :=
  polls w' = polls w ∧ events w' = events w
  ∧ db_initialised w' = db_initialised w ∧ index_rows w' = index_rows w.

(** From [w] to [w'] the cancellation callback [f] was asked some more
    times, the progress callback was told of indexing and of errors, and
    [is_error] was set exactly when an error was told. *)
Definition advances (f : deen_is_cancelled_cb) (is_error is_error' : bool)
    (w w' : world) : Prop :=
  ∃ ps evs,
    polls w' = polls w ++ ps ∧ events w' = events w ++ evs
    ∧ Forall (λ b, ∃ n, b = f n) ps
    ∧ Forall (λ e : deen_install_state * Q,
                e.1 = DEEN_INSTALL_STATE_INDEXING ∨ e.1 = DEEN_INSTALL_STATE_ERROR) evs
    ∧ (is_error' = true
       ↔ is_error = true
         ∨ Exists (λ e : deen_install_state * Q, e.1 = DEEN_INSTALL_STATE_ERROR) evs).

End Run.
Import Run.

(** *** The index callback *)
Module CallbackSpec.

(** The prefixes of the current ref: the first [prefix_count] slots. *)
Definition bag (c : deen_index_context) : list (list byte) :=
  take (prefix_count c) (prefixes c).

(** The slots are those allocated, and the prefixes are among them. *)
Definition context_ok (c : deen_index_context) : Prop :=
  prefix_count c ≤ prefix_count_allocated c
  ∧ prefix_count_allocated c = length (prefixes c).

(** The bag a word of ref [ref] finds: that of the context when it is on
    this ref, empty when the word starts a new ref. *)
Definition bag_at_ref (ref : Z) (c : deen_index_context) : list (list byte) :=
  if decide (current_ref c ≠ ref) then [] else bag c.

(** The context as [deen_install_from_path] sets it up. *)
Definition initial_context (progress_cb : option deen_install_progress_cb)
    (is_cancelled_cb : option deen_is_cancelled_cb) : deen_index_context :=
  {| is_cancelled_cb := is_cancelled_cb; lastprogress := (-1)%Q;
     progress_cb := progress_cb; c_buffer_upper := []; c_buffer_upper_len := 0;
     current_ref := 0%Z; prefix_count := 0; prefix_count_allocated := 0;
     prefixes := [] |}.

Definition empty_world : world :=
  {| fs := ∅; polls := []; events := []; db_initialised := false; index_rows := [] |}.

End CallbackSpec.
Import CallbackSpec.

(** *** The tokens of an input *)
Module TokenSpec.

(** [t] is a word of [input]: a run of bytes that are no whitespace, with
    whitespace or an end of the input on either side. *)
Definition token_of (t input : list byte) : Prop :=
  t ≠ [] ∧ Forall (λ b, isspace b = false) t
  ∧ ∃ pre post, input = pre ++ t ++ post
      ∧ (pre = [] ∨ ∃ pre' b, pre = pre' ++ [b] ∧ isspace b = true)
      ∧ (post = [] ∨ ∃ b post', post = b :: post' ∧ isspace b = true).

(** Where a round of the loop may start: at the start of the input, behind
    whitespace, or in front of it. *)
Definition boundary (before rest : list byte) : Prop :=
  before = [] ∨ (∃ before' b, before = before' ++ [b] ∧ isspace b = true)
  ∨ match rest with [] => True | b :: _ => isspace b = true end.

End TokenSpec.
Import TokenSpec.

(** *** The rows of the index *)
Module IndexSpec.

(** [a] stands before [b] in the order of [deen_index_prefix_compare], and
    is not [b]. *)
Definition prefix_lt (a b : list byte) : Prop :=
  (deen_index_prefix_compare a b < 0)%Z.

(** Each report differs in its whole percentage from the report before
    it, the first from [last]. *)
Fixpoint percent_changes (last : Q) (reports : list Q) : Prop :=
  match reports with
  | [] => True
  | progress :: rest => percent progress ≠ percent last ∧ percent_changes progress rest
  end.

Definition indexing_reports (reports : list Q) : list (deen_install_state * Q) :=
  (λ progress, (DEEN_INSTALL_STATE_INDEXING, progress)) <$> reports.

Section WithCommon.
Context {common : Common}.

(** The upper-cased copy of a word in [c_buffer_upper]. *)
Definition word_upper (s : list byte) : list byte :=
  take (length s) (deen_to_upper s).

(** The prefix the callback makes of a word. *)
Definition word_prefix (s : list byte) : list byte :=
  cstr (deen_utf8_crop_to_unicode_len (word_upper s) DEEN_INDEXING_DEPTH).1.

(** The words of which the callback makes a prefix, when it is not
    cancelled. *)
Definition indexable (s : list byte) : Prop :=
  DEEN_INDEXING_MIN ≤ length s
  ∧ deen_is_common_upper_word (word_upper s) = false
  ∧ DEEN_INDEXING_MIN
    ≤ (deen_utf8_crop_to_unicode_len (word_upper s) DEEN_INDEXING_DEPTH).2.

(** Every one of the prefixes [ps] is that of an indexable word of
    [words] with the ref [ref]. *)
Definition prefixes_of_words (words : list (list byte * Z * Q)) (ref : Z)
    (ps : list (list byte)) : Prop :=
  ∀ p, p ∈ ps →
    ∃ s progress, (s, ref, progress) ∈ words ∧ indexable s ∧ p = word_prefix s.

(** A row as [deen_index_add] should get it. *)
Definition row_from (words : list (list byte * Z * Q))
    (row : Z * list (list byte)) : Prop :=
  row.2 ≠ [] ∧ StronglySorted prefix_lt row.2 ∧ prefixes_of_words words row.1 row.2.

(** The prefix of the word is in a row of its ref. *)
Definition word_in_rows (rows : list (Z * list (list byte)))
    (word : list byte * Z * Q) : Prop :=
  ∃ ps, (word.1.2, ps) ∈ rows ∧ word_prefix word.1.1 ∈ ps.

(** What an indexing run keeps of its context: the prefixes are within the
    slots, sorted, and those of indexable words of the current ref among
    the words delivered so far. *)
Definition run_inv (seen : list (list byte * Z * Q)) (c : deen_index_context) : Prop :=
  context_ok c ∧ StronglySorted prefix_lt (bag c)
  ∧ prefixes_of_words seen (current_ref c) (bag c).

(** The prefix of the word waits in the context for its row. *)
Definition word_in_bag (c : deen_index_context) (word : list byte * Z * Q) : Prop :=
  word.1.2 = current_ref c ∧ word_prefix word.1.1 ∈ bag c.

End WithCommon.
End IndexSpec.
Import IndexSpec.

(** *** The install *)
Module InstallSpec.
Section WithCommon.
Context {common : Common}.

(** The objects an install may touch: the root, the index and the data
    file that [deen_install_init] removes, and the data file and the index
    that the install writes. *)
Definition install_paths (deen_root_dir : string) : list string :=
  [deen_root_dir;
   (deen_root_dir +:+ DEEN_FILE_SEP +:+ DEEN_LEAF_INDEX)%string;
   (deen_root_dir +:+ DEEN_FILE_SEP +:+ DEEN_LEAF_DING_DATA)%string;
   deen_data_path deen_root_dir;
   deen_index_path deen_root_dir].

(** The steps of an install between its first and its last report, from
    the world [w0]: the cancellation callback [f] was asked, the progress
    callback was told of indexing and then, if there is an error, of the
    error, and no object outside [paths] was touched. *)
Definition proceeds (f : deen_is_cancelled_cb) (paths : list string) (w0 : world)
    (is_error : bool) (w : world) : Prop :=
  (∃ ps, polls w = polls w0 ++ ps ∧ Forall (λ b, ∃ n, b = f n) ps)
  ∧ (∃ reports,
       events w = events w0 ++ indexing_reports reports
                  ++ (if is_error then [(DEEN_INSTALL_STATE_ERROR, 0%Q)] else []))
  ∧ ∀ p, p ∉ paths → fs w !! p = fs w0 !! p.

(** The system does what the install asks of it: the data file opens for
    writing and takes every write, the database opens, and the data file
    is read to its end. *)
Definition cooperates (env : environment) : Prop :=
  env_dest_open_ok env = true ∧ (∀ k, env_write_ok env k = true)
  ∧ env_db_open_ok env = true ∧ env_read_fails_after env = None.

End WithCommon.
End InstallSpec.
Import InstallSpec.

(** *** Terminal output *)
Module RenderSpec.

Definition ascii (b : byte) : Prop := (Byte.to_N b < 128)%N.

#[global] Instance ascii_dec b : Decision (ascii b).
Proof. unfold ascii. apply _. Defined.

Section WithText.
Context {text : Text}.

(** What the terminal output expects of the text primitives: clean text
    is US-ASCII, a sequence has at least one byte and no more than there
    are, a sequence of one byte is US-ASCII, and an equivalent is
    US-ASCII. *)
Definition text_ok : Prop :=
  (∀ c, deen_utf8_is_usascii_clean c = true → Forall ascii c)
  ∧ (∀ c n, deen_utf8_sequence_len c = (DEEN_SEQUENCE_OK, n) → 1 ≤ n ≤ length c)
  ∧ (∀ c, deen_utf8_sequence_len c = (DEEN_SEQUENCE_OK, 1) → Forall ascii (take 1 c))
  ∧ (∀ c e, deen_utf8_usascii_equivalent c = Some e → Forall ascii e).

End WithText.
End RenderSpec.
Import Render RenderSpec.

(** *** Data of the examples *)
Module ExampleData.

(** A file of more than 4 KiB: a line without the separator, then a valid
    data line, then a long comment. *)
Definition ding_hello : list byte :=
  bytes "hello" ++ [x0a] ++ bytes "Haus :: house" ++ [x0a] ++ replicate 4096 "#"%byte.

(** The context of an install whose callbacks are the no-op defaults, and
    one whose cancellation callback always answers true. *)
Definition context_never : deen_index_context :=
  initial_context (Some deen_noop_install_progress_cb) (Some deen_noop_is_cancelled_cb).

Definition context_cancelled : deen_index_context :=
  initial_context (Some deen_noop_install_progress_cb) (Some (λ _, true)).

(** An environment in which every call of the system succeeds. *)
Definition env_ok : environment :=
  {| env_mkdir_ok := true; env_stat_ok := λ _, true; env_remove_succeeds := λ _, true;
     env_dest_open_ok := true;
     env_write_ok := λ _, true; env_db_open_ok := true; env_read_fails_after := None |}.

Definition ding_small : list byte :=
  bytes "# comment" ++ [x0a] ++ bytes "Haus :: house" ++ [x0a]
  ++ bytes "das Ei :: the egg" ++ [x0a].

(** A world with the DING file de-en.txt and nothing installed. *)
Definition world_ding : world :=
  {| fs := {[ "de-en.txt"%string := ding_small ]}; polls := []; events := [];
     db_initialised := false; index_rows := [] |}.

(** A world with an earlier install under the root "root", and an
    environment in which this root cannot be searched: [stat] fails on
    what is in it. *)
Definition world_installed : world :=
  {| fs := {[ "root"%string := []; "root/dict.txt"%string := ding_small;
              "root/index.db"%string := [] ]};
     polls := []; events := []; db_initialised := false; index_rows := [] |}.

Definition env_unsearchable : environment :=
  {| env_mkdir_ok := true; env_stat_ok := λ p, bool_decide (p = "root"%string);
     env_remove_succeeds := λ _, true; env_dest_open_ok := true;
     env_write_ok := λ _, true; env_db_open_ok := true; env_read_fails_after := None |}.

(** What an install under the root "root" returned and left: its result,
    the answers of the cancellation callback, the states reported, the
    rows of the index, and whether dict.txt and index.db exist. *)
Definition outcome (run : option (bool * world)) :
    option (bool * list bool * list deen_install_state
            * list (Z * list (list byte)) * bool * bool) :=
  (λ '(r, w'), (r, polls w', (events w').*1, index_rows w',
                bool_decide (is_Some (fs w' !! "root/dict.txt"%string)),
                bool_decide (is_Some (fs w' !! "root/index.db"%string)))) <$> run.

End ExampleData.

(* ================================================================== *)
(** * Part II: specifications and proofs                               *)
(* ================================================================== *)


(** ** Umlaut recovery *)

Section strstr_facts.

Lemma occurs_at_2 (p0 p1 : byte) (s : list byte) i :
  occurs_at [p0; p1] s i ↔ s !! i = Some p0 ∧ s !! S i = Some p1.
Proof.
  unfold occurs_at. revert i. induction s as [|a s IH]; intros i.
  - rewrite drop_nil. simpl. split; [done | intros [? _]; done].
  - destruct i as [|i].
    + simpl. destruct s as [|b s]; simpl.
      * split; [done | intros [_ ?]; done].
      * split; [intros [= -> ->]; done | intros [[= ->] [= ->]]; done].
    + simpl. apply IH.
Qed.

Lemma starts_with_2 (p0 p1 : byte) (s : list byte) :
  starts_with [p0; p1] s = true ↔ occurs_at [p0; p1] s 0.
Proof. unfold starts_with, occurs_at. rewrite bool_decide_eq_true. done. Qed.

Lemma occurs_at_S (p : list byte) (a : byte) (s : list byte) i : occurs_at p (a :: s) (S i) ↔ occurs_at p s i.
Proof. done. Qed.

Lemma strstr_off_None (p0 p1 : byte) (s : list byte) :
  strstr_off s [p0; p1] = None ↔ ∀ i, ¬ occurs_at [p0; p1] s i.
Proof.
  induction s as [|a s IH].
  - simpl. split; [|done]. intros _ i. rewrite occurs_at_2. intros [? _]. done.
  - cbn [strstr_off]. destruct (starts_with [p0; p1] (a :: s)) eqn:Hs.
    + split; [done|]. intros H. apply starts_with_2 in Hs. by apply H in Hs.
    + rewrite fmap_None, IH. split.
      * intros H [|i]; [|by rewrite occurs_at_S].
        rewrite <- starts_with_2, Hs. done.
      * intros H i. rewrite <- (occurs_at_S _ a). apply H.
Qed.

Lemma strstr_off_Some (p0 p1 : byte) (s : list byte) k :
  strstr_off s [p0; p1] = Some k →
  ∃ pre t, s = pre ++ p0 :: p1 :: t ∧ length pre = k
           ∧ ∀ i, i < k → ¬ occurs_at [p0; p1] s i.
Proof.
  revert k. induction s as [|a s IH]; intros k.
  - simpl. done.
  - cbn [strstr_off]. destruct (starts_with [p0; p1] (a :: s)) eqn:Hs.
    + intros [= <-]. apply starts_with_2, occurs_at_2 in Hs as [H0 H1].
      destruct s as [|b s]; simplify_eq/=.
      exists [], s. split_and!; [done..|lia].
    + intros (k' & Hk' & ->)%fmap_Some. destruct (IH _ Hk') as (pre & t & -> & <- & Hno).
      exists (a :: pre), t. split_and!; [done..|].
      intros [|i] Hi; [|rewrite occurs_at_S; apply Hno; simpl in Hi; lia].
      rewrite <- starts_with_2, Hs. done.
Qed.

Lemma strstr_off_is_Some (p0 p1 : byte) (s : list byte) :
  is_Some (strstr_off s [p0; p1]) ↔ occurs [p0; p1] s.
Proof.
  split.
  - intros [k Hk]. destruct (strstr_off_Some _ _ _ _ Hk) as (pre & t & -> & <- & _).
    exists (length pre). apply occurs_at_2.
    rewrite !lookup_app_r by lia. replace (S (length pre) - length pre) with 1 by lia.
    rewrite Nat.sub_diag. done.
  - intros [i Hi]. destruct (strstr_off s [p0; p1]) eqn:E; [done|].
    rewrite strstr_off_None in E. by apply E in Hi.
Qed.

End strstr_facts.

(** *** One pass of the code is one [replace_pass] *)
Section single_pass.
Context (s0 s1 r0 r1 : byte).

Local Abbreviation pass := (replace_pass s0 s1 r0 r1).

Lemma replace_pass_cons2 (a b : byte) (t : list byte) :
  pass (a :: b :: t)
  = if decide (a = s0 ∧ b = s1) then r0 :: r1 :: pass t else a :: pass (b :: t).
Proof. reflexivity. Qed.

Lemma replace_pass_length (s : list byte) : length (pass s) = length s.
Proof.
  remember (length s) as n eqn:Hn. revert s Hn.
  induction (lt_wf n) as [n _ IH]. intros [|a [|b t]] ->; try done.
  rewrite replace_pass_cons2. case_decide; cbn [length].
  - f_equal. f_equal. eapply IH; [|done]. cbn [length]. lia.
  - f_equal. eapply (IH (length (b :: t))); [cbn [length]; lia|done].
Qed.

Lemma replace_pass_id (s : list byte) :
  (∀ i, ¬ occurs_at [s0; s1] s i) → pass s = s.
Proof.
  induction s as [|a s IH]; [done|]. intros Hno.
  destruct s as [|b t]; [done|]. rewrite replace_pass_cons2.
  case_decide as Hab.
  - destruct Hab as [-> ->]. destruct (Hno 0). by apply occurs_at_2.
  - f_equal. apply IH. intros i. rewrite <- (occurs_at_S _ a). apply Hno.
Qed.

Lemma replace_pass_skip (pre t : list byte) :
  (∀ i, i < length pre → ¬ occurs_at [s0; s1] (pre ++ s0 :: s1 :: t) i) →
  pass (pre ++ s0 :: s1 :: t) = pre ++ r0 :: r1 :: pass t.
Proof.
  induction pre as [|a pre IH]; intros Hno.
  - simpl. by rewrite decide_True.
  - assert (∃ b u, pre ++ s0 :: s1 :: t = b :: u) as (b & u & Hbu).
    { destruct pre; simpl; eauto. }
    rewrite <- !app_comm_cons. rewrite Hbu at 1. rewrite replace_pass_cons2.
    rewrite decide_False.
    + rewrite <- Hbu. f_equal. apply IH. intros i Hi.
      rewrite <- (occurs_at_S _ a). apply Hno. simpl. lia.
    + intros [-> ->]. apply (Hno 0); [simpl; lia|].
      rewrite <- app_comm_cons, Hbu. by apply occurs_at_2.
Qed.

Lemma replace_pass_head_ne (a : byte) (t : list byte) :
  a ≠ s0 → pass (a :: t) = a :: pass t.
Proof.
  intros Ha. destruct t as [|b t]; [done|]. rewrite replace_pass_cons2.
  rewrite decide_False; [done|]. by intros [? _].
Qed.

(** The loop of the code, from a state in which [done] is behind the
    pointer and [s] is ahead of it. *)
Lemma single_substitute_loop_pass fuel (done s : list byte) (result : bool) :
  r1 ≠ s0 → length s < fuel →
  single_substitute_loop fuel (done ++ s) (length done) [s0; s1] [r0; r1] result
  = (done ++ pass s,
     result || bool_decide (is_Some (strstr_off s [s0; s1]))).
Proof.
  intros Hr. revert done s result.
  induction fuel as [|fuel IH]; intros done s result Hfuel; [lia|].
  cbn [single_substitute_loop]. unfold strstr.
  rewrite drop_app_length.
  destruct (strstr_off s [s0; s1]) as [k|] eqn:Hk; simpl.
  - destruct (strstr_off_Some _ _ _ _ Hk) as (pre & t & -> & <- & Hno).
    assert (memcpy (done ++ pre ++ s0 :: s1 :: t) (length done + length pre) [r0; r1] 2
            = (done ++ pre ++ [r0]) ++ r1 :: t) as ->.
    { unfold memcpy. cbn [take]. rewrite (app_assoc done pre).
      replace (length done + length pre) with (length (done ++ pre) + 0)
        by (rewrite length_app; lia).
      rewrite list_inserts_app_r. cbn. by rewrite <- !app_assoc. }
    replace (S (length done + length pre)) with (length (done ++ pre ++ [r0]))
      by (rewrite !length_app; simpl; lia).
    rewrite IH by (rewrite !length_app in Hfuel; simpl in *; lia).
    rewrite replace_pass_head_ne by done.
    rewrite replace_pass_skip by done.
    rewrite <- !app_assoc. simpl. f_equal.
    by rewrite orb_true_r.
  - f_equal. + f_equal. symmetry. apply replace_pass_id. by apply strstr_off_None.
    + by rewrite orb_false_r.
Qed.

Lemma single_substitute_pass (k : list byte) :
  r1 ≠ s0 →
  deen_keywords_single_substitute_german_usascii_abbreviations k [s0; s1] [r0; r1]
  = (pass k, bool_decide (is_Some (strstr_off k [s0; s1]))).
Proof.
  intros Hr. unfold deen_keywords_single_substitute_german_usascii_abbreviations.
  apply (single_substitute_loop_pass (S (length k)) [] k false Hr). lia.
Qed.

End single_pass.

(** *** What a pass does at each offset *)
Section pass_pointwise.
Context (s0 s1 r0 r1 : byte).

Local Abbreviation pass := (replace_pass s0 s1 r0 r1).

(** Every byte is either kept, or the first or the second byte of an
    occurrence that was replaced. *)
Lemma replace_pass_lookup (s : list byte) (i : nat) :
  pass s !! i = s !! i
  ∨ (s !! i = Some s0 ∧ s !! S i = Some s1
     ∧ pass s !! i = Some r0 ∧ pass s !! S i = Some r1)
  ∨ (∃ j, i = S j ∧ s !! j = Some s0 ∧ s !! i = Some s1
     ∧ pass s !! j = Some r0 ∧ pass s !! i = Some r1).
Proof.
  remember (length s) as n eqn:Hn. revert s i Hn.
  induction (lt_wf n) as [n _ IH]. intros [|a [|b t]] i ->; try by left.
  rewrite replace_pass_cons2. case_decide as Hab.
  - destruct Hab as [-> ->]. destruct i as [|[|i]].
    + right; left. done.
    + right; right. exists 0. done.
    + specialize (IH (length t) ltac:(cbn [length]; lia) t i eq_refl).
      destruct IH as [IH|[IH|(j & -> & IH)]].
      * left. done.
      * right; left. done.
      * right; right. exists (S (S j)). done.
  - destruct i as [|i]; [by left|].
    specialize (IH (length (b :: t)) ltac:(cbn [length]; lia) (b :: t) i eq_refl).
    destruct IH as [IH|[IH|(j & -> & IH)]].
    + left. done.
    + right; left. done.
    + right; right. exists (S j). done.
Qed.

(** An occurrence is replaced, unless its first byte was the second byte
    of an occurrence replaced just before it. *)
Lemma replace_pass_at (s : list byte) (i : nat) :
  s !! i = Some s0 → s !! S i = Some s1 →
  (pass s !! i = Some r0 ∧ pass s !! S i = Some r1)
  ∨ (∃ j, i = S j ∧ s !! j = Some s0 ∧ s0 = s1 ∧ pass s !! i = Some r1).
Proof.
  remember (length s) as n eqn:Hn. revert s i Hn.
  induction (lt_wf n) as [n _ IH]. intros [|a [|b t]] i ->; try done.
  rewrite replace_pass_cons2. case_decide as Hab.
  - destruct Hab as [-> ->]. destruct i as [|[|i]].
    + left. done.
    + intros [= ->] _. right. exists 0. done.
    + intros H0 H1.
      destruct (IH (length t) ltac:(cbn [length]; lia) t i eq_refl H0 H1)
        as [?|(j & -> & ?)]; [by left|].
      right. exists (S (S j)). done.
  - destruct i as [|i].
    + intros [= ->] [= ->]. destruct Hab. done.
    + intros H0 H1.
      destruct (IH (length (b :: t)) ltac:(cbn [length]; lia) (b :: t) i eq_refl H0 H1)
        as [?|(j & -> & ?)]; [by left|].
      right. exists (S j). done.
Qed.

End pass_pointwise.

(** *** The six passes *)
Section passes.

Lemma digraphs_pass_table :
  digraphs = (λ d, (search_of d, replace_of d)) <$> pass_table.
Proof. reflexivity. Qed.

Lemma pass_table_ok : table_ok pass_table.
Proof.
  unfold table_ok, pass_table.
  repeat (apply Forall_cons_2;
    [lazy beta iota; split_and!; by apply (bool_decide_unpack _); vm_compute|]).
  apply Forall_nil_2.
Qed.

Lemma substitute_run_passes (k : list byte) :
  deen_keywords_substitute_german_usascii_abbreviations k = run_passes pass_table k false.
Proof.
  unfold deen_keywords_substitute_german_usascii_abbreviations.
  unfold s_Ee, s_Ue, s_Oe, s_Ae, s_Ie, s_ss, r_Ee, r_Ue, r_Oe, r_Ae, r_Ie, r_ss.
  change (bytes "EE") with ["E"; "E"]%byte. change (bytes "UE") with ["U"; "E"]%byte.
  change (bytes "OE") with ["O"; "E"]%byte. change (bytes "AE") with ["A"; "E"]%byte.
  change (bytes "IE") with ["I"; "E"]%byte. change (bytes "SS") with ["S"; "S"]%byte.
  rewrite !single_substitute_pass by done. reflexivity.
Qed.

Lemma overwrites_refl (s : list byte) : overwrites s s.
Proof. split; [done|]. by left. Qed.

Lemma overwrites_trans (s r t : list byte) :
  overwrites s r → overwrites r t → overwrites s t.
Proof.
  intros [Hl1 H1] [Hl2 H2]. split; [congruence|]. intros i.
  destruct (H2 i) as [->|(b & c & Hb & Hc & Lb & Lc)]; [apply H1|].
  destruct (H1 i) as [E|(b' & c' & Hb' & Hc' & Lb' & Lc')].
  - right. exists b, c. rewrite <- E. done.
  - rewrite Hb in Hc'. simplify_eq. done.
Qed.

Lemma overwrites_pass (s0 s1 r0 r1 : byte) (s : list byte) :
  letter s0 → letter s1 → ¬ letter r0 → ¬ letter r1 →
  overwrites s (replace_pass s0 s1 r0 r1 s).
Proof.
  intros L0 L1 N0 N1. split; [apply replace_pass_length|]. intros i.
  destruct (replace_pass_lookup s0 s1 r0 r1 s i)
    as [?|[(H0 & H1 & H2 & H3)|(j & -> & H0 & H1 & H2 & H3)]]; [by left|..].
  - right. exists s0, r0. done.
  - right. exists s1, r1. done.
Qed.

(** Letters that stand in the overwritten string stood there before. *)
Lemma overwrites_letter (s r : list byte) (i : nat) (b : byte) :
  overwrites s r → r !! i = Some b → letter b → s !! i = Some b.
Proof.
  intros [_ H] Hr Lb. destruct (H i) as [<-|(b' & c & Hb' & Hc & _ & Lc)]; [done|].
  rewrite Hr in Hc. simplify_eq. done.
Qed.

(** Bytes that are no letters stay. *)
Lemma overwrites_nonletter (s r : list byte) (i : nat) (c : byte) :
  overwrites s r → s !! i = Some c → ¬ letter c → r !! i = Some c.
Proof.
  intros [_ H] Hs Lc. destruct (H i) as [->|(b' & c' & Hb' & Hc & Lb & _)]; [done|].
  rewrite Hs in Hb'. simplify_eq. done.
Qed.

Lemma overwrites_occurs_at (s r : list byte) (p0 p1 : byte) (i : nat) :
  overwrites s r → letter p0 → letter p1 →
  occurs_at [p0; p1] r i → occurs_at [p0; p1] s i.
Proof.
  intros Ho L0 L1. rewrite !occurs_at_2. intros [H0 H1].
  split; eapply overwrites_letter; eauto.
Qed.

Lemma run_passes_overwrites ds (k : list byte) adjusted :
  table_ok ds → overwrites k (run_passes ds k adjusted).1.
Proof.
  intros Hds. revert k adjusted.
  induction Hds as [|[[[s0 s1] r0] r1] ds (L0 & L1 & N0 & N1) _ IH]; intros k adjusted.
  - apply overwrites_refl.
  - cbn [run_passes]. eapply overwrites_trans; [|apply IH].
    by apply overwrites_pass.
Qed.

(** After the pass of a search string it is gone. *)
Lemma replace_pass_gone (s0 s1 r0 r1 : byte) (s : list byte) (i : nat) :
  letter s0 → letter s1 → ¬ letter r0 → ¬ letter r1 →
  ¬ occurs_at [s0; s1] (replace_pass s0 s1 r0 r1 s) i.
Proof.
  intros L0 L1 N0 N1 Hocc.
  pose proof (overwrites_occurs_at _ _ _ _ _
    (overwrites_pass s0 s1 r0 r1 s L0 L1 N0 N1) L0 L1 Hocc) as Hs.
  apply occurs_at_2 in Hocc as [H0 _]. apply occurs_at_2 in Hs as [Hs0 Hs1].
  destruct (replace_pass_at s0 s1 r0 r1 s i Hs0 Hs1) as [[H _]|(j & _ & _ & _ & H)];
    rewrite H in H0; simplify_eq; done.
Qed.

(** After the passes of a table none of its search strings is left. *)
Lemma run_passes_gone ds (k : list byte) adjusted d i :
  table_ok ds → d ∈ ds → ¬ occurs_at (search_of d) (run_passes ds k adjusted).1 i.
Proof.
  intros Hds. revert k adjusted.
  induction Hds as [|[[[s0 s1] r0] r1] ds (L0 & L1 & N0 & N1) Hds IH]; intros k adjusted.
  - by intros ?%elem_of_nil.
  - intros [->|Hd]%elem_of_cons; [|by apply IH].
    cbn [run_passes search_of]. intros Hocc.
    eapply (replace_pass_gone s0 s1 r0 r1 k i); [done..|].
    eapply overwrites_occurs_at; [by apply run_passes_overwrites|done..].
Qed.

(** The flag: some search string of the table stood in the keyword. *)
Lemma run_passes_flag ds (k : list byte) adjusted :
  table_ok ds →
  (run_passes ds k adjusted).2 = true
  ↔ adjusted = true ∨ ∃ d, d ∈ ds ∧ occurs (search_of d) k.
Proof.
  intros Hds. revert k adjusted.
  induction Hds as [|[[[s0 s1] r0] r1] ds (L0 & L1 & N0 & N1) Hds IH]; intros k adjusted.
  - simpl. split; [by left|]. intros [?|(d & ?%elem_of_nil & _)]; done.
  - cbn [run_passes]. rewrite IH, orb_true_iff, bool_decide_eq_true, strstr_off_is_Some.
    split.
    + intros [[?|Hocc]|(d & Hd & i & Hocc)]; [by left|right..].
      * exists (s0, s1, r0, r1). split; [left|exact Hocc].
      * exists d. split; [by right|]. exists i. destruct d as [[[p0 p1] q0] q1].
        pose proof Hds as Hds'. unfold table_ok in Hds'. rewrite Forall_forall in Hds'.
        destruct (Hds' _ Hd) as (? & ? & _).
        cbn [search_of] in *.
        apply (overwrites_occurs_at k (replace_pass s0 s1 r0 r1 k)); [|done..].
        by apply overwrites_pass.
    + intros [?|(d & [->|Hd]%elem_of_cons & Hocc)]; [by left; left|by left; right|].
      destruct (decide (is_Some (strstr_off k [s0; s1]))) as [Hs|Hs].
      * left; right. by apply strstr_off_is_Some.
      * right. exists d. split; [done|].
        rewrite replace_pass_id; [done|]. intros i Hi. apply Hs, strstr_off_is_Some. by exists i.
Qed.

Lemma run_passes_id ds (k : list byte) adjusted :
  (∀ d i, d ∈ ds → ¬ occurs_at (search_of d) k i) →
  run_passes ds k adjusted = (k, adjusted).
Proof.
  revert adjusted. induction ds as [|[[[s0 s1] r0] r1] ds IH]; intros adjusted Hno; [done|].
  cbn [run_passes].
  assert (∀ i, ¬ occurs_at [s0; s1] k i) as Hk.
  { intros i. apply (Hno (s0, s1, r0, r1)). left. }
  rewrite replace_pass_id by done.
  rewrite bool_decide_eq_false_2.
  - rewrite orb_false_r. apply IH. intros d i Hd. apply Hno. by right.
  - rewrite strstr_off_is_Some. intros [i Hi]. by apply (Hk i).
Qed.

Lemma run_passes_fst ds (k : list byte) adjusted :
  (run_passes ds k adjusted).1 = (run_passes ds k false).1.
Proof.
  revert k adjusted. induction ds as [|[[[s0 s1] r0] r1] ds IH]; intros k adjusted; [done|].
  cbn [run_passes]. rewrite IH. symmetry. apply IH.
Qed.

(** An occurrence that overlaps no other one is replaced. *)
Lemma run_passes_isolated ds (k : list byte) adjusted d i :
  table_ok ds → NoDup (search_of <$> ds) → d ∈ ds →
  occurs_at (search_of d) k i → isolated_in ds k i →
  occurs_at (replace_of d) (run_passes ds k adjusted).1 i.
Proof.
  intros Hds. revert k adjusted.
  induction Hds as [|[[[s0 s1] r0] r1] ds (L0 & L1 & N0 & N1) Hds IH];
    intros k adjusted Hnd Hd Hocc Hiso.
  { by apply elem_of_nil in Hd. }
  rewrite fmap_cons in Hnd. apply NoDup_cons in Hnd as [Hhead Hnd].
  cbn [run_passes].
  apply elem_of_cons in Hd as [->|Hd].
  - cbn [search_of replace_of] in *. apply occurs_at_2 in Hocc as [H0 H1].
    destruct (replace_pass_at s0 s1 r0 r1 k i H0 H1) as [[Hr0 Hr1]|(j & -> & Hj & <- & _)].
    + apply occurs_at_2. split.
      * eapply overwrites_nonletter; [by apply run_passes_overwrites|done..].
      * eapply overwrites_nonletter; [by apply run_passes_overwrites|done..].
    + destruct (Hiso (s0, s0, r0, r1) j) as [?|[?|?]]; [left|by apply occurs_at_2|lia..].
  - destruct d as [[[p0 p1] q0] q1]. cbn [search_of replace_of] in *.
    pose proof Hds as Hds'. unfold table_ok in Hds'. rewrite Forall_forall in Hds'.
    destruct (Hds' _ Hd) as (Lp0 & Lp1 & _).
    assert ([p0; p1] ≠ [s0; s1]) as Hne.
    { intros Heq. apply Hhead. rewrite <- Heq.
      apply (list_elem_of_fmap_2 search_of _ (p0, p1, q0, q1)). done. }
    pose proof Hocc as [Hp0 Hp1]%occurs_at_2.
    apply IH; [done..| |].
    + apply occurs_at_2. split.
      * destruct (replace_pass_lookup s0 s1 r0 r1 k i)
          as [->|[(H0 & H1 & _)|(j & -> & H0 & H1 & _)]]; [done|..].
        -- destruct Hne. congruence.
        -- destruct (Hiso (s0, s1, r0, r1) j) as [?|[?|?]];
             [left|by apply occurs_at_2|lia..].
      * destruct (replace_pass_lookup s0 s1 r0 r1 k (S i))
          as [->|[(H0 & H1 & _)|(j & [= <-] & H0 & H1 & _)]]; [done|..].
        -- destruct (Hiso (s0, s1, r0, r1) (S i)) as [?|[?|?]];
             [left|by apply occurs_at_2|lia..].
        -- destruct Hne. congruence.
    + intros [[[t0 t1] u0] u1] j Hd' Hj. apply (Hiso (t0, t1, u0, u1) j); [by right|].
      destruct (Hds' _ Hd') as (Lt0 & Lt1 & _). cbn [search_of] in *.
      apply (overwrites_occurs_at k (replace_pass s0 s1 r0 r1 k)); [|done..].
      by apply overwrites_pass.
Qed.

End passes.

(** *** [deen_keywords_adjust] *)
Section adjust.

Lemma umlaut_passes_run (k : list byte) adjusted :
  (run_passes pass_table k adjusted).1 = umlaut_passes k.
Proof. reflexivity. Qed.

Lemma in_digraphs (search replace : list byte) :
  (search, replace) ∈ digraphs
  ↔ ∃ d, d ∈ pass_table ∧ search = search_of d ∧ replace = replace_of d.
Proof.
  rewrite digraphs_pass_table, list_elem_of_fmap. split.
  - intros (d & [= -> ->] & Hd). eauto.
  - intros (d & Hd & -> & ->). eauto.
Qed.

Lemma pass_table_NoDup : NoDup (search_of <$> pass_table).
Proof. apply (bool_decide_unpack _). by vm_compute. Qed.

Lemma umlaut_passes_length (k : list byte) : length (umlaut_passes k) = length k.
Proof.
  rewrite <- (umlaut_passes_run k false).
  apply (run_passes_overwrites pass_table k false pass_table_ok).
Qed.

Lemma umlaut_passes_gone (k search replace : list byte) (i : nat) :
  (search, replace) ∈ digraphs → ¬ occurs_at search (umlaut_passes k) i.
Proof.
  intros (d & Hd & -> & _)%in_digraphs. rewrite <- (umlaut_passes_run k false).
  by apply run_passes_gone; [apply pass_table_ok|].
Qed.

Lemma substitute_fst (k : list byte) :
  (deen_keywords_substitute_german_usascii_abbreviations k).1 = umlaut_passes k.
Proof. by rewrite substitute_run_passes. Qed.

Lemma substitute_snd (k : list byte) :
  (deen_keywords_substitute_german_usascii_abbreviations k).2 = true
  ↔ ∃ search replace, (search, replace) ∈ digraphs ∧ occurs search k.
Proof.
  rewrite substitute_run_passes, (run_passes_flag _ _ _ pass_table_ok). split.
  - intros [?|(d & Hd & Hocc)]; [done|]. exists (search_of d), (replace_of d).
    split; [|done]. apply in_digraphs. eauto.
  - intros (search & replace & (d & Hd & -> & _)%in_digraphs & Hocc). eauto.
Qed.

Lemma adjust_from_fst (ks : deen_keywords) adjusted :
  (adjust_from ks adjusted).1 = umlaut_passes <$> ks.
Proof.
  revert adjusted. induction ks as [|k ks IH]; intros adjusted; [done|].
  cbn [adjust_from]. pose proof (substitute_fst k) as Hk.
  destruct (deen_keywords_substitute_german_usascii_abbreviations k) as [k' r].
  specialize (IH (adjusted || r)). destruct (adjust_from ks (adjusted || r)) as [ks' a'].
  simpl in *. by rewrite Hk, IH.
Qed.

Lemma adjust_from_snd (ks : deen_keywords) adjusted :
  (adjust_from ks adjusted).2 = true
  ↔ adjusted = true
    ∨ ∃ k search replace, k ∈ ks ∧ (search, replace) ∈ digraphs ∧ occurs search k.
Proof.
  revert adjusted. induction ks as [|k ks IH]; intros adjusted.
  - simpl. split; [by left|]. intros [?|(k & ? & ? & ?%elem_of_nil & _)]; done.
  - cbn [adjust_from]. pose proof (substitute_snd k) as Hk.
    destruct (deen_keywords_substitute_german_usascii_abbreviations k) as [k' r].
    specialize (IH (adjusted || r)). destruct (adjust_from ks (adjusted || r)) as [ks' a'].
    simpl in *. rewrite IH, orb_true_iff, Hk. split.
    + intros [[?|(search & replace & ? & ?)]|(k0 & search & replace & ? & ?)].
      * by left.
      * right. exists k, search, replace. split; [left|done].
      * right. exists k0, search, replace. split; [by right|done].
    + intros [?|(k0 & search & replace & [->|?]%elem_of_cons & ?)].
      * by left; left.
      * left; right. eauto.
      * right. eauto 6.
Qed.

End adjust.

(** C7.  [deen_keywords_adjust] is idempotent: on the keywords it has
    adjusted, a second call changes no byte and reports that it made no
    substitution. *)
Theorem deen_keywords_adjust_idempotent (ks : deen_keywords) :
  deen_keywords_adjust (deen_keywords_adjust ks).1
  = ((deen_keywords_adjust ks).1, false).
Proof.
  unfold deen_keywords_adjust. rewrite adjust_from_fst.
  enough (∀ adjusted, adjust_from (umlaut_passes <$> ks) adjusted
                      = (umlaut_passes <$> ks, adjusted)) as H by apply H.
  induction ks as [|k ks IH]; intros adjusted; [done|].
  rewrite fmap_cons. cbn [adjust_from].
  rewrite substitute_run_passes, run_passes_id.
  - specialize (IH (adjusted || false)). rewrite orb_false_r in *.
    destruct (adjust_from (umlaut_passes <$> ks) adjusted) as [ks' a'].
    simplify_eq/=. done.
  - intros d i Hd. apply (umlaut_passes_gone k (search_of d) (replace_of d)).
    apply in_digraphs. eauto.
Qed.

(** C6, as amended.  [deen_keywords_adjust] runs over each keyword six
    left-to-right passes, for EE, UE, OE, AE, IE and SS in this order, each
    replacing in place what it finds by the two bytes of the letter and
    going on behind it.  A keyword keeps its length; afterwards none of
    the six digraphs stands in any keyword; an occurrence that shares no
    byte with another occurrence of a digraph is replaced by its letter;
    and the result is true exactly when some keyword held a digraph, which
    is exactly when some keyword was changed. *)
Theorem deen_keywords_adjust_spec (ks : deen_keywords) :
  (deen_keywords_adjust ks).1 = umlaut_passes <$> ks
  ∧ Forall2 (λ k k', length k' = length k) ks (deen_keywords_adjust ks).1
  ∧ (∀ k' search replace i,
       k' ∈ (deen_keywords_adjust ks).1 → (search, replace) ∈ digraphs →
       ¬ occurs_at search k' i)
  ∧ (∀ n k k' search replace i,
       ks !! n = Some k → (deen_keywords_adjust ks).1 !! n = Some k' →
       (search, replace) ∈ digraphs → occurs_at search k i → isolated k i →
       occurs_at replace k' i)
  ∧ ((deen_keywords_adjust ks).2 = true
     ↔ ∃ k search replace, k ∈ ks ∧ (search, replace) ∈ digraphs ∧ occurs search k)
  ∧ ((deen_keywords_adjust ks).2 = true ↔ (deen_keywords_adjust ks).1 ≠ ks).
Proof.
  assert ((deen_keywords_adjust ks).2 = true
     ↔ ∃ k search replace, k ∈ ks ∧ (search, replace) ∈ digraphs ∧ occurs search k)
    as Hflag.
  { unfold deen_keywords_adjust. rewrite adjust_from_snd.
    split; [intros [?|?]; done|by right]. }
  unfold deen_keywords_adjust in *. rewrite adjust_from_fst in *. split_and!.
  - done.
  - apply Forall2_fmap_r, Forall_Forall2_diag, Forall_forall.
    intros k _. apply umlaut_passes_length.
  - intros k' search replace i (k & -> & _)%list_elem_of_fmap Hd.
    by eapply umlaut_passes_gone.
  - intros n k k' search replace i Hk Hk' Hd Hocc Hiso.
    rewrite list_lookup_fmap, Hk in Hk'. simplify_eq/=.
    apply in_digraphs in Hd as (d & Hd & -> & ->).
    rewrite <- (umlaut_passes_run k false).
    apply run_passes_isolated; [apply pass_table_ok|apply pass_table_NoDup|done..|].
    intros d' j Hd' Hj. apply (Hiso (search_of d') (replace_of d') j); [|done].
    apply in_digraphs. eauto.
  - done.
  - rewrite Hflag. split.
    + intros (k & search & replace & Hk & Hd & i & Hocc) Heq.
      apply list_elem_of_lookup in Hk as [n Hn].
      assert (umlaut_passes k = k) as Hkk.
      { apply (f_equal (.!! n)) in Heq. rewrite list_lookup_fmap, Hn in Heq.
        by simplify_eq/=. }
      apply (umlaut_passes_gone k search replace i Hd). by rewrite Hkk.
    + intros Hne. destruct (adjust_from ks false).2 eqn:E; [by apply Hflag|].
      destruct Hne. rewrite <- (list_fmap_id ks) at 2. apply list_fmap_ext.
      intros n k Hk. rewrite <- (umlaut_passes_run k false).
      rewrite run_passes_id; [done|]. intros d i Hd Hocc.
      assert (false = true); [|done]. apply Hflag.
      exists k, (search_of d), (replace_of d). split_and!.
      * by eapply list_elem_of_lookup_2.
      * apply in_digraphs. eauto.
      * by exists i.
Qed.

Section scan.

Lemma digraphs_two (search replace : list byte) :
  (search, replace) ∈ digraphs →
  ∃ s0 s1 r0 r1, search = [s0; s1] ∧ replace = [r0; r1]
    ∧ List.find (λ d, bool_decide (d.1 = [s0; s1])) digraphs = Some (search, replace).
Proof.
  unfold digraphs. rewrite !elem_of_cons, elem_of_nil.
  intros [?|[?|[?|[?|[?|[?|[]]]]]]]; simplify_eq; by eexists _, _, _, _.
Qed.

Lemma replace_scan_occurs (n : nat) (k : list byte) :
  length k ≤ n → replaces_every_occurrence k (replace_scan k).
Proof.
  revert k. induction n as [|n IH]; intros k Hn.
  { destruct k; [|simpl in Hn; lia]. intros search replace i Hd Hocc _.
    apply digraphs_two in Hd as (s0 & s1 & r0 & r1 & -> & -> & _).
    apply occurs_at_2 in Hocc as [Hocc _]. by rewrite lookup_nil in Hocc. }
  intros search replace i Hd Hocc Hfirst.
  destruct (digraphs_two _ _ Hd) as (s0 & s1 & r0 & r1 & -> & -> & Hfind).
  apply occurs_at_2 in Hocc as [H0 H1].
  destruct k as [|a [|b t]]; [by rewrite lookup_nil in H0|..].
  { destruct i; simpl in *; [done|]. by rewrite lookup_nil in H0. }
  cbn [replace_scan].
  destruct (List.find (λ d, bool_decide (d.1 = [a; b])) digraphs) as [d|] eqn:Hab.
  - pose proof (List.find_some _ _ Hab) as [Hin Heq].
    apply bool_decide_eq_true_1 in Heq. apply list_elem_of_In in Hin.
    destruct d as [s' r']. simpl in Heq. subst s'.
    destruct (digraphs_two _ _ Hin) as (? & ? & r0' & r1' & [= <- <-] & -> & _).
    destruct i as [|[|i]].
    + simpl in H0, H1. simplify_eq. reflexivity.
    + exfalso. specialize (Hfirst [a; b] [r0'; r1'] 0 Hin).
      assert (1 < 1); [|lia]. apply Hfirst; [by apply occurs_at_2|lia].
    + apply occurs_at_2.
      change (replace_scan t !! i = Some r0 ∧ replace_scan t !! S i = Some r1).
      apply occurs_at_2. apply (IH t ltac:(simpl in Hn; lia) [s0; s1] [r0; r1] i Hd).
      * by apply occurs_at_2.
      * intros search replace j Hd' Hocc' Hj.
        specialize (Hfirst search replace (S (S j)) Hd').
        assert (S (S (S j)) < S (S i)); [|lia]. apply Hfirst; [|lia].
        apply digraphs_two in Hd' as (? & ? & ? & ? & -> & -> & _).
        apply occurs_at_2. by apply occurs_at_2 in Hocc'.
  - destruct i as [|i].
    + simpl in H0, H1. by simplify_eq.
    + apply occurs_at_2.
      change (replace_scan (b :: t) !! i = Some r0
              ∧ replace_scan (b :: t) !! S i = Some r1).
      apply occurs_at_2. apply (IH (b :: t) ltac:(simpl in *; lia) [s0; s1] [r0; r1] i Hd).
      * by apply occurs_at_2.
      * intros search replace j Hd' Hocc' Hj.
        specialize (Hfirst search replace (S j) Hd').
        assert (S (S j) < S i); [|lia]. apply Hfirst; [|lia].
        apply digraphs_two in Hd' as (? & ? & ? & ? & -> & -> & _).
        apply occurs_at_2. by apply occurs_at_2 in Hocc'.
Qed.

(** Every keyword has a replacement of every occurrence in this sense:
    the one the pass from left to right gives. *)
Lemma replace_scan_replaces (k : list byte) :
  replaces_every_occurrence k (replace_scan k).
Proof. by apply (replace_scan_occurs (length k)). Qed.

End scan.

(** C6 as it is stated fails.  In ENERGIEEFFIZIENZ the digraph IE stands
    at offset 5, and no digraph before it shares a byte with it; a
    replacement from left to right puts the letter there.  The code runs
    the pass for EE first, which takes the E at offset 6 for the EE behind
    it: at offset 5 the I is left. *)
Lemma deen_keywords_adjust_not_every_occurrence :
  (deen_keywords_adjust [bytes "ENERGIEEFFIZIENZ"]).1
    = [bytes "ENERGI" ++ r_Ee ++ bytes "FFIZ" ++ r_Ie ++ bytes "NZ"]
  ∧ replace_scan (bytes "ENERGIEEFFIZIENZ")
    = bytes "ENERG" ++ r_Ie ++ bytes "EFFIZ" ++ r_Ie ++ bytes "NZ"
  ∧ replaces_every_occurrence (bytes "ENERGIEEFFIZIENZ")
      (replace_scan (bytes "ENERGIEEFFIZIENZ"))
  ∧ occurs_at s_Ie (bytes "ENERGIEEFFIZIENZ") 5
  ∧ unhindered (bytes "ENERGIEEFFIZIENZ") 5
  ∧ ¬ Forall2 replaces_every_occurrence
        [bytes "ENERGIEEFFIZIENZ"] (deen_keywords_adjust [bytes "ENERGIEEFFIZIENZ"]).1.
Proof.
  assert (unhindered (bytes "ENERGIEEFFIZIENZ") 5) as Hfirst.
  { intros search replace j Hd Hocc Hj. exfalso.
    apply digraphs_two in Hd as (s0 & s1 & r0 & r1 & -> & -> & Hfind).
    apply occurs_at_2 in Hocc as [H0 H1].
    destruct j as [|[|[|[|[|j]]]]]; [..|lia]; simpl in H0, H1; simplify_eq;
      vm_compute in Hfind; discriminate Hfind. }
  split_and!;
    [reflexivity|reflexivity|apply replace_scan_replaces|reflexivity|exact Hfirst|].
  intros H. apply Forall2_cons_1 in H as [H _].
  specialize (H s_Ie r_Ie 5). discriminate H; [|reflexivity|exact Hfirst].
  unfold digraphs. rewrite !elem_of_cons. tauto.
Qed.

(** ** The keyword set *)

Section clib_facts.

Lemma to_N_inj (x y : byte) : Byte.to_N x = Byte.to_N y → x = y.
Proof.
  intros E. pose proof (Byte.of_to_N x) as Hx. rewrite E, Byte.of_to_N in Hx.
  by simplify_eq.
Qed.

Lemma strcmp_eq (a b : list byte) : strcmp a b = 0%Z ↔ a = b.
Proof.
  revert b. induction a as [|x a IH]; intros [|y b]; simpl; try done.
  destruct (N.compare_spec (Byte.to_N x) (Byte.to_N y)) as [E|L|L].
  - apply to_N_inj in E as ->. rewrite IH. split; [by intros ->|by intros [= ->]].
  - split; [done|]. intros [= -> _]. lia.
  - split; [done|]. intros [= -> _]. lia.
Qed.

Lemma strcmp_le (a b : list byte) : (strcmp a b ≤ 0)%Z ↔ lex_le a b.
Proof.
  revert b. induction a as [|x a IH]; intros [|y b]; simpl.
  - done.
  - split; [done|lia].
  - split; [lia|done].
  - destruct (N.compare_spec (Byte.to_N x) (Byte.to_N y)) as [E|L|L].
    + apply to_N_inj in E as ->. rewrite IH. split; [by right|].
      intros [?|[_ ?]]; [lia|done].
    + split; [by left|lia].
    + split; [lia|]. intros [?|[-> _]]; lia.
Qed.

Lemma strcmp_gt (a b : list byte) : (0 < strcmp a b)%Z → lex_le b a.
Proof.
  revert b. induction a as [|x a IH]; intros [|y b]; simpl; [lia|lia|done|].
  destruct (N.compare_spec (Byte.to_N x) (Byte.to_N y)) as [E|L|L].
  - apply to_N_inj in E as ->. intros ?%IH. by right.
  - lia.
  - intros _. by left.
Qed.

Lemma lex_le_trans (a b c : list byte) : lex_le a b → lex_le b c → lex_le a c.
Proof.
  revert b c. induction a as [|x a IH]; intros [|y b] [|z c]; simpl; try done.
  intros [L1|[-> H1]] [L2|[-> H2]].
  - left. lia.
  - by left.
  - by left.
  - right. split; [done|]. by eapply IH.
Qed.

Lemma memcmp_eq_take (a b : list byte) (n : nat) :
  memcmp_eq a b n = true ↔ take n a = take n b ∧ n ≤ length a ∧ n ≤ length b.
Proof.
  revert a b. induction n as [|n IH]; intros a b; simpl.
  - split; [intros _; split_and!; [done|lia..]|done].
  - destruct a as [|x a], b as [|y b]; simpl; try (split; [done|intros (_ & ? & ?); lia]).
    case_decide as Hxy.
    + subst y. rewrite IH. split.
      * intros (-> & ? & ?). split_and!; [done|lia..].
      * intros ([= ?] & ? & ?). split_and!; [done|lia..].
    + split; [done|]. intros ([= ? _] & _). done.
Qed.

(** The comparison of [deen_keywords_has_prefix]: for a token that holds
    no NUL, the bytes compare equal exactly when the token is a prefix of
    the keyword. *)
Lemma memcmp_eq_prefix (k at_start : list byte) (len : nat) :
  len ≤ length at_start → x00 ∉ take len at_start →
  memcmp_eq (k ++ [x00]) at_start len = true ↔ take len at_start `prefix_of` k.
Proof.
  intros Hlen Hnul. rewrite memcmp_eq_take. split.
  - intros (Heq & Hk & _). rewrite length_app in Hk. simpl in Hk.
    destruct (decide (len ≤ length k)) as [Hle|Hgt].
    + rewrite take_app_le in Heq by done. rewrite <- Heq.
      exists (drop len k). by rewrite take_drop.
    + assert (len = length k + 1) as -> by lia.
      destruct Hnul. rewrite <- Heq.
      rewrite take_ge by (rewrite length_app; simpl; lia).
      apply elem_of_app. right. left.
  - intros [r Hr]. assert (length (take len at_start) = len) as Hl.
    { rewrite length_take. lia. }
    split_and!; [|rewrite length_app, Hr, length_app; lia|done].
    rewrite Hr, <- app_assoc. rewrite take_app_length'; [done|done].
Qed.

End clib_facts.

(** *** Sorting with a comparator that may end the process *)
Section sort_or_exit_facts.
Context {A : Type} (cmp : A → A → option Z) (R : relation A).
Hypothesis cmp_le : ∀ x y c, cmp x y = Some c → (c ≤ 0)%Z → R x y.
Hypothesis cmp_gt : ∀ x y c, cmp x y = Some c → (0 < c)%Z → R y x.
Hypothesis R_trans : ∀ x y z, R x y → R y z → R x z.

Lemma sort_insert_or_exit_sorted (x : A) (l l' : list A) :
  StronglySorted R l → sort_insert_or_exit cmp x l = Some l' →
  StronglySorted R l' ∧ l' ≡ₚ x :: l.
Proof.
  intros Hl. revert l'. induction Hl as [|y l Hl IH Hy]; intros l'; simpl.
  - intros [= <-]. split; [|done]. repeat constructor.
  - destruct (cmp x y) as [c|] eqn:Hc; [simpl|done].
    destruct (Z.leb_spec c 0) as [Hle|Hgt].
    + intros [= <-]. split; [|done]. constructor; [by constructor|].
      constructor; [by eapply cmp_le|].
      eapply Forall_impl; [exact Hy|]. intros z Hz. eapply R_trans; [|exact Hz].
      by eapply cmp_le.
    + intros (l1 & Hl1 & ->)%fmap_Some. destruct (IH _ Hl1) as [Hs Hp]. split.
      * constructor; [done|]. rewrite Hp. constructor; [by eapply cmp_gt|done].
      * rewrite Hp. apply Permutation_swap.
Qed.

Lemma qsort_or_exit_sorted (l l' : list A) :
  qsort_or_exit cmp l = Some l' → StronglySorted R l' ∧ l' ≡ₚ l.
Proof.
  revert l'. induction l as [|x l IH]; intros l'; simpl.
  - intros [= <-]. split; [constructor|done].
  - destruct (qsort_or_exit cmp l) as [l1|]; [simpl|done].
    destruct (IH _ eq_refl) as [Hs Hp]. intros Hins.
    destruct (sort_insert_or_exit_sorted x l1 l' Hs Hins) as [Hs' Hp'].
    split; [done|]. by rewrite Hp', Hp.
Qed.

(** The sort ends the process only if the comparator does. *)
Lemma sort_insert_or_exit_total (x : A) (l : list A) :
  (∀ y, y ∈ l → is_Some (cmp x y)) → is_Some (sort_insert_or_exit cmp x l).
Proof.
  induction l as [|y l IH]; intros Hc; simpl; [done|].
  destruct (Hc y) as [c ->]; [left|]. simpl.
  destruct (c <=? 0)%Z; [done|]. apply fmap_is_Some, IH.
  intros z Hz. apply Hc. by right.
Qed.

Lemma qsort_or_exit_total (l : list A) :
  (∀ x y, x ∈ l → y ∈ l → is_Some (cmp x y)) → is_Some (qsort_or_exit cmp l).
Proof.
  induction l as [|x l IH]; intros Hc; simpl; [done|].
  destruct IH as [l1 Hl1]. { intros y z Hy Hz. apply Hc; by right. }
  rewrite Hl1. simpl. apply sort_insert_or_exit_total.
  intros y Hy. apply Hc; [left|right].
  assert (l1 ≡ₚ l) as Hp; [|by rewrite <- Hp].
  clear -Hl1. revert l1 Hl1. induction l as [|a l IH]; intros l1; simpl.
  - by intros [= <-].
  - destruct (qsort_or_exit cmp l) as [l2|]; [simpl|done]. specialize (IH _ eq_refl).
    rewrite <- IH. clear. revert l1. induction l2 as [|b l2 IH2]; intros l1; simpl.
    + by intros [= <-].
    + destruct (cmp a b) as [c|]; [simpl|done]. destruct (c <=? 0)%Z.
      * by intros [= <-].
      * intros (l3 & Hl3 & ->)%fmap_Some. rewrite (IH2 _ Hl3). apply Permutation_swap.
Qed.

End sort_or_exit_facts.

(** *** [deen_keywords_add_from_string] *)
Section keyword_set.
Context {common : Common}.

Lemma keyword_before_trans (a b c : list byte) :
  keyword_before a b → keyword_before b c → keyword_before a c.
Proof.
  intros (ca & cb & Ha & Hb & H1) (cb' & cc & Hb' & Hc & H2).
  rewrite Hb in Hb'. simplify_eq. exists ca, cc. split_and!; [done..|].
  destruct H1 as [?|[-> L1]], H2 as [?|[-> L2]]; [left; lia..|].
  right. split; [done|]. by eapply lex_le_trans.
Qed.

Lemma compare_length_Some (c1 c2 : list byte) (c : Z) :
  deen_keywords_compare_length c1 c2 = Some c →
  ∃ n1 n2,
    deen_utf8_sequences_count c1 = (DEEN_SEQUENCE_OK, n1)
    ∧ deen_utf8_sequences_count c2 = (DEEN_SEQUENCE_OK, n2)
    ∧ c = if decide (n1 = n2) then strcmp c1 c2
          else if decide (n1 < n2) then 1%Z else (-1)%Z.
Proof.
  unfold deen_keywords_compare_length, deen_keywords_sequence_count_or_exit.
  rewrite !firstn_all.
  destruct (deen_utf8_sequences_count c1) as [[] n1]; [simpl|done..].
  destruct (deen_utf8_sequences_count c2) as [[] n2]; [simpl|done..].
  intros Hc. exists n1, n2. split_and!; [done..|].
  repeat case_decide; by simplify_eq.
Qed.

Lemma compare_length_le (c1 c2 : list byte) (c : Z) :
  deen_keywords_compare_length c1 c2 = Some c → (c ≤ 0)%Z → keyword_before c1 c2.
Proof.
  intros (n1 & n2 & H1 & H2 & ->)%compare_length_Some Hc. exists n1, n2.
  split_and!; [done..|]. repeat case_decide; [|lia|left; lia].
  right. split; [done|]. by apply strcmp_le.
Qed.

Lemma compare_length_gt (c1 c2 : list byte) (c : Z) :
  deen_keywords_compare_length c1 c2 = Some c → (0 < c)%Z → keyword_before c2 c1.
Proof.
  intros (n1 & n2 & H1 & H2 & ->)%compare_length_Some Hc. exists n2, n1.
  split_and!; [done..|]. repeat case_decide; [|left; lia|lia].
  right. split; [done|]. by apply strcmp_gt.
Qed.

(** C2.  When [deen_keywords_add_from_string] returns, the keyword set
    holds the keywords the loop collected, sorted: a keyword with more
    UTF-8 sequences stands before one with fewer, and of two with as many
    the one that is lower in lexicographic byte order stands first. *)
Theorem deen_keywords_add_from_string_sorted
    (keywords : deen_keywords) (input : list byte) (keywords' : deen_keywords) :
  deen_keywords_add_from_string keywords input = Some keywords' →
  StronglySorted keyword_before keywords'
  ∧ keywords' ≡ₚ deen_keywords_collect keywords input.
Proof.
  unfold deen_keywords_add_from_string.
  apply qsort_or_exit_sorted.
  - apply compare_length_le.
  - apply compare_length_gt.
  - apply keyword_before_trans.
Qed.

(** The call returns when every keyword is well-formed UTF-8. *)
Lemma deen_keywords_add_from_string_returns
    (keywords : deen_keywords) (input : list byte) :
  (∀ k, k ∈ deen_keywords_collect keywords input →
        (deen_utf8_sequences_count k).1 = DEEN_SEQUENCE_OK) →
  is_Some (deen_keywords_add_from_string keywords input).
Proof.
  intros Hok. apply qsort_or_exit_total. intros x y Hx Hy.
  unfold deen_keywords_compare_length, deen_keywords_sequence_count_or_exit.
  rewrite !firstn_all. pose proof (Hok _ Hx) as H1. pose proof (Hok _ Hy) as H2.
  destruct (deen_utf8_sequences_count x) as [r1 n1],
           (deen_utf8_sequences_count y) as [r2 n2].
  simpl in *. subst. simpl. repeat case_decide; done.
Qed.

Lemma cstr_no_nul (buf : list byte) : x00 ∉ cstr buf.
Proof.
  induction buf as [|b buf IH]; simpl; [by intros ?%elem_of_nil|].
  case_decide; [by intros ?%elem_of_nil|]. by intros [?|?]%elem_of_cons.
Qed.

(** [skip_while]: what is skipped, and where it stops. *)
Lemma skip_while_split (c : byte → bool) (input : list byte) :
  ∃ skipped, input = skipped ++ skip_while c input
    ∧ Forall (λ b, c b = true) skipped
    ∧ match skip_while c input with [] => True | b :: _ => c b = false end.
Proof.
  induction input as [|b input (skipped & Heq & Hall & Hhd)]; simpl.
  - exists []. by split_and!.
  - destruct (c b) eqn:Hb.
    + exists (b :: skipped). split_and!; [by rewrite <- app_comm_cons, <- Heq| |done].
      by constructor.
    + exists []. by split_and!.
Qed.

Lemma skip_while_suffix (c : byte → bool) (input : list byte) :
  skip_while c input `suffix_of` input.
Proof.
  induction input as [|b input IH]; simpl; [done|].
  destruct (c b); [by apply suffix_cons_r|done].
Qed.

Lemma skip_while_length (c : byte → bool) (input : list byte) :
  length (skip_while c input) ≤ length input.
Proof. apply suffix_length, skip_while_suffix. Qed.

(** A round of the loop consumes at least one byte. *)
Lemma skip_while_twice_length (c : byte → bool) (b : byte) (input : list byte) :
  length (skip_while (λ b, negb (c b)) (skip_while c (b :: input))) ≤ length input.
Proof.
  simpl. destruct (c b) eqn:Hb.
  - etrans; apply skip_while_length.
  - simpl. rewrite Hb. simpl. apply skip_while_length.
Qed.

(** The loop ends because the input is used up: more rounds than
    [length input] change nothing. *)
Lemma add_from_string_loop_fuel (fuel : nat) (keywords : deen_keywords)
    (input : list byte) :
  length input ≤ fuel →
  add_from_string_loop fuel keywords input
  = add_from_string_loop (length input) keywords input.
Proof.
  remember (length input) as n eqn:Hn. revert fuel keywords input Hn.
  induction (lt_wf n) as [n _ IH]. intros fuel keywords [|b input] -> Hfuel.
  { by destruct fuel. }
  destruct fuel as [|fuel]; [simpl in Hfuel; lia|].
  pose proof (skip_while_twice_length isspace b input) as Hlen.
  cbn [add_from_string_loop length].
  set (at_start := skip_while isspace (b :: input)) in *.
  set (at_i := skip_while (λ b0, negb (isspace b0)) at_start) in *.
  simpl in Hfuel.
  destruct (_ && _);
    rewrite (IH (length at_i) ltac:(simpl; lia) fuel _ at_i eq_refl ltac:(lia));
    by rewrite (IH (length at_i) ltac:(simpl; lia) (length input) _ at_i eq_refl ltac:(lia)).
Qed.

Lemma has_prefix_true (keywords : deen_keywords) (prefix : list byte) (prefix_len : nat) :
  deen_keywords_has_prefix keywords prefix prefix_len = true
  ↔ ∃ k, k ∈ keywords ∧ memcmp_eq (k ++ [x00]) prefix prefix_len = true.
Proof.
  induction keywords as [|k keywords IH]; simpl.
  - split; [done|]. by intros (k & ?%elem_of_nil & _).
  - destruct (memcmp_eq (k ++ [x00]) prefix prefix_len) eqn:Hk.
    + split; [|done]. intros _. exists k. split; [left|done].
    + rewrite IH. split.
      * intros (k' & ? & ?). exists k'. split; [by right|done].
      * intros (k' & [->|?]%elem_of_cons & ?); [congruence|eauto].
Qed.

Lemma has_prefix_false (keywords : deen_keywords) (prefix : list byte) (prefix_len : nat) :
  deen_keywords_has_prefix keywords prefix prefix_len = false
  ↔ ∀ k, k ∈ keywords → memcmp_eq (k ++ [x00]) prefix prefix_len = false.
Proof.
  induction keywords as [|k keywords IH]; simpl.
  - split; [|done]. by intros _ k ?%elem_of_nil.
  - destruct (memcmp_eq (k ++ [x00]) prefix prefix_len) eqn:Hk.
    + split; [done|]. intros H. rewrite <- Hk. apply H. left.
    + rewrite IH. split.
      * intros H k' [->|?]%elem_of_cons; [done|by apply H].
      * intros H k' ?. apply H. by right.
Qed.

Lemma words_from_spaces (sp rest : list byte) :
  Forall (λ b, isspace b = true) sp → words (sp ++ rest) = words rest.
Proof.
  unfold words. induction 1 as [|b sp Hb _ IH]; [done|]. simpl. by rewrite Hb.
Qed.

Lemma words_from_word (word t rest : list byte) :
  Forall (λ b, negb (isspace b) = true) t →
  words_from word (t ++ rest) = words_from (word ++ t) rest.
Proof.
  intros Ht. revert word. induction Ht as [|b t Hb _ IH]; intros word.
  { by rewrite app_nil_r. }
  simpl. apply negb_true_iff in Hb. rewrite Hb, IH. by rewrite <- app_assoc.
Qed.

(** A round of the loop takes the first word off the input. *)
Lemma words_round (input : list byte) :
  words input
  = (if decide (length (skip_while isspace input)
                - length (skip_while (λ b, negb (isspace b)) (skip_while isspace input)) = 0)
     then []
     else [take (length (skip_while isspace input)
                 - length (skip_while (λ b, negb (isspace b)) (skip_while isspace input)))
             (skip_while isspace input)])
    ++ words (skip_while (λ b, negb (isspace b)) (skip_while isspace input)).
Proof.
  set (at_start := skip_while isspace input).
  set (at_i := skip_while (λ b, negb (isspace b)) at_start).
  set (len := length at_start - length at_i).
  destruct (skip_while_split isspace input) as (sp & Hsp & Hspall & Hsphd).
  fold at_start in Hsp, Hsphd.
  destruct (skip_while_split (λ b0, negb (isspace b0)) at_start) as (t & Ht & Htall & Hthd).
  fold at_i in Ht, Hthd.
  assert (len = length t) as Hlen.
  { unfold len. rewrite Ht at 1. rewrite length_app. lia. }
  assert (take len at_start = t) as Htake.
  { rewrite Ht, Hlen. by rewrite take_app_length. }
  rewrite Htake, Hsp, words_from_spaces by done. rewrite Ht at 1.
  unfold words. rewrite words_from_word by done. simpl.
  destruct at_i as [|b at_i]; simpl.
  - rewrite app_nil_r. rewrite Hlen. destruct t; by simpl.
  - apply negb_false_iff in Hthd. rewrite Hthd. rewrite Hlen. by destruct t.
Qed.

(** The loop goes through the words of the input and keeps or drops
    each. *)
Lemma add_from_string_loop_words (fuel : nat) (keywords : deen_keywords)
    (input : list byte) :
  x00 ∉ input → length input ≤ fuel →
  add_from_string_loop fuel keywords input = foldl keep_word keywords (words input).
Proof.
  revert keywords input. induction fuel as [|fuel IH]; intros keywords input Hnul Hfuel.
  { by destruct input; [|simpl in Hfuel; lia]. }
  destruct input as [|b input]; [done|].
  rewrite (words_round (b :: input)). cbn [add_from_string_loop].
  pose proof (skip_while_twice_length isspace b input) as Hshort.
  pose proof (skip_while_suffix isspace (b :: input)) as Hs1.
  set (at_start := skip_while isspace (b :: input)) in *.
  pose proof (skip_while_suffix (λ b0, negb (isspace b0)) at_start) as Hs2.
  set (at_i := skip_while (λ b0, negb (isspace b0)) at_start) in *.
  set (len := length at_start - length at_i).
  assert (x00 ∉ at_start) as Hn1.
  { intros Hin. apply Hnul. destruct Hs1 as [pre Hpre]. rewrite Hpre. apply elem_of_app. by right. }
  assert (x00 ∉ at_i) as Hn2.
  { intros Hin. apply Hn1. destruct Hs2 as [pre Hpre]. rewrite Hpre. apply elem_of_app. by right. }
  assert (length at_i ≤ fuel) as Hfuel' by (simpl in Hfuel; lia).
  assert (len ≤ length at_start) as Hle by (unfold len; lia).
  assert (x00 ∉ take len at_start) as Hn3.
  { intros Hin. apply Hn1. by eapply subseteq_take. }
  destruct (decide (len = 0)) as [H0|Hpos].
  { rewrite H0. simpl. by apply IH. }
  assert ((0 <? len) = true) as -> by (apply Nat.ltb_lt; lia).
  cbn [andb app foldl]. unfold keep_word at 2.
  destruct (deen_is_common_upper_word (take len at_start)); cbn [negb andb];
    [by apply IH|].
  destruct (decide (Exists _ keywords)) as [Hex|Hnex].
  - assert (deen_keywords_has_prefix keywords at_start len = true) as ->.
    { apply has_prefix_true. apply Exists_exists in Hex as (k & Hk & Hpre).
      exists k. split; [done|]. by apply memcmp_eq_prefix. }
    by apply IH.
  - assert (deen_keywords_has_prefix keywords at_start len = false) as ->.
    { apply has_prefix_false. intros k Hk.
      destruct (memcmp_eq (k ++ [x00]) at_start len) eqn:Hm; [|done].
      destruct Hnex. apply Exists_exists. exists k. split; [done|].
      by apply memcmp_eq_prefix. }
    by apply IH.
Qed.

(** What going through a list of words leaves. *)
Lemma foldl_keep_word (ws : list (list byte)) (keywords : deen_keywords) :
  ∃ added,
    foldl keep_word keywords ws = keywords ++ added
    ∧ added `sublist_of` ws
    ∧ (∀ i t, added !! i = Some t →
         ∀ k, k ∈ keywords ++ take i added → ¬ t `prefix_of` k)
    ∧ (∀ t, t ∈ ws → deen_is_common_upper_word t = false →
         ∃ k, k ∈ keywords ++ added ∧ t `prefix_of` k).
Proof.
  revert keywords. induction ws as [|t ws IH]; intros keywords.
  { exists []. rewrite app_nil_r. split_and!; [done..| |].
    - intros i t. by rewrite lookup_nil.
    - by intros t ?%elem_of_nil. }
  cbn [foldl]. unfold keep_word at 2.
  destruct (deen_is_common_upper_word t) eqn:Hcommon;
    [|destruct (decide (Exists (λ k, t `prefix_of` k) keywords)) as [Hex|Hnex]].
  - destruct (IH keywords) as (added & Heq & Hsub & Hpre & Hall).
    exists added. split_and!; [done|by apply sublist_cons|done|].
    intros t' [->|Hin]%elem_of_cons Ht'; [congruence|by apply Hall].
  - destruct (IH keywords) as (added & Heq & Hsub & Hpre & Hall).
    exists added. split_and!; [done|by apply sublist_cons|done|].
    intros t' [->|Hin]%elem_of_cons Ht'; [|by apply Hall].
    apply Exists_exists in Hex as (k & Hk & Hpk). exists k. split; [|done].
    apply elem_of_app. by left.
  - destruct (IH (keywords ++ [t])) as (added & Heq & Hsub & Hpre & Hall).
    exists (t :: added). split_and!.
    + by rewrite Heq, <- app_assoc.
    + by apply sublist_skip.
    + intros [|i] t' Ht' k Hk.
      * simpl in Ht', Hk. simplify_eq. rewrite app_nil_r in Hk.
        intros Hpk. apply Hnex. apply Exists_exists. eauto.
      * simpl in Ht', Hk. apply (Hpre i t' Ht').
        by rewrite <- app_assoc.
    + intros t' Hin Ht'. rewrite (assoc_L (++) keywords [t] added : keywords ++ t :: added = _).
      apply elem_of_cons in Hin as [->|Hin]; [|by apply Hall].
      exists t. split; [|done]. rewrite !elem_of_app, list_elem_of_singleton. tauto.
Qed.

Lemma no_earlier_prefix_NoDup (keywords added : deen_keywords) :
  (∀ i t, added !! i = Some t →
     ∀ k, k ∈ keywords ++ take i added → ¬ t `prefix_of` k) →
  NoDup keywords → NoDup (keywords ++ added).
Proof.
  intros Hpre Hks. apply NoDup_app. split_and!; [done| |].
  - intros k Hk Hin. apply list_elem_of_lookup in Hin as [i Hi].
    apply (Hpre i k Hi k); [|done]. apply elem_of_app. by left.
  - apply NoDup_alt. intros i j t Hi Hj.
    destruct (Nat.lt_trichotomy i j) as [Hlt|[?|Hlt]]; [|done|].
    + destruct (Hpre j t Hj t); [|done]. apply elem_of_app. right.
      apply list_elem_of_lookup. exists i. by rewrite lookup_take_lt.
    + destruct (Hpre i t Hi t); [|done]. apply elem_of_app. right.
      apply list_elem_of_lookup. exists j. by rewrite lookup_take_lt.
Qed.

(** C1, as amended.  Whatever keyword set [deen_keywords_add_from_string]
    is given, the set it leaves holds the given keywords and, added behind
    them before the sort, words of the upper-cased input in the order of
    the input, of which none is a prefix of (or equal to) a given keyword
    or a word added before it.  Every word of the input that is no common
    word is a prefix of (or equal to) a member of the set; and no two
    members are equal when no two given keywords were.  A member may be a
    proper prefix of a member that was added after it. *)
Theorem deen_keywords_add_from_string_no_later_prefix
    (keywords : deen_keywords) (input : list byte) (keywords' : deen_keywords) :
  deen_keywords_add_from_string keywords input = Some keywords' →
  ∃ added,
    deen_keywords_collect keywords input = keywords ++ added
    ∧ keywords' ≡ₚ keywords ++ added
    ∧ added `sublist_of` words (cstr (deen_to_upper input))
    ∧ (∀ i t, added !! i = Some t →
         ∀ k, k ∈ keywords ++ take i added → ¬ t `prefix_of` k)
    ∧ (∀ t, t ∈ words (cstr (deen_to_upper input)) →
         deen_is_common_upper_word t = false →
         ∃ k, k ∈ keywords' ∧ t `prefix_of` k)
    ∧ (NoDup keywords → NoDup keywords').
Proof.
  intros Hadd.
  destruct (qsort_or_exit_sorted deen_keywords_compare_length keyword_before
              compare_length_le compare_length_gt keyword_before_trans _ _ Hadd)
    as [_ Hperm].
  unfold deen_keywords_collect in *.
  rewrite add_from_string_loop_words in * by (done || apply cstr_no_nul).
  destruct (foldl_keep_word (words (cstr (deen_to_upper input))) keywords)
    as (added & Heq & Hsub & Hpre & Hall).
  rewrite Heq in *. exists added. split_and!; [done..| |].
  - intros t Hin Ht. destruct (Hall t Hin Ht) as (k & Hk & Hpk).
    exists k. by rewrite Hperm.
  - intros Hks. rewrite Hperm. by apply no_earlier_prefix_NoDup.
Qed.

(** C9.  [deen_keywords_all_present] is true exactly when the
    case-insensitive search finds every keyword of the set in the text;
    for the empty set it is true whatever the text. *)
Theorem deen_keywords_all_present_iff (keywords : deen_keywords) (text : list byte) :
  (deen_keywords_all_present keywords text = true
   ↔ ∀ k, k ∈ keywords → is_Some (deen_ifind_first text k 0 (length text)))
  ∧ deen_keywords_all_present deen_keywords_create text = true.
Proof.
  split; [|done]. induction keywords as [|k keywords IH]; simpl.
  - split; [|done]. by intros _ k ?%elem_of_nil.
  - destruct (deen_ifind_first text k 0 (length text)) as [at_|] eqn:Hk.
    + rewrite IH. split.
      * intros H k' [->|?]%elem_of_cons; [by rewrite Hk|by apply H].
      * intros H k' Hk'. apply H. by right.
    + split; [done|]. intros H. destruct (H k) as [? Hs]; [left|].
      by rewrite Hk in Hs.
Qed.

End keyword_set.

(** ** The format check *)

Section check_format.

Lemma find_newline_None (buffer acc : list byte) :
  find_newline buffer = None → terminated_lines_acc acc buffer = [].
Proof.
  revert acc. induction buffer as [|b buffer IH]; intros acc; simpl; [done|].
  case_decide; [done|]. destruct (find_newline buffer) as [[line rest]|]; [done|].
  intros _. by apply IH.
Qed.

Lemma find_newline_Some (buffer acc line rest : list byte) :
  find_newline buffer = Some (line, rest) →
  terminated_lines_acc acc buffer = (reverse acc ++ line) :: terminated_lines rest
  ∧ (x0a ∉ line) ∧ length rest < length buffer.
Proof.
  revert acc line. induction buffer as [|b buffer IH]; intros acc line; simpl; [done|].
  case_decide as Hb.
  - intros [= <- <-]. rewrite app_nil_r. split_and!; [done| |lia].
    by intros ?%elem_of_nil.
  - destruct (find_newline buffer) as [[line' rest']|] eqn:Hf; [simpl|done].
    intros [= <- <-]. destruct (IH (b :: acc) line' eq_refl) as (-> & Hnl & Hlen).
    split_and!; [|by intros [?|?]%elem_of_cons|lia].
    by rewrite reverse_cons, <- app_assoc.
Qed.

Lemma significant_at_curr (line : list byte) :
  x0a ∉ line →
  bool_decide (hd x00 (line ++ [x00]) ≠ "#"%byte)
  && bool_decide (hd x00 (line ++ [x00]) ≠ x0a)
  && bool_decide (hd x00 (line ++ [x00]) ≠ x00)
  = significant line.
Proof.
  intros Hnl. destruct line as [|b line]; simpl; [done|].
  rewrite (bool_decide_eq_true_2 (b ≠ x0a)); [by rewrite andb_true_r|].
  intros ->. apply Hnl. left.
Qed.

(** The loop decides on the first line that is neither empty nor a
    comment, and looks no further. *)
Lemma check_lines_first_significant (fuel : nat) (buffer : list byte) :
  length buffer ≤ fuel →
  check_lines fuel buffer DEEN_INSTALL_CHECK_OK false
  = match first_significant buffer with
    | None => (DEEN_INSTALL_CHECK_OK, false)
    | Some line =>
        match strstr_off (cstr line) (bytes "::") with
        | Some _ => (DEEN_INSTALL_CHECK_OK, true)
        | None => (DEEN_INSTALL_CHECK_BAD_FORMAT, false)
        end
    end.
Proof.
  revert buffer. induction fuel as [|fuel IH]; intros buffer Hfuel.
  { destruct buffer; [done|simpl in Hfuel; lia]. }
  cbn [check_lines]. unfold first_significant, terminated_lines in *.
  destruct buffer as [|b buffer]; [done|].
  rewrite (bool_decide_eq_true_2 (b :: buffer ≠ [])) by done.
  rewrite (bool_decide_eq_true_2 (DEEN_INSTALL_CHECK_OK = DEEN_INSTALL_CHECK_OK)) by done.
  cbn [negb andb].
  destruct (find_newline (b :: buffer)) as [[line rest]|] eqn:Hf.
  - destruct (find_newline_Some _ [] _ _ Hf) as (-> & Hnl & Hlen).
    rewrite significant_at_curr by done. cbn [List.find].
    change (reverse [] ++ line) with line.
    destruct (significant line).
    + destruct (strstr_off (cstr line) (bytes "::")); by destruct fuel.
    + apply IH. simpl in *. lia.
  - by rewrite (find_newline_None _ _ Hf).
Qed.

End check_format.

(** C4, as amended.  [deen_install_check_for_ding_format] decides on the
    first line, among the newline-terminated lines of the first 4 KiB,
    that is neither empty nor a comment: the result is BAD_FORMAT exactly
    when the name does not end in ".gz", the file opens and has 4 KiB, and
    that line lacks the separator or there is no such line; it is OK
    exactly when that line exists and holds the separator.  A valid data
    line behind a line that lacks the separator does not make the file
    pass. *)
Theorem deen_install_check_for_ding_format_first_line
    (fs : gmap string (list byte)) (filename : string) :
  (deen_install_check_for_ding_format fs filename = DEEN_INSTALL_CHECK_BAD_FORMAT
   ↔ ends_in_gz filename = false
     ∧ ∃ content, fs !! filename = Some content
         ∧ DEEN_SIZE_CHECK_DING_BUFFER ≤ length content
         ∧ ∀ line, first_significant (take DEEN_SIZE_CHECK_DING_BUFFER content) = Some line →
                   ¬ has_separator line)
  ∧ (deen_install_check_for_ding_format fs filename = DEEN_INSTALL_CHECK_OK
     ↔ ends_in_gz filename = false
       ∧ ∃ content line, fs !! filename = Some content
           ∧ DEEN_SIZE_CHECK_DING_BUFFER ≤ length content
           ∧ first_significant (take DEEN_SIZE_CHECK_DING_BUFFER content) = Some line
           ∧ has_separator line).
Proof.
  unfold deen_install_check_for_ding_format.
  destruct (ends_in_gz filename).
  { split; (split; [done|]); by intros [? _]. }
  destruct (fs !! filename) as [content|].
  2:{ split; (split; [done|]).
      - by intros (_ & ? & ? & _).
      - by intros (_ & ? & ? & ? & _). }
  cbv zeta. rewrite length_take. case_bool_decide as Hlen.
  { split; (split; [done|]).
    - intros (_ & ? & [= <-] & ? & _). lia.
    - intros (_ & ? & ? & [= <-] & ? & _). lia. }
  assert (DEEN_SIZE_CHECK_DING_BUFFER ≤ length content) as Hsize by lia.
  rewrite check_lines_first_significant by (rewrite length_take; lia).
  destruct (first_significant (take DEEN_SIZE_CHECK_DING_BUFFER content))
    as [line|] eqn:Hfirst.
  - unfold has_separator. change (bytes "::") with [":"%byte; ":"%byte] in *.
    destruct (strstr_off (cstr line) [":"%byte; ":"%byte]) as [k|] eqn:Hk; simpl.
    + assert (occurs [":"%byte; ":"%byte] (cstr line)) as Hocc.
      { apply strstr_off_is_Some. rewrite Hk. eauto. }
      split; split; try done.
      * intros (_ & ? & [= <-] & _ & Hno). destruct (Hno line); [by rewrite Hfirst|done].
      * intros _. split; [done|]. exists content, line. by rewrite Hfirst.
    + assert (¬ occurs [":"%byte; ":"%byte] (cstr line)) as Hocc.
      { rewrite <- strstr_off_is_Some, Hk. by intros [? ?]. }
      split; split; try done.
      * intros _. split; [done|]. exists content. split_and!; [done..|].
        intros line'. rewrite Hfirst. by intros [= <-].
      * intros (_ & ? & line' & [= <-] & _ & Hl & ?). rewrite Hfirst in Hl.
        by simplify_eq.
  - simpl. split; split; try done.
    + intros _. split; [done|]. exists content. split_and!; [done..|].
      intros line. by rewrite Hfirst.
    + intros (_ & ? & line' & [= <-] & _ & Hl & ?). by rewrite Hfirst in Hl.
Qed.

(** ** Code that runs in a world *)

Section run_facts.
Context {A B : Type}.

Lemma total_ret (x : A) (w : world) (post : A → world → Prop) :
  post x w → total (mret x) w post.
Proof. intros. by exists x, w. Qed.

Lemma total_bind (m : M A) (f : A → M B) (w : world) (post : B → world → Prop) :
  total m w (λ x w', total (f x) w' post) → total (m ≫= f) w post.
Proof.
  intros (x & w' & Hm & y & w'' & Hf & Hpost). exists y, w''. split; [|done].
  unfold mbind, M_bind. by rewrite Hm.
Qed.

Lemma total_mono (m : M A) (w : world) (post post' : A → world → Prop) :
  total m w post → (∀ x w', post x w' → post' x w') → total m w post'.
Proof. intros (x & w' & Hm & Hpost) Himpl. exists x, w'. eauto. Qed.

Lemma total_run (m : M A) (w : world) (post : A → world → Prop) (x : A) (w' : world) :
  total m w post → m w = Some (x, w') → post x w'.
Proof. intros (x' & w'' & Hm & Hpost) Hrun. rewrite Hrun in Hm. by simplify_eq. Qed.

End run_facts.

Section run_primitives.

Lemma total_modify (f : world → world) (w : world) (post : unit → world → Prop) :
  post tt (f w) → total (modify f) w post.
Proof. intros. by exists tt, (f w). Qed.

Lemma total_gets {A : Type} (f : world → A) (w : world) (post : A → world → Prop) :
  post (f w) w → total (gets f) w post.
Proof. intros. by exists (f w), w. Qed.

Lemma total_call_is_cancelled (f : deen_is_cancelled_cb) (w : world)
    (post : bool → world → Prop) :
  post (f (length (polls w))) (add_poll (f (length (polls w))) w) →
  total (call_is_cancelled (Some f)) w post.
Proof. intros. by eexists _, _. Qed.

Lemma total_call_progress (g : deen_install_progress_cb) (state : deen_install_state)
    (progress : Q) (w : world) (post : unit → world → Prop) :
  post tt (add_event (state, progress) w) →
  total (call_progress (Some g) state progress) w post.
Proof. intros. by eexists _, _. Qed.

End run_primitives.

(** ** The index callback *)

Section sort_facts.
Context {A : Type} (cmp : A → A → Z).

Lemma sort_insert_perm (x : A) (l : list A) : sort_insert cmp x l ≡ₚ x :: l.
Proof.
  induction l as [|y l IH]; simpl; [done|].
  destruct (cmp x y <=? 0)%Z; [done|]. rewrite IH. apply Permutation_swap.
Qed.

Lemma qsort_perm (l : list A) : qsort cmp l ≡ₚ l.
Proof.
  induction l as [|x l IH]; simpl; [done|]. by rewrite sort_insert_perm, IH.
Qed.

Lemma bsearch_None (eq_0 : ∀ x y, cmp x y = 0%Z ↔ x = y) (key : A) (l : list A) :
  bsearch cmp key l = None ↔ key ∉ l.
Proof.
  unfold bsearch. induction l as [|y l IH]; simpl.
  - split; [|done]. by intros _ ?%elem_of_nil.
  - destruct (Z.eqb_spec (cmp key y) 0) as [E|E].
    + split; [done|]. intros Hn. destruct Hn. apply eq_0 in E as ->. left.
    + rewrite IH, not_elem_of_cons. split; [|by intros [_ ?]].
      intros ?. split; [|done]. intros ->. apply E. by apply eq_0.
Qed.

End sort_facts.

Section prefix_bag.

Lemma add_prefix_to_context_bag (c : deen_index_context) (s : list byte) (len : nat) :
  context_ok c →
  context_ok (deen_index_add_prefix_to_context c s len)
  ∧ bag (deen_index_add_prefix_to_context c s len) ≡ₚ bag c ++ [take len s]
  ∧ is_cancelled_cb (deen_index_add_prefix_to_context c s len) = is_cancelled_cb c
  ∧ progress_cb (deen_index_add_prefix_to_context c s len) = progress_cb c
  ∧ current_ref (deen_index_add_prefix_to_context c s len) = current_ref c.
Proof.
  intros [Hcount Halloc]. unfold deen_index_add_prefix_to_context.
  set (ext := if decide (prefix_count c = prefix_count_allocated c)
              then (S (prefix_count_allocated c), prefixes c ++ [[]])
              else (prefix_count_allocated c, prefixes c)).
  assert (ext.1 = length ext.2 ∧ prefix_count c < length ext.2
          ∧ take (prefix_count c) ext.2 = bag c) as (Hext & Hlt & Htake).
  { unfold ext, bag. case_decide; simpl.
    - rewrite length_app. simpl. split_and!; [lia..|]. by rewrite take_app_le by lia.
    - split_and!; [lia..|done]. }
  destruct ext as [allocated slots]. simpl in *.
  set (slots1 := <[prefix_count c := take len s]> slots).
  assert (take (S (prefix_count c)) slots1 = bag c ++ [take len s]) as Hslots1.
  { unfold slots1. erewrite take_S_r; [|by apply list_lookup_insert_eq].
    by rewrite take_insert_ge, Htake by lia. }
  assert (length (qsort deen_index_prefix_compare (take (S (prefix_count c)) slots1))
          = S (prefix_count c)) as Hlen.
  { rewrite qsort_perm, length_take. unfold slots1. rewrite length_insert. lia. }
  unfold context_ok, bag. simpl. split_and!; try done.
  - lia.
  - rewrite length_app, Hlen, length_drop. unfold slots1. rewrite length_insert. lia.
  - rewrite take_app_length' by done. by rewrite qsort_perm, Hslots1.
Qed.

Lemma add_prefix_to_context_if_not_present_bag (c : deen_index_context) (s : list byte) :
  context_ok c →
  context_ok (deen_index_add_prefix_to_context_if_not_present c s (length s))
  ∧ bag (deen_index_add_prefix_to_context_if_not_present c s (length s))
      ≡ₚ (if decide (s ∈ bag c) then bag c else bag c ++ [s])
  ∧ is_cancelled_cb (deen_index_add_prefix_to_context_if_not_present c s (length s))
      = is_cancelled_cb c
  ∧ progress_cb (deen_index_add_prefix_to_context_if_not_present c s (length s))
      = progress_cb c
  ∧ current_ref (deen_index_add_prefix_to_context_if_not_present c s (length s))
      = current_ref c.
Proof.
  intros Hok. unfold deen_index_add_prefix_to_context_if_not_present.
  pose proof (add_prefix_to_context_bag c s (length s) Hok) as Hadd.
  rewrite firstn_all in Hadd.
  case_decide as Hcount.
  - rewrite decide_False; [done|]. unfold bag. rewrite Hcount. by intros ?%elem_of_nil.
  - fold (bag c).
    destruct (bsearch deen_index_prefix_compare s (bag c)) as [found|] eqn:Hb.
    + rewrite decide_True; [done|].
      destruct (decide (s ∈ bag c)) as [|Hn]; [done|].
      apply (bsearch_None deen_index_prefix_compare strcmp_eq) in Hn.
      by rewrite Hn in Hb.
    + apply (bsearch_None deen_index_prefix_compare strcmp_eq) in Hb.
      by rewrite decide_False.
Qed.

Lemma add_prefix_to_context_if_not_present_fields (c : deen_index_context)
    (s : list byte) (len : nat) :
  is_cancelled_cb (deen_index_add_prefix_to_context_if_not_present c s len)
    = is_cancelled_cb c
  ∧ progress_cb (deen_index_add_prefix_to_context_if_not_present c s len) = progress_cb c
  ∧ current_ref (deen_index_add_prefix_to_context_if_not_present c s len) = current_ref c.
Proof.
  unfold deen_index_add_prefix_to_context_if_not_present,
    deen_index_add_prefix_to_context.
  destruct (decide (prefix_count c = 0));
    [|destruct (bsearch deen_index_prefix_compare s (take (prefix_count c) (prefixes c)));
      [done|]];
    by destruct (decide (prefix_count c = prefix_count_allocated c)).
Qed.

Lemma total_flush (c : deen_index_context) (w : world)
    (post : deen_index_context → world → Prop) :
  (∀ c' w',
     (context_ok c → context_ok c') → bag c' = [] →
     is_cancelled_cb c' = is_cancelled_cb c → progress_cb c' = progress_cb c →
     current_ref c' = current_ref c → lastprogress c' = lastprogress c →
     fs w' = fs w → polls w' = polls w → events w' = events w →
     post c' w') →
  total (deen_index_flush_context_prefixes_to_index c) w post.
Proof.
  intros Hpost. unfold deen_index_flush_context_prefixes_to_index. case_decide as Hcount.
  - apply total_bind, total_modify, total_ret. apply Hpost; try done.
    intros [_ Halloc]. split; simpl; [lia|done].
  - apply total_ret. apply Hpost; try done. unfold bag.
    by replace (prefix_count c) with 0 by lia.
Qed.

End prefix_bag.

Section index_callback.
Context {common : Common}.

(** The first block of the callback: a word of a new ref flushes the bag
    and may report progress. *)
Lemma total_index_callback_new_ref (ref : Z) (progress : Q)
    (c : deen_index_context) (w : world) (g : deen_install_progress_cb)
    (post : deen_index_context → world → Prop) :
  progress_cb c = Some g →
  (∀ c' w',
     is_cancelled_cb c' = is_cancelled_cb c → progress_cb c' = Some g →
     current_ref c' = ref → (context_ok c → context_ok c') →
     bag c' = bag_at_ref ref c →
     fs w' = fs w → polls w' = polls w →
     (∃ evs, events w' = events w ++ evs
             ∧ Forall (λ e, e.1 = DEEN_INSTALL_STATE_INDEXING) evs) →
     post c' w') →
  total (index_callback_new_ref ref progress c) w post.
Proof.
  intros Hg Hpost. unfold index_callback_new_ref, bag_at_ref in *.
  case_decide as Href.
  - apply total_bind, total_flush.
    intros c1 w1 Hok Hbag Hc Hp Hr Hl Hfs Hpolls Hev.
    cbv zeta. case_decide.
    + simpl. rewrite Hp, Hg. apply total_bind, total_call_progress, total_ret.
      apply Hpost; try done.
      * simpl. congruence.
      * exists [(DEEN_INSTALL_STATE_INDEXING, progress)]. simpl. rewrite Hev.
        split; [done|]. by repeat constructor.
    + apply total_ret. apply Hpost; try done.
      * simpl. congruence.
      * exists []. by rewrite app_nil_r.
  - apply total_ret. apply Hpost; try done.
    exists []. by rewrite app_nil_r.
Qed.

(** The second block: the poll, and the prefix. *)
Lemma total_index_callback_word (s : list byte) (c : deen_index_context) (w : world)
    (f : deen_is_cancelled_cb) (post : bool * deen_index_context → world → Prop) :
  is_cancelled_cb c = Some f →
  (∀ r w',
     is_cancelled_cb r.2 = Some f → progress_cb r.2 = progress_cb c →
     current_ref r.2 = current_ref c → (context_ok c → context_ok r.2) →
     fs w' = fs w → events w' = events w →
     polls w' = polls w ++ (if decide (DEEN_INDEXING_MIN ≤ length s)
                            then [f (length (polls w))] else []) →
     (r.1 = false ↔ DEEN_INDEXING_MIN ≤ length s ∧ f (length (polls w)) = true) →
     (if decide (DEEN_INDEXING_MIN ≤ length s ∧ f (length (polls w)) = false
                 ∧ deen_is_common_upper_word (take (length s) (deen_to_upper s)) = false
                 ∧ DEEN_INDEXING_MIN
                   ≤ (deen_utf8_crop_to_unicode_len (take (length s) (deen_to_upper s)) DEEN_INDEXING_DEPTH).2)
      then context_ok c →
           bag r.2
           ≡ₚ (if decide (cstr (deen_utf8_crop_to_unicode_len (take (length s) (deen_to_upper s))
                                  DEEN_INDEXING_DEPTH).1 ∈ bag c)
               then bag c
               else bag c ++ [cstr (deen_utf8_crop_to_unicode_len (take (length s) (deen_to_upper s))
                                      DEEN_INDEXING_DEPTH).1])
      else bag r.2 = bag c) →
     post r w') →
  total (index_callback_word s (length s) c) w post.
Proof.
  intros Hf Hpost. unfold index_callback_word. rewrite !firstn_all.
  case_decide as Hmin.
  2:{ apply total_ret. apply Hpost; simpl; try done.
      - by rewrite app_nil_r.
      - split; [done|]. by intros [? _].
      - rewrite decide_False; [done|]. by intros [? _]. }
  rewrite Hf. apply total_bind, total_call_is_cancelled.
  destruct (f (length (polls w))) eqn:Hpoll.
  { apply total_ret. apply Hpost; simpl; try done.
    rewrite decide_False; [done|]. by intros (_ & ? & _). }
  cbv zeta.
  set (buffer_len := if decide (_ ≤ length s) then _ else _).
  destruct (deen_is_common_upper_word (take (length s) (deen_to_upper s))) eqn:Hcommon.
  { apply total_ret. apply Hpost; simpl; try done.
    - split; [done|]. by intros [_ ?].
    - rewrite decide_False; [done|]. by intros (_ & _ & ? & _). }
  cbn [negb].
  destruct (deen_utf8_crop_to_unicode_len (take (length s) (deen_to_upper s)) DEEN_INDEXING_DEPTH)
    as [cropped unicode_length] eqn:Hcrop.
  cbn [fst snd] in Hpost.
  destruct (decide (DEEN_INDEXING_MIN ≤ unicode_length)) as [Hunicode|Hunicode].
  - apply total_ret.
    set (c1 := set_buffer cropped buffer_len (set_buffer (deen_to_upper s) buffer_len c)).
    assert (bag c1 = bag c) as Hbag1 by done.
    assert (context_ok c → context_ok c1) as Hok1 by done.
    unfold strlen.
    pose proof (add_prefix_to_context_if_not_present_bag c1 (cstr cropped)) as Hadd.
    destruct (add_prefix_to_context_if_not_present_fields c1 (cstr cropped)
                (length (cstr cropped))) as (Hc1 & Hc2 & Hc3).
    apply Hpost; simpl; try done.
    + by rewrite Hc1.
    + intros Hok. by destruct (Hadd (Hok1 Hok)).
    + split; [done|]. by intros [_ ?].
    + rewrite decide_True by done. intros Hok.
      destruct (Hadd (Hok1 Hok)) as (_ & Hperm & _). by rewrite Hperm, Hbag1.
  - apply total_ret. apply Hpost; simpl; try done.
    + split; [done|]. by intros [_ ?].
    + rewrite decide_False; [done|]. by intros (_ & _ & _ & ?).
Qed.


Lemma total_index_callback (s : list byte) (ref : Z) (progress : Q)
    (c : deen_index_context) (w : world)
    (f : deen_is_cancelled_cb) (g : deen_install_progress_cb) :
  is_cancelled_cb c = Some f → progress_cb c = Some g →
  total (deen_index_callback s (length s) ref progress c) w (λ r w',
    is_cancelled_cb r.2 = Some f ∧ progress_cb r.2 = Some g ∧ current_ref r.2 = ref
    ∧ (context_ok c → context_ok r.2)
    ∧ fs w' = fs w
    ∧ (∃ evs, events w' = events w ++ evs
              ∧ Forall (λ e, e.1 = DEEN_INSTALL_STATE_INDEXING) evs)
    ∧ polls w' = polls w ++ (if decide (DEEN_INDEXING_MIN ≤ length s)
                             then [f (length (polls w))] else [])
    ∧ (r.1 = false ↔ DEEN_INDEXING_MIN ≤ length s ∧ f (length (polls w)) = true)
    ∧ if decide (DEEN_INDEXING_MIN ≤ length s ∧ f (length (polls w)) = false
                 ∧ deen_is_common_upper_word (take (length s) (deen_to_upper s)) = false
                 ∧ DEEN_INDEXING_MIN
                   ≤ (deen_utf8_crop_to_unicode_len (take (length s) (deen_to_upper s))
                        DEEN_INDEXING_DEPTH).2)
      then context_ok c →
           bag r.2
           ≡ₚ (if decide (cstr (deen_utf8_crop_to_unicode_len
                                  (take (length s) (deen_to_upper s))
                                  DEEN_INDEXING_DEPTH).1 ∈ bag_at_ref ref c)
               then bag_at_ref ref c
               else bag_at_ref ref c
                    ++ [cstr (deen_utf8_crop_to_unicode_len
                                (take (length s) (deen_to_upper s))
                                DEEN_INDEXING_DEPTH).1])
      else bag r.2 = bag_at_ref ref c).
Proof.
  intros Hf Hg. unfold deen_index_callback.
  apply total_bind. apply (total_index_callback_new_ref _ _ _ _ g); [exact Hg|].
  intros c1 w1 Hc1 Hp1 Hr1 Hok1 Hbag1 Hfs1 Hpolls1 Hev1.
  apply (total_index_callback_word _ _ _ f); [congruence|].
  intros r w' Hc Hp Hr Hok Hfs Hev Hpolls Hcont Hbag.
  rewrite Hpolls1, Hbag1 in *.
  split_and!; try done; try congruence.
  - tauto.
  - by rewrite Hev.
  - destruct (decide (_ ∧ _)); [|done]. intros Hokc. apply Hbag. tauto.
Qed.

Lemma for_each_word_stops (before after : list (list byte * Z * Q))
    (s : list byte) (ref : Z) (progress : Q)
    (context0 context context' : deen_index_context) (w0 w w' : world) :
  for_each_word before deen_index_callback context0 w0 = Some ((true, context), w) →
  deen_index_callback s (length s) ref progress context w = Some ((false, context'), w') →
  for_each_word (before ++ (s, ref, progress) :: after) deen_index_callback context0 w0
  = Some ((false, context'), w').
Proof.
  intros Hbefore Hstop. revert context0 w0 Hbefore.
  induction before as [|[[s1 ref1] progress1] before IH]; intros context0 w0; simpl.
  - intros [= -> ->]. unfold mbind, M_bind. by rewrite Hstop.
  - unfold mbind, M_bind in *.
    destruct (deen_index_callback s1 (length s1) ref1 progress1 context0 w0)
      as [[[[|] c1] w1]|]; [|done..].
    apply IH.
Qed.

(** C3, as amended.  For a word that the tokenizer delivers, whose
    uppercased form is well-formed UTF-8 of [n] code points, the callback
    adds a prefix to the bag of the word's ref if and only if the
    cancellation callback answers false for the word, the uppercased form is
    no common word and [n] is at least [DEEN_INDEXING_MIN]; the prefix is
    the uppercased word cropped to [DEEN_INDEXING_DEPTH] code points, and it
    is not added a second time.  Otherwise the bag stays as it is: a word
    of fewer code points is never prefixed. *)
Theorem deen_index_callback_prefix (s : list byte) (ref : Z) (progress : Q)
    (context : deen_index_context) (w : world)
    (f : deen_is_cancelled_cb) (g : deen_install_progress_cb) (n : nat) :
  context_ok context →
  is_cancelled_cb context = Some f → progress_cb context = Some g →
  length (deen_to_upper s) = length s →
  deen_utf8_sequences_count (deen_to_upper s) = (DEEN_SEQUENCE_OK, n) →
  n ≤ length s →
  (deen_utf8_crop_to_unicode_len (deen_to_upper s) DEEN_INDEXING_DEPTH).2
    = n `min` DEEN_INDEXING_DEPTH →
  DEEN_INDEXING_MIN ≤ DEEN_INDEXING_DEPTH →
  total (deen_index_callback s (length s) ref progress context) w (λ r w',
    context_ok r.2 ∧ current_ref r.2 = ref
    ∧ let prefix :=
        cstr (deen_utf8_crop_to_unicode_len (deen_to_upper s) DEEN_INDEXING_DEPTH).1 in
      let before := bag_at_ref ref context in
      if decide (f (length (polls w)) = false
                 ∧ deen_is_common_upper_word (deen_to_upper s) = false
                 ∧ DEEN_INDEXING_MIN ≤ n)
      then bag r.2 ≡ₚ (if decide (prefix ∈ before) then before else before ++ [prefix])
      else bag r.2 = before).
Proof.
  intros Hok Hf Hg Hlen Hcount Hn Hcrop HMD.
  eapply total_mono; [by apply (total_index_callback s ref progress context w f g)|].
  intros r w' (_ & _ & Hr & Hok' & _ & _ & _ & _ & Hbag).
  assert (take (length s) (deen_to_upper s) = deen_to_upper s) as Htake.
  { rewrite <- Hlen. apply firstn_all. }
  rewrite Htake, Hcrop in Hbag. split_and!; [by apply Hok'|done|]. cbv zeta.
  destruct (decide (f (length (polls w)) = false
                    ∧ deen_is_common_upper_word (deen_to_upper s) = false
                    ∧ DEEN_INDEXING_MIN ≤ n)) as [(Hpoll & Hcommon & HM)|Hno].
  - rewrite decide_True in Hbag by (split_and!; [lia|done..|lia]). by apply Hbag.
  - rewrite decide_False in Hbag; [done|]. intros (_ & ? & ? & ?). apply Hno.
    split_and!; [done..|lia].
Qed.

(** C8, as amended.  The callback asks the cancellation callback once for
    a word of at least [DEEN_INDEXING_MIN] bytes and not at all for a
    shorter word.  It returns false exactly when the answer is true; then
    no prefix is added for the word, and the tokenizer, which stops at a
    false result, delivers none of the words behind it. *)
Theorem deen_index_callback_polls_and_stops (s : list byte) (ref : Z) (progress : Q)
    (context : deen_index_context) (w : world)
    (f : deen_is_cancelled_cb) (g : deen_install_progress_cb) :
  is_cancelled_cb context = Some f → progress_cb context = Some g →
  total (deen_index_callback s (length s) ref progress context) w (λ r w',
    polls w' = polls w ++ (if decide (DEEN_INDEXING_MIN ≤ length s)
                           then [f (length (polls w))] else [])
    ∧ (r.1 = false ↔ DEEN_INDEXING_MIN ≤ length s ∧ f (length (polls w)) = true)
    ∧ (r.1 = false →
       bag r.2 = bag_at_ref ref context
       ∧ ∀ before after context0 w0,
           for_each_word before deen_index_callback context0 w0
             = Some ((true, context), w) →
           for_each_word (before ++ (s, ref, progress) :: after)
             deen_index_callback context0 w0
           = Some ((false, r.2), w'))).
Proof.
  intros Hf Hg.
  destruct (total_index_callback s ref progress context w f g Hf Hg)
    as ([continue context'] & w' & Hrun & _ & _ & _ & _ & _ & _ & Hpolls & Hcont & Hbag).
  exists (continue, context'), w'. split; [done|]. split_and!; [done..|].
  simpl in *. intros ->. split.
  - destruct Hcont as [Hcont _]. destruct (Hcont eq_refl) as [_ Hpoll].
    rewrite decide_False in Hbag; [done|]. rewrite Hpoll. by intros (_ & ? & _).
  - intros before after context0 w0 Hbefore. by eapply for_each_word_stops.
Qed.

End index_callback.

(** ** The install *)
Section install.
Context {common : Common}.

Lemma same_but_fs_refl (w : world) : same_but_fs w w.
Proof. done. Qed.

Lemma same_but_fs_trans (w1 w2 w3 : world) :
  same_but_fs w1 w2 → same_but_fs w2 w3 → same_but_fs w1 w3.
Proof. unfold same_but_fs. intros (? & ? & ? & ?) (? & ? & ? & ?). split_and!; congruence. Qed.

Lemma same_but_fs_set_fs (f : gmap string (list byte) → gmap string (list byte))
    (w : world) : same_but_fs w (set_fs f w).
Proof. done. Qed.

Lemma total_remove_fileobject (env : environment) (filename : string) (w : world)
    (post : bool → world → Prop) :
  (∀ r w', same_but_fs w w' →
           (env_remove_ok env filename = true → fs w' !! filename = None) →
           (∀ other, other ≠ filename → fs w' !! other = fs w !! other) →
           post r w') →
  total (deen_remove_fileobject env filename) w post.
Proof.
  intros Hpost.
  unfold deen_remove_fileobject, deen_exists_fileobject, env_remove_ok in *.
  apply total_bind, total_gets.
  destruct (env_stat_ok env filename); cbn [andb];
    [|apply total_ret; by apply Hpost].
  case_bool_decide as Hex.
  - destruct (env_remove_succeeds env filename) eqn:Hrm.
    + apply total_bind, total_modify, total_ret. apply Hpost; [done|..].
      * intros _. simpl. apply lookup_delete_eq.
      * intros other Hne. simpl. by apply lookup_delete_ne.
    + apply total_ret. by apply Hpost.
  - apply total_ret. apply Hpost; [done| |done].
    intros _. by apply eq_None_not_Some.
Qed.

Lemma total_install_init (env : environment) (deen_root_dir : string) (w : world)
    (post : bool → world → Prop) :
  (∀ r w', same_but_fs w w' → post r w') →
  total (deen_install_init env deen_root_dir) w post.
Proof.
  intros Hpost. unfold deen_install_init, deen_exists_fileobject,
    deen_remove_fileobject_in_root_dir.
  apply total_bind, total_gets. apply total_bind.
  assert (∀ (exists_ : bool) (post1 : bool → world → Prop),
            (∀ r w', same_but_fs w w' → post1 r w') →
            total (if exists_ then mret true else mkdir env deen_root_dir) w post1)
    as Hmk.
  { intros exists_ post1 Hp. destruct exists_; [by apply total_ret, Hp|].
    unfold mkdir. apply total_bind, total_gets.
    destruct (env_mkdir_ok env && _); [|by apply total_ret, Hp].
    apply total_bind, total_modify, total_ret. by apply Hp. }
  apply Hmk. intros [|] w1 Hw1; [|by apply total_ret, Hpost].
  apply total_bind, total_remove_fileobject. intros [|] w2 Hw2 _ _.
  - apply total_remove_fileobject. intros r w3 Hw3 _ _. apply Hpost.
    eauto using same_but_fs_trans.
  - apply total_ret, Hpost. eauto using same_but_fs_trans.
Qed.

Lemma total_neither_error_nor_cancelled (is_error : bool) (f : deen_is_cancelled_cb)
    (w : world) (post : bool → world → Prop) :
  (is_error = true → post false w) →
  (is_error = false →
   post (negb (f (length (polls w)))) (add_poll (f (length (polls w))) w)) →
  total (neither_error_nor_cancelled is_error (Some f)) w post.
Proof.
  intros H1 H2. unfold neither_error_nor_cancelled. destruct is_error.
  - by apply total_ret, H1.
  - apply total_bind, total_call_is_cancelled, total_ret. by apply H2.
Qed.

Lemma total_error_or_cancelled (is_error : bool) (f : deen_is_cancelled_cb)
    (w : world) (post : bool → world → Prop) :
  (is_error = true → post true w) →
  (is_error = false → post (f (length (polls w))) (add_poll (f (length (polls w))) w)) →
  total (error_or_cancelled is_error (Some f)) w post.
Proof.
  intros H1 H2. unfold error_or_cancelled. destruct is_error.
  - by apply total_ret, H1.
  - by apply total_call_is_cancelled, H2.
Qed.

Lemma advances_refl (f : deen_is_cancelled_cb) (is_error : bool) (w w' : world) :
  polls w' = polls w → events w' = events w → advances f is_error is_error w w'.
Proof.
  intros Hp He. exists [], []. rewrite !app_nil_r.
  split_and!; [done..| |]; [constructor|]. split; [by left|].
  intros [?|?%Exists_nil]; done.
Qed.

Lemma advances_trans (f : deen_is_cancelled_cb) (e1 e2 e3 : bool) (w1 w2 w3 : world) :
  advances f e1 e2 w1 w2 → advances f e2 e3 w2 w3 → advances f e1 e3 w1 w3.
Proof.
  intros (ps1 & evs1 & Hp1 & He1 & Hf1 & Hi1 & Herr1)
         (ps2 & evs2 & Hp2 & He2 & Hf2 & Hi2 & Herr2).
  exists (ps1 ++ ps2), (evs1 ++ evs2). rewrite !app_assoc, <- Hp1, <- He1.
  split_and!; [done..|by apply Forall_app|by apply Forall_app|].
  rewrite Exists_app, Herr2, Herr1. tauto.
Qed.

Lemma advances_poll (f : deen_is_cancelled_cb) (is_error : bool) (w : world) :
  advances f is_error is_error w (add_poll (f (length (polls w))) w).
Proof.
  exists [f (length (polls w))], []. rewrite app_nil_r.
  split_and!; [done..| | |]; [by repeat econstructor|constructor|].
  split; [by left|]. intros [?|?%Exists_nil]; done.
Qed.

Lemma advances_error (f : deen_is_cancelled_cb) (is_error : bool) (w : world) :
  advances f is_error true w (add_event (DEEN_INSTALL_STATE_ERROR, 0%Q) w).
Proof.
  exists [], [(DEEN_INSTALL_STATE_ERROR, 0%Q)]. rewrite app_nil_r.
  split_and!; [done..|constructor| |]; [by repeat constructor|].
  split; [|done]. intros _. right. by left.
Qed.

Lemma total_raise_error (f : deen_is_cancelled_cb) (g : deen_install_progress_cb)
    (is_error : bool) (w : world) (post : bool → world → Prop) :
  (∀ w', advances f is_error true w w' → fs w' = fs w → post true w') →
  total (DEEN_INSTALL_RAISE_ERROR (Some g)) w post.
Proof.
  intros Hpost. unfold DEEN_INSTALL_RAISE_ERROR.
  apply total_bind, total_call_progress, total_ret. apply Hpost; [|done].
  apply advances_error.
Qed.

Lemma total_copy_loop (f : deen_is_cancelled_cb) (g : deen_install_progress_cb)
    (fuel : nat) (env : environment) (data_path : string) (src : list byte) (n : nat)
    (is_error : bool) (w : world) :
  total (copy_loop fuel env data_path (Some g) src n is_error) w
    (λ is_error' w', advances f is_error is_error' w w').
Proof.
  revert src n is_error w. induction fuel as [|fuel IH]; intros src n is_error w; simpl.
  { by apply total_ret, advances_refl. }
  destruct is_error; [by apply total_ret, advances_refl|].
  case_decide; [|by apply total_ret, advances_refl].
  destruct (env_write_ok env n).
  - apply total_bind, total_modify. eapply total_mono; [apply IH|].
    intros e' w' Hadv. eapply advances_trans; [|exact Hadv].
    by apply advances_refl.
  - apply total_bind, (total_raise_error f g false). intros w1 Hw1 _.
    eapply total_mono; [apply IH|]. intros e' w' Hadv. by eapply advances_trans.
Qed.

Lemma total_install_copy (f : deen_is_cancelled_cb) (g : deen_install_progress_cb)
    (env : environment) (ding_filename data_path : string) (is_error : bool) (w : world) :
  total (install_copy env ding_filename data_path (Some g) is_error) w
    (λ is_error' w', advances f is_error is_error' w w').
Proof.
  unfold install_copy. apply total_bind, total_gets.
  destruct (fs w !! ding_filename).
  - destruct (env_dest_open_ok env).
    + apply total_bind, total_modify, total_bind, total_gets.
      eapply total_mono; [apply (total_copy_loop f)|].
      intros e' w' Hadv. eapply advances_trans; [|exact Hadv]. by apply advances_refl.
    + apply (total_raise_error f g is_error). intros w' Hadv _.
      eapply advances_trans; [exact Hadv|]. by apply advances_refl.
  - apply (total_raise_error f g is_error). intros w' Hadv _.
    eapply advances_trans; [exact Hadv|]. by apply advances_refl.
Qed.

Lemma total_install_open_db (f : deen_is_cancelled_cb) (g : deen_install_progress_cb)
    (env : environment) (index_path : string) (is_error : bool) (w : world) :
  total (install_open_db env index_path (Some g) is_error) w
    (λ r w', advances f is_error r.1 w w').
Proof.
  unfold install_open_db. destruct (env_db_open_ok env).
  - apply total_bind, total_modify, total_ret. by apply advances_refl.
  - apply total_bind, (total_raise_error f g is_error). intros w' Hadv _. by apply total_ret.
Qed.

Lemma total_install_open_data (f : deen_is_cancelled_cb) (g : deen_install_progress_cb)
    (data_path : string) (is_error : bool) (w : world) :
  total (install_open_data data_path (Some g) is_error) w
    (λ r w', advances f is_error r.1 w w').
Proof.
  unfold install_open_data. apply total_bind, total_gets.
  destruct (_ || _).
  - apply total_bind, (total_raise_error f g is_error). intros w' Hadv _. by apply total_ret.
  - apply total_ret. by apply advances_refl.
Qed.

Lemma advances_callback (f : deen_is_cancelled_cb) (is_error : bool) (w w' : world)
    (s : list byte) :
  fs w' = fs w →
  (∃ evs, events w' = events w ++ evs
          ∧ Forall (λ e : deen_install_state * Q, e.1 = DEEN_INSTALL_STATE_INDEXING) evs) →
  polls w' = polls w ++ (if decide (DEEN_INDEXING_MIN ≤ length s)
                         then [f (length (polls w))] else []) →
  advances f is_error is_error w w'.
Proof.
  intros _ (evs & Hev & Hind) Hpolls. eexists _, evs. split_and!; [done..| | |].
  - case_decide; by repeat econstructor.
  - eapply Forall_impl; [exact Hind|]. by left.
  - split; [by left|]. intros [?|Hex]; [done|].
    apply Exists_exists in Hex as (e & He & Herr). rewrite Forall_forall in Hind.
    apply Hind in He. congruence.
Qed.

Lemma total_for_each_word (f : deen_is_cancelled_cb) (g : deen_install_progress_cb)
    (words : list (list byte * Z * Q)) (c : deen_index_context) (is_error : bool)
    (w : world) :
  is_cancelled_cb c = Some f → progress_cb c = Some g →
  total (for_each_word words deen_index_callback c) w
    (λ r w', advances f is_error is_error w w'
             ∧ (r.1 = false → ∃ n, f n = true)).
Proof.
  revert c w. induction words as [|[[s ref] progress] words IH]; intros c w Hf Hg; simpl.
  { apply total_ret. split; [by apply advances_refl|done]. }
  apply total_bind. eapply total_mono; [by apply (total_index_callback s ref progress c w f g)|].
  intros [continue c1] w1 (Hf1 & Hg1 & _ & _ & Hfs & Hev & Hpolls & Hcont & _). simpl in *.
  pose proof (advances_callback f is_error w w1 s Hfs Hev Hpolls) as Hadv.
  destruct continue.
  - eapply total_mono; [by apply IH|]. intros r w' [Hadv' Hstop].
    split; [by eapply advances_trans|done].
  - apply total_ret. split; [done|]. intros _.
    destruct Hcont as [Hcont _]. destruct (Hcont eq_refl) as [_ Hpoll]. eauto.
Qed.

Lemma total_install_index (f : deen_is_cancelled_cb) (g : deen_install_progress_cb)
    (env : environment) (fd_data : option (list byte)) (is_error : bool) (w : world) :
  total (install_index env fd_data (Some g) (Some f) is_error) w
    (λ is_error' w', advances f is_error is_error' w w').
Proof.
  unfold install_index, deen_for_each_word_from_file. apply total_bind.
  assert (∀ words,
            total (for_each_word words deen_index_callback
                     (initial_context (Some g) (Some f))) w
              (λ r w', advances f is_error is_error w w'
                       ∧ (r.1 = false → ∃ n, f n = true))) as Hwords.
  { intros words. by apply (total_for_each_word f g). }
  assert (∀ (ok : bool) (c : deen_index_context) (w1 : world),
            advances f is_error is_error w w1 →
            total ((if ok then mret is_error else DEEN_INSTALL_RAISE_ERROR (Some g))
                   ≫= λ is_error0,
                        deen_index_flush_context_prefixes_to_index c
                        ≫= λ _, mret is_error0) w1
              (λ is_error' w', advances f is_error is_error' w w')) as Hrest.
  { intros ok c w1 Hadv. apply total_bind. destruct ok.
    - apply total_ret, total_bind, total_flush.
      intros c' w' _ _ _ _ _ _ Hfs Hpolls Hev. apply total_ret.
      destruct Hadv as (ps & evs & Hp & He & ?). exists ps, evs.
      by rewrite Hpolls, Hev.
    - apply (total_raise_error f g is_error). intros w2 Hadv2 _.
      apply total_bind, total_flush.
      intros c' w' _ _ _ _ _ _ Hfs Hpolls Hev. apply total_ret.
      destruct (advances_trans _ _ _ _ _ _ _ Hadv Hadv2) as (ps & evs & Hp & He & ?).
      exists ps, evs. by rewrite Hpolls, Hev. }
  destruct (env_read_fails_after env) as [n|].
  - apply total_bind. eapply total_mono; [apply Hwords|].
    intros [ok c] w1 [Hadv _]. apply total_ret. by apply (Hrest false).
  - eapply total_mono; [apply Hwords|]. intros [ok c] w1 [Hadv _]. by apply Hrest.
Qed.

(** C5: the claim holds of the install as the spec describes it, but not
    of the code.  When the cancellation callback answers true from the
    start, every step is skipped and the files are cleaned up, but
    [is_error] was never set: the code reports COMPLETED and returns true.
    Only a cancellation that the index callback sees goes through
    [DEEN_INSTALL_RAISE_ERROR] and makes the install return false. *)
Theorem deen_install_from_path_cancelled_at_start
    (env : environment) (deen_root_dir ding_filename : string)
    (progress_cb : option deen_install_progress_cb) (w : world) :
  total (deen_install_from_path env deen_root_dir ding_filename progress_cb
           (Some (λ _, true))) w
    (λ r w',
       r = true
       ∧ polls w' = polls w ++ replicate 6 true
       ∧ events w' = events w ++ [(DEEN_INSTALL_STATE_STARTING, 0%Q);
                                  (DEEN_INSTALL_STATE_COMPLETED, 1%Q)]
       ∧ (env_remove_ok env (deen_data_path deen_root_dir) = true →
          env_remove_ok env (deen_index_path deen_root_dir) = true →
          fs w' !! deen_data_path deen_root_dir = None
          ∧ fs w' !! deen_index_path deen_root_dir = None)).
Proof.
  unfold deen_install_from_path.
  set (pcb := match progress_cb with None => _ | Some _ => _ end).
  assert (∃ g, pcb = Some g) as [g ->] by (unfold pcb; destruct progress_cb; eauto).
  apply total_bind, total_call_progress.
  apply total_bind, total_install_init. intros r0 w0 (Hp0 & He0 & _ & _).
  apply total_bind, total_neither_error_nor_cancelled; [done|intros _; cbn [negb]].
  apply total_bind, total_ret.
  apply total_bind, total_neither_error_nor_cancelled; [done|intros _; cbn [negb]].
  apply total_bind, total_ret.
  apply total_bind, total_neither_error_nor_cancelled; [done|intros _; cbn [negb]].
  apply total_bind, total_ret.
  apply total_bind, total_neither_error_nor_cancelled; [done|intros _; cbn [negb]].
  apply total_bind, total_ret.
  apply total_bind, total_neither_error_nor_cancelled; [done|intros _; cbn [negb]].
  apply total_bind, total_ret.
  apply total_bind, total_error_or_cancelled; [done|intros _].
  apply total_bind. apply total_bind, total_remove_fileobject.
  intros r1 w1 (Hp1 & He1 & _ & _) Hdata _.
  apply total_bind, total_remove_fileobject.
  intros r2 w2 (Hp2 & He2 & _ & _) Hindex Hother. apply total_ret.
  apply total_bind. cbn [negb]. apply total_call_progress, total_ret.
  split_and!.
  - done.
  - simpl. rewrite Hp2, Hp1. simpl. rewrite Hp0. simpl. by rewrite <- !app_assoc.
  - simpl. rewrite He2, He1. simpl. rewrite He0. simpl. by rewrite <- !app_assoc.
  - intros Hrd Hri. simpl. split; [|by apply Hindex].
    destruct (decide (deen_data_path deen_root_dir = deen_index_path deen_root_dir))
      as [->|Hne]; [by apply Hindex|].
    rewrite Hother by done. by apply Hdata.
Qed.

Lemma total_guarded_step {A B : Type} (f : deen_is_cancelled_cb) (is_error : bool)
    (block : M A) (skipped : A) (proj : A → bool) (k : A → M B) (w : world)
    (post : B → world → Prop) :
  proj skipped = is_error →
  (∀ w1, total block w1 (λ r w', advances f is_error (proj r) w1 w')) →
  (∀ r w', advances f is_error (proj r) w w' → total (k r) w' post) →
  total (go ← neither_error_nor_cancelled is_error (Some f);
         r ← (if go : bool then block else mret skipped);
         k r) w post.
Proof.
  intros Hskip Hblock Hk. apply total_bind, total_neither_error_nor_cancelled.
  - intros _. apply total_bind, total_ret, Hk. rewrite Hskip. by apply advances_refl.
  - intros _. destruct (f (length (polls w))) eqn:Hpoll; cbn [negb].
    + apply total_bind, total_ret, Hk. rewrite Hskip, <- Hpoll. apply advances_poll.
    + apply total_bind. eapply total_mono; [apply Hblock|]. intros r w' Hadv.
      apply Hk. eapply advances_trans; [|exact Hadv]. rewrite <- Hpoll. apply advances_poll.
Qed.

(** The install with both callbacks given: what it asks and tells. *)
Lemma total_install (f : deen_is_cancelled_cb) (g : deen_install_progress_cb)
    (env : environment) (deen_root_dir ding_filename : string) (w : world) :
  total (deen_install_from_path env deen_root_dir ding_filename (Some g) (Some f)) w
    (λ r w',
       ∃ ps evs,
         polls w' = polls w ++ ps ∧ events w' = events w ++ evs
         ∧ Forall (λ b, ∃ n, b = f n) ps
         ∧ (∀ e : deen_install_state * Q,
              e ∈ evs → e.1 = DEEN_INSTALL_STATE_IDLE → ∃ n, f n = true)
         ∧ (r = false
            ↔ Exists (λ e : deen_install_state * Q, e.1 = DEEN_INSTALL_STATE_ERROR) evs)).
Proof.
  unfold deen_install_from_path.
  apply total_bind, total_call_progress.
  apply total_bind, total_install_init. intros r0 w0 Hw0.
  apply (total_guarded_step f false _ false id); [done|apply (total_install_copy f)|].
  intros e1 w1 H1. unfold id in H1.
  apply (total_guarded_step f e1 _ (e1, false) fst); [done|apply (total_install_open_db f)|].
  intros [e2 db] w2 H2. cbn [fst] in H2.
  apply (total_guarded_step f e2 _ tt (λ _, e2)); [done| |].
  { intros w'. apply total_modify. by apply advances_refl. }
  intros [] w3 H3.
  apply (total_guarded_step f e2 _ (e2, None) fst); [done|apply (total_install_open_data f)|].
  intros [e4 fd_data] w4 H4. cbn [fst] in H4.
  apply (total_guarded_step f e4 _ e4 id); [done|apply (total_install_index f)|].
  intros e5 w5 H5. unfold id in H5.
  pose proof (advances_trans _ _ _ _ _ _ _ H1
               (advances_trans _ _ _ _ _ _ _ H2
                 (advances_trans _ _ _ _ _ _ _ H3
                   (advances_trans _ _ _ _ _ _ _ H4 H5)))) as Hadv.
  clear H1 H2 H3 H4 H5.
  destruct Hadv as (ps & evs & Hp & He & Hfa & Hind & Herr).
  destruct Hw0 as (Hp0 & He0 & _). simpl in Hp0, He0. rewrite Hp0 in Hp. rewrite He0 in He.
  assert (∀ (clean_up : bool) w6 (post : unit → world → Prop),
            (∀ w7, polls w7 = polls w6 → events w7 = events w6 → post tt w7) →
            total (if clean_up
                   then deen_remove_fileobject env (deen_data_path deen_root_dir)
                        ≫= λ _, deen_remove_fileobject env (deen_index_path deen_root_dir)
                                ≫= λ _, mret ()
                   else mret ()) w6 post) as Hclean.
  { intros clean_up w6 post Hpost. destruct clean_up; [|by apply total_ret, Hpost].
    apply total_bind, total_remove_fileobject. intros ? w7 (Hp7 & He7 & _) _ _.
    apply total_bind, total_remove_fileobject. intros ? w8 (Hp8 & He8 & _) _ _.
    apply total_ret, Hpost; congruence. }
  assert (∀ e : deen_install_state * Q,
            e ∈ (DEEN_INSTALL_STATE_STARTING, 0%Q) :: evs →
            e.1 ≠ DEEN_INSTALL_STATE_IDLE) as Hnoidle.
  { intros e [->|Hin]%elem_of_cons; [done|]. rewrite Forall_forall in Hind.
    destruct (Hind e Hin) as [-> | ->]; done. }
  destruct e5.
  - assert (Exists (λ e : deen_install_state * Q, e.1 = DEEN_INSTALL_STATE_ERROR) evs)
      as Hraised by (destruct Herr as [[?|?] _]; done).
    apply total_bind, total_error_or_cancelled; [intros _|done].
    apply total_bind, (Hclean true). intros w7 Hp7 He7. cbn [negb].
    apply total_bind, total_bind, total_call_is_cancelled.
    destruct (f (length (polls w7))) eqn:Hpoll.
    + apply total_call_progress, total_ret.
      exists (ps ++ [true]), ((DEEN_INSTALL_STATE_STARTING, 0%Q) :: evs
                              ++ [(DEEN_INSTALL_STATE_IDLE, 0%Q)]).
      simpl. rewrite Hp7, He7, Hp, He, <- !app_assoc. split_and!; [done..| | |].
      * apply Forall_app. split; [done|]. by repeat econstructor.
      * eauto.
      * split; [intros _|done]. right. apply Exists_app. by left.
    + apply total_ret, total_ret.
      exists (ps ++ [false]), ((DEEN_INSTALL_STATE_STARTING, 0%Q) :: evs).
      simpl. rewrite Hp7, He7, Hp, He, <- !app_assoc. split_and!; [done..| | |].
      * apply Forall_app. split; [done|]. by repeat econstructor.
      * intros e He' Hidle. by destruct (Hnoidle e He').
      * split; [intros _|done]. by right.
  - assert (¬ Exists (λ e : deen_install_state * Q, e.1 = DEEN_INSTALL_STATE_ERROR) evs)
      as Hnone.
    { intros Hex. destruct Herr as [_ Herr]. discriminate Herr. by right. }
    apply total_bind, total_error_or_cancelled; [done|intros _].
    apply total_bind, (Hclean (f (length (polls w5)))). intros w7 Hp7 He7. cbn [negb].
    apply total_bind, total_call_progress, total_ret.
    exists (ps ++ [f (length (polls w5))]),
           ((DEEN_INSTALL_STATE_STARTING, 0%Q) :: evs
            ++ [(DEEN_INSTALL_STATE_COMPLETED, 1%Q)]).
    simpl. rewrite Hp7, He7. simpl. rewrite Hp, He, <- !app_assoc.
    split_and!; [done..| | |].
    + apply Forall_app. split; [done|]. by repeat econstructor.
    + intros e Hin Hidle. apply elem_of_cons in Hin as [->|Hin]; [done|].
      apply elem_of_app in Hin as [Hin|Hin].
      * destruct (Hnoidle e); [by right|done].
      * apply list_elem_of_singleton in Hin as ->. done.
    + split; [done|]. intros [?|[?|Hex]%Exists_app]%Exists_cons; [done..|].
      by apply Exists_cons in Hex as [?|?%Exists_nil].
Qed.

(** C10.  [deen_install_from_path] takes NULL for either callback: it puts
    the no-op callbacks in their place before the first call, so that no
    call goes through a NULL pointer whatever callbacks it is given; and
    with a NULL cancellation callback every poll is answered false, the
    state IDLE is never reported, and the install fails only when an error
    was reported. *)
Theorem deen_install_from_path_null_callbacks
    (env : environment) (deen_root_dir ding_filename : string)
    (progress_cb : option deen_install_progress_cb)
    (is_cancelled_cb : option deen_is_cancelled_cb) (w : world) :
  deen_install_from_path env deen_root_dir ding_filename None is_cancelled_cb
    = deen_install_from_path env deen_root_dir ding_filename
        (Some deen_noop_install_progress_cb) is_cancelled_cb
  ∧ deen_install_from_path env deen_root_dir ding_filename progress_cb None
    = deen_install_from_path env deen_root_dir ding_filename progress_cb
        (Some deen_noop_is_cancelled_cb)
  ∧ is_Some (deen_install_from_path env deen_root_dir ding_filename
               progress_cb is_cancelled_cb w)
  ∧ total (deen_install_from_path env deen_root_dir ding_filename progress_cb None) w
      (λ r w',
         ∃ k evs,
           polls w' = polls w ++ replicate k false
           ∧ events w' = events w ++ evs
           ∧ (∀ e : deen_install_state * Q, e ∈ evs → e.1 ≠ DEEN_INSTALL_STATE_IDLE)
           ∧ (r = false
              ↔ ∃ e : deen_install_state * Q, e ∈ evs ∧ e.1 = DEEN_INSTALL_STATE_ERROR)).
Proof.
  assert (∀ pcb ccb,
            ∃ g f, deen_install_from_path env deen_root_dir ding_filename pcb ccb
                   = deen_install_from_path env deen_root_dir ding_filename
                       (Some g) (Some f)
                   ∧ (ccb = None → f = deen_noop_is_cancelled_cb)) as Hsubst.
  { intros [g|] [f|].
    - by exists g, f.
    - by exists g, deen_noop_is_cancelled_cb.
    - by exists deen_noop_install_progress_cb, f.
    - by exists deen_noop_install_progress_cb, deen_noop_is_cancelled_cb. }
  split_and!; [reflexivity..| |].
  - destruct (Hsubst progress_cb is_cancelled_cb) as (g & f & -> & _).
    destruct (total_install f g env deen_root_dir ding_filename w) as (r & w' & -> & _).
    eauto.
  - destruct (Hsubst progress_cb None) as (g & f & -> & Hf). rewrite (Hf eq_refl).
    eapply total_mono; [apply total_install|].
    intros r w' (ps & evs & Hp & He & Hfa & Hidle & Herr).
    exists (length ps), evs. split_and!; [|done| |].
    + rewrite Hp. f_equal. clear -Hfa.
      induction Hfa as [|b ps [n ->] _ IH]; [done|]. simpl. by rewrite <- IH.
    + intros e He' Hi. by destruct (Hidle e He' Hi).
    + by rewrite Herr, Exists_exists.
Qed.

End install.

(** ** More of the keyword set *)

Section keyword_more.
Context {common : Common}.

Lemma strcmp_swap (a b : list byte) : strcmp b a = (- strcmp a b)%Z.
Proof.
  revert b. induction a as [|x a IH]; intros [|y b]; simpl; try done.
  rewrite (N.compare_antisym (Byte.to_N x) (Byte.to_N y)).
  destruct (Byte.to_N x ?= Byte.to_N y)%N; simpl; [apply IH|done..].
Qed.

Lemma compare_length_swap (c1 c2 : list byte) (c : Z) :
  deen_keywords_compare_length c1 c2 = Some c →
  deen_keywords_compare_length c2 c1 = Some (- c)%Z.
Proof.
  intros (n1 & n2 & H1 & H2 & ->)%compare_length_Some.
  unfold deen_keywords_compare_length, deen_keywords_sequence_count_or_exit.
  rewrite !firstn_all, H1, H2. simpl.
  repeat case_decide; try lia; try done. by rewrite strcmp_swap.
Qed.

(** X1.  The comparator of the sort is consistent, as qsort asks: with its
    arguments swapped it gives the opposite sign, and it answers 0 only
    for one and the same string. *)
Theorem deen_keywords_compare_length_consistent (c1 c2 : list byte) (c : Z) :
  deen_keywords_compare_length c1 c2 = Some c →
  (∃ c', deen_keywords_compare_length c2 c1 = Some c' ∧ Z.sgn c' = (- Z.sgn c)%Z)
  ∧ (c = 0%Z ↔ c1 = c2).
Proof.
  intros Hc. split.
  { exists (- c)%Z. split; [by apply compare_length_swap|apply Z.sgn_opp]. }
  apply compare_length_Some in Hc as (n1 & n2 & H1 & H2 & ->).
  repeat case_decide; subst.
  - apply strcmp_eq.
  - split; [done|]. intros ->. rewrite H1 in H2. simplify_eq.
  - split; [done|]. intros ->. rewrite H1 in H2. simplify_eq.
Qed.

Lemma keyword_before_compare (a b : list byte) :
  keyword_before a b →
  ∃ c, deen_keywords_compare_length a b = Some c ∧ (c ≤ 0)%Z.
Proof.
  intros (ca & cb & Ha & Hb & Hlt).
  unfold deen_keywords_compare_length, deen_keywords_sequence_count_or_exit.
  rewrite !firstn_all, Ha, Hb. simpl.
  destruct Hlt as [Hlt|[-> Hle]].
  - rewrite decide_False by lia. rewrite decide_False by lia. eexists. split; [done|lia].
  - rewrite decide_True by done. eexists. split; [done|]. by apply strcmp_le.
Qed.

Lemma qsort_or_exit_sorted_id (l : deen_keywords) :
  StronglySorted keyword_before l →
  qsort_or_exit deen_keywords_compare_length l = Some l.
Proof.
  induction 1 as [|x l Hl IH Hx]; simpl; [done|].
  rewrite IH. simpl. destruct l as [|y l]; [done|]. simpl.
  apply Forall_cons_1 in Hx as [Hxy _].
  apply keyword_before_compare in Hxy as (c & -> & Hc). simpl.
  by rewrite (proj2 (Z.leb_le c 0) Hc).
Qed.

(** [deen_keywords_has_prefix] *)

(** X2.  For a token that holds no NUL, [deen_keywords_has_prefix] is true
    exactly when the token is a prefix of a keyword of the set, or equal
    to one; a keyword that is a proper prefix of the token does not
    count. *)
Theorem deen_keywords_has_prefix_iff
    (keywords : deen_keywords) (at_start : list byte) (len : nat) :
  len ≤ length at_start → x00 ∉ take len at_start →
  (deen_keywords_has_prefix keywords at_start len = true
   ↔ ∃ k, k ∈ keywords ∧ take len at_start `prefix_of` k).
Proof.
  intros Hlen Hnul. rewrite has_prefix_true.
  split; intros (k & Hk & Hp); exists k; (split; [done|]);
    by apply (memcmp_eq_prefix k at_start len Hlen Hnul).
Qed.

Lemma has_prefix_member (keywords : deen_keywords) (at_start : list byte) (len : nat) :
  len ≤ length at_start → take len at_start ∈ keywords →
  deen_keywords_has_prefix keywords at_start len = true.
Proof.
  intros Hlen Hin. apply has_prefix_true. exists (take len at_start). split; [done|].
  apply memcmp_eq_take. rewrite length_app, length_take. simpl.
  split_and!; [|lia..]. rewrite take_app_le by (rewrite length_take; lia).
  rewrite take_take. f_equal. lia.
Qed.

Lemma has_prefix_mono (ks ks' : deen_keywords) (prefix : list byte) (prefix_len : nat) :
  (∀ k, k ∈ ks → k ∈ ks') →
  deen_keywords_has_prefix ks prefix prefix_len = true →
  deen_keywords_has_prefix ks' prefix prefix_len = true.
Proof.
  intros Hsub. rewrite !has_prefix_true. intros (k & Hk & Hm). eauto.
Qed.

Lemma add_from_string_loop_prefix (fuel : nat) (keywords : deen_keywords)
    (input : list byte) :
  keywords `prefix_of` add_from_string_loop fuel keywords input.
Proof.
  revert keywords input. induction fuel as [|fuel IH]; intros keywords input.
  { simpl. by destruct input. }
  destruct input as [|b input]; [done|]. cbn [add_from_string_loop].
  destruct (_ && _); [|apply IH].
  etrans; [|apply IH]. by apply prefix_app_r.
Qed.

(** What a run of the loop appends. *)
Lemma add_from_string_loop_tokens (fuel : nat) (keywords : deen_keywords)
    (before rest : list byte) :
  boundary before rest →
  ∃ added,
    add_from_string_loop fuel keywords rest = keywords ++ added
    ∧ NoDup added
    ∧ ∀ t, t ∈ added →
        (t ∉ keywords) ∧ token_of t (before ++ rest)
        ∧ deen_is_common_upper_word t = false.
Proof.
  revert keywords before rest.
  induction fuel as [|fuel IH]; intros keywords before rest Hb.
  { exists []. simpl. rewrite app_nil_r. split_and!; [by destruct rest|constructor|].
    by intros t ?%elem_of_nil. }
  destruct rest as [|b rest].
  { exists []. simpl. rewrite app_nil_r. split_and!; [done|constructor|].
    by intros t ?%elem_of_nil. }
  cbn [add_from_string_loop].
  destruct (skip_while_split isspace (b :: rest)) as (sp & Hsp & Hspall & Hsphd).
  remember (skip_while isspace (b :: rest)) as at_start eqn:Hat_start.
  destruct (skip_while_split (λ b0, negb (isspace b0)) at_start) as (t & Ht & Htall & Hthd).
  remember (skip_while (λ b0, negb (isspace b0)) at_start) as at_i eqn:Hat_i.
  assert (length at_start - length at_i = length t) as Hlen.
  { rewrite Ht at 1. rewrite length_app. lia. }
  assert (take (length t) at_start = t) as Htake.
  { rewrite Ht at 1. by rewrite take_app_length. }
  rewrite Hlen, Htake.
  assert (before ++ b :: rest = (before ++ sp ++ t) ++ at_i) as Hsplit.
  { rewrite Hsp, Ht at 1. by rewrite <- !app_assoc. }
  assert (boundary (before ++ sp ++ t) at_i) as Hb'.
  { right; right. destruct at_i as [|b1 at_i]; [done|]. by apply negb_false_iff. }
  rewrite Hsplit.
  destruct (_ && _) eqn:Hcond; [|by apply IH].
  apply andb_prop in Hcond as [[Hpos Hcommon]%andb_prop Hhas].
  apply Nat.ltb_lt in Hpos. apply negb_true_iff in Hcommon, Hhas.
  destruct (IH (keywords ++ [t]) _ _ Hb') as (added & -> & Hnd & Hadded).
  exists (t :: added). split_and!.
  - by rewrite <- app_assoc.
  - constructor; [|done]. intros Hin. destruct (Hadded t Hin) as (Hnot & _).
    apply Hnot, elem_of_app. right. left.
  - intros t' [->|Hin]%elem_of_cons.
    + split_and!; [| |done].
      * intros Hin. rewrite has_prefix_member in Hhas; [done| |by rewrite Htake].
        rewrite Ht, length_app. lia.
      * split_and!.
        -- intros ->. simpl in Hpos. lia.
        -- eapply Forall_impl; [exact Htall|]. intros b0. by rewrite negb_true_iff.
        -- exists (before ++ sp), at_i. split_and!.
           ++ by rewrite <- !app_assoc.
           ++ destruct sp as [|b1 sp _] using rev_ind.
              ** rewrite app_nil_r. simpl in Hsp. subst at_start.
                 destruct Hb as [->|[Hb|Hb]]; [by left|by right|].
                 destruct t as [|b2 t]; [simpl in Hpos; lia|].
                 rewrite Ht in Hsp. simplify_eq/=.
                 apply Forall_cons_1 in Htall as [Hb2 _]. rewrite Hb in Hb2. done.
              ** right. exists (before ++ sp), b1. split; [by rewrite app_assoc|].
                 by apply Forall_app in Hspall as [_ [? _]%Forall_cons_1].
           ++ destruct at_i as [|b1 at_i]; [by left|right].
              exists b1, at_i. split; [done|]. by apply negb_false_iff.
    + destruct (Hadded t' Hin) as (Hnot & Htok & Hc). split_and!; [|done..].
      intros Hk. apply Hnot, elem_of_app. by left.
Qed.

(** X3.  What [deen_keywords_add_from_string] adds: the set it leaves holds
    the keywords it was given, none of them lost, and besides them words
    of the upper-cased input, each once: a word is a run of bytes
    between whitespace, is not empty, is no common word and was no member
    before. *)
Theorem deen_keywords_add_from_string_adds_words
    (keywords : deen_keywords) (input : list byte) (keywords' : deen_keywords) :
  deen_keywords_add_from_string keywords input = Some keywords' →
  ∃ added,
    keywords' ≡ₚ keywords ++ added
    ∧ NoDup added
    ∧ ∀ t, t ∈ added →
        (t ∉ keywords) ∧ token_of t (cstr (deen_to_upper input))
        ∧ deen_is_common_upper_word t = false.
Proof.
  intros Hadd.
  destruct (qsort_or_exit_sorted deen_keywords_compare_length keyword_before
              compare_length_le compare_length_gt keyword_before_trans _ _ Hadd)
    as [_ Hperm].
  unfold deen_keywords_collect in Hperm.
  destruct (add_from_string_loop_tokens (length (cstr (deen_to_upper input)))
              keywords [] (cstr (deen_to_upper input))) as (added & Hloop & Hnd & Hadded).
  { by left. }
  exists added. rewrite Hperm, Hloop. done.
Qed.

(** A keyword set that holds all that a run of the loop would leave is
    left as it is by the loop. *)
Lemma add_from_string_loop_absorb (fuel : nat) (keywords ks : deen_keywords)
    (input : list byte) :
  (∀ k, k ∈ add_from_string_loop fuel keywords input → k ∈ ks) →
  add_from_string_loop fuel ks input = ks.
Proof.
  revert keywords input. induction fuel as [|fuel IH]; intros keywords input Hsub.
  { by destruct input. }
  destruct input as [|b input]; [done|]. cbn [add_from_string_loop] in *.
  remember (skip_while isspace (b :: input)) as at_start eqn:Hat_start.
  remember (skip_while (λ b0, negb (isspace b0)) at_start) as at_i eqn:Hat_i.
  remember (length at_start - length at_i) as len eqn:Hlen.
  assert (len ≤ length at_start) as Hle by lia.
  destruct (0 <? len) eqn:Hpos; cbn [andb] in *; [|by eapply IH].
  destruct (deen_is_common_upper_word (take len at_start)); cbn [andb negb] in *;
    [by eapply IH|].
  destruct (deen_keywords_has_prefix keywords at_start len) eqn:Hhas; cbn [negb] in *.
  - rewrite (has_prefix_mono keywords ks); [by eapply IH| |done].
    intros k Hk. apply Hsub.
    destruct (add_from_string_loop_prefix fuel keywords at_i) as [more ->].
    apply elem_of_app. by left.
  - rewrite has_prefix_member; [by eapply IH|done|].
    apply Hsub.
    destruct (add_from_string_loop_prefix fuel (keywords ++ [take len at_start]) at_i)
      as [more ->].
    rewrite <- app_assoc. apply elem_of_app. right. left.
Qed.

(** X4.  Adding the keywords of the same string a second time changes
    nothing: every word of the string is by then a common word, a member,
    or a prefix of a member, and the set is sorted already. *)
Theorem deen_keywords_add_from_string_twice
    (keywords : deen_keywords) (input : list byte) (keywords' : deen_keywords) :
  deen_keywords_add_from_string keywords input = Some keywords' →
  deen_keywords_add_from_string keywords' input = Some keywords'.
Proof.
  intros Hadd.
  destruct (qsort_or_exit_sorted deen_keywords_compare_length keyword_before
              compare_length_le compare_length_gt keyword_before_trans _ _ Hadd)
    as [Hsorted Hperm].
  unfold deen_keywords_add_from_string, deen_keywords_collect in *.
  rewrite (add_from_string_loop_absorb _ keywords).
  - by apply qsort_or_exit_sorted_id.
  - intros k Hk. by rewrite Hperm.
Qed.

(** [deen_keywords_longest_keyword] *)

Lemma longest_keyword_from_spec (keywords : deen_keywords) (longest : nat) :
  longest ≤ deen_keywords_longest_keyword_from keywords longest
  ∧ (∀ k, k ∈ keywords → length k ≤ deen_keywords_longest_keyword_from keywords longest)
  ∧ (deen_keywords_longest_keyword_from keywords longest = longest
     ∨ ∃ k, k ∈ keywords ∧ length k = deen_keywords_longest_keyword_from keywords longest).
Proof.
  revert longest. induction keywords as [|k keywords IH]; intros longest; simpl.
  - split_and!; [done| |by left]. by intros k ?%elem_of_nil.
  - destruct (IH (if decide (longest < length k) then length k else longest))
      as (Hge & Hall & Hex).
    split_and!.
    + case_decide; lia.
    + intros k' [->|Hin]%elem_of_cons; [case_decide; lia|by apply Hall].
    + destruct Hex as [Heq|(k' & Hin & Hk')].
      * case_decide; [right|by left]. exists k. split; [left|done].
      * right. exists k'. split; [by right|done].
Qed.

(** X5.  [deen_keywords_longest_keyword] is the greatest length in bytes of a
    keyword of the set: no keyword is longer, some keyword is as long
    when the set is not empty, and for the empty set it is 0. *)
Theorem deen_keywords_longest_keyword_max (keywords : deen_keywords) :
  (∀ k, k ∈ keywords → length k ≤ deen_keywords_longest_keyword keywords)
  ∧ (keywords ≠ [] →
     ∃ k, k ∈ keywords ∧ length k = deen_keywords_longest_keyword keywords)
  ∧ deen_keywords_longest_keyword deen_keywords_create = 0.
Proof.
  unfold deen_keywords_longest_keyword.
  destruct (longest_keyword_from_spec keywords 0) as (_ & Hall & Hex).
  split_and!; [done| |done].
  intros Hne. destruct Hex as [Heq|?]; [|done].
  destruct keywords as [|k keywords]; [done|]. exists k. split; [left|].
  specialize (Hall k ltac:(left)). lia.
Qed.

End keyword_more.

Section keywords_present.
Context {common : Common}.

Lemma all_present_true (keywords : deen_keywords) (text : list byte) :
  (∀ k, k ∈ keywords → is_Some (deen_ifind_first text k 0 (length text))) →
  deen_keywords_all_present keywords text = true.
Proof.
  induction keywords as [|k keywords IH]; intros Hall; simpl; [done|].
  destruct (Hall k) as [at_ ->]; [left|]. apply IH. intros k' Hk'. apply Hall. by right.
Qed.

Lemma all_present_member (keywords : deen_keywords) (text k : list byte) :
  deen_keywords_all_present keywords text = true → k ∈ keywords →
  is_Some (deen_ifind_first text k 0 (length text)).
Proof.
  induction keywords as [|k' keywords IH]; simpl; [by intros _ ?%elem_of_nil|].
  destruct (deen_ifind_first text k' 0 (length text)) as [at_|] eqn:Hk'; [|done].
  intros Hall [->|Hin]%elem_of_cons; [by rewrite Hk'|by apply IH].
Qed.

(** X24.  The keywords taken from a text are found in it.  When the search
    finds every string that stands in the upper-cased input, and every
    keyword of the set is found there before the call, then every keyword
    of the set that [deen_keywords_add_from_string] leaves is found
    there: [deen_keywords_all_present] answers true. *)
Theorem deen_keywords_all_present_after_add
    (keywords : deen_keywords) (input : list byte) (keywords' : deen_keywords) :
  (∀ f i, i + length f ≤ length (cstr (deen_to_upper input)) →
          take (length f) (drop i (cstr (deen_to_upper input))) = f →
          is_Some (deen_ifind_first (cstr (deen_to_upper input)) f 0
                     (length (cstr (deen_to_upper input))))) →
  deen_keywords_all_present keywords (cstr (deen_to_upper input)) = true →
  deen_keywords_add_from_string keywords input = Some keywords' →
  deen_keywords_all_present keywords' (cstr (deen_to_upper input)) = true.
Proof.
  intros Hfind Hbefore Hadd.
  destruct (qsort_or_exit_sorted deen_keywords_compare_length keyword_before
              compare_length_le compare_length_gt keyword_before_trans _ _ Hadd)
    as [_ Hperm].
  unfold deen_keywords_collect in Hperm.
  destruct (add_from_string_loop_tokens (length (cstr (deen_to_upper input)))
              keywords [] (cstr (deen_to_upper input))) as (added & Hloop & _ & Hadded).
  { by left. }
  rewrite Hloop in Hperm. apply all_present_true. intros k Hk.
  rewrite Hperm in Hk. apply elem_of_app in Hk as [Hk|Hk].
  - by eapply all_present_member.
  - destruct (Hadded k Hk) as (_ & (_ & _ & pre & post & Htext & _) & _).
    simpl in Htext. apply (Hfind k (length pre)).
    + rewrite Htext, !length_app. lia.
    + rewrite Htext, drop_app_length. by rewrite take_app_length.
Qed.

End keywords_present.

(** ** More of the umlaut recovery *)

(** X6.  [deen_keywords_adjust] writes only where one of the letters A, E, I,
    O, U, S stood, and what it writes there is none of these letters:
    every other byte of a keyword, so every byte of a UTF-8 sequence of
    more than one byte, stays where it was, and the keywords keep their
    number and their lengths. *)
Theorem deen_keywords_adjust_overwrites_letters (ks : deen_keywords) :
  Forall2 overwrites ks (deen_keywords_adjust ks).1.
Proof.
  unfold deen_keywords_adjust. rewrite adjust_from_fst.
  apply Forall2_fmap_r, Forall_Forall2_diag, Forall_forall. intros k _.
  change (overwrites k (run_passes pass_table k false).1).
  apply run_passes_overwrites, pass_table_ok.
Qed.

(** ** More of the format check *)

Section check_refusals.

Lemma substring_split (s : string) (n : nat) :
  n ≤ String.length s →
  s = (String.substring 0 n s +:+ String.substring n (String.length s - n) s)%string.
Proof.
  revert n. induction s as [|c s IH]; intros [|n] Hn; simpl in *; try done; try lia.
  - change (String c s = String c (String.substring 0 (String.length s) s)).
    f_equal. clear. induction s as [|d s IH]; simpl; [done|]. by f_equal.
  - change (String c s = String c (String.substring 0 n s
                                     +:+ String.substring n (String.length s - n) s)).
    f_equal. apply IH. lia.
Qed.

Lemma substring_append_r (stem s : string) :
  String.substring (String.length stem) (String.length s) (stem +:+ s) = s.
Proof.
  induction stem as [|c stem IH]; [|exact IH].
  change (String.substring 0 (String.length s) s = s).
  induction s as [|d s IH]; simpl; [done|]. by f_equal.
Qed.

Lemma length_append (s1 s2 : string) :
  String.length (s1 +:+ s2) = String.length s1 + String.length s2.
Proof.
  induction s1 as [|c s1 IH]; [done|].
  change (S (String.length (s1 +:+ s2)) = S (String.length s1 + String.length s2)).
  by rewrite IH.
Qed.

Lemma ends_in_gz_iff (filename : string) :
  ends_in_gz filename = true
  ↔ ∃ stem, stem ≠ ""%string ∧ filename = (stem +:+ ".gz")%string.
Proof.
  unfold ends_in_gz. rewrite andb_true_iff, Nat.ltb_lt, bool_decide_eq_true. split.
  - intros [Hlen Hgz]. exists (String.substring 0 (String.length filename - 3) filename).
    split.
    + intros Hnil. apply (f_equal String.length) in Hnil.
      pose proof (substring_split filename (String.length filename - 3) ltac:(lia)) as Hs.
      apply (f_equal String.length) in Hs. rewrite length_append, Hnil in Hs.
      replace (String.length filename - (String.length filename - 3)) with 3 in Hs by lia.
      rewrite Hgz in Hs. simpl in Hs. lia.
    + pose proof (substring_split filename (String.length filename - 3) ltac:(lia)) as Hs.
      replace (String.length filename - (String.length filename - 3)) with 3 in Hs by lia.
      by rewrite Hgz in Hs.
  - intros (stem & Hne & ->). rewrite length_append. simpl. split.
    + destruct stem; [done|simpl; lia].
    + replace (String.length stem + 3 - 3) with (String.length stem) by lia.
      apply (substring_append_r stem ".gz").
Qed.

End check_refusals.

(** X7.  The results of [deen_install_check_for_ding_format] that do not
    depend on what the file holds, in the order the code decides them.  A
    name of more than three characters that ends in ".gz" is refused as
    compressed, whether or not the file exists (the name ".gz" itself is
    not); else a file that does not open is an I/O problem; else a file
    of fewer than 4096 bytes is too small, whatever its lines are. *)
Theorem deen_install_check_for_ding_format_refusals
    (fs : gmap string (list byte)) (filename : string) :
  (deen_install_check_for_ding_format fs filename = DEEN_INSTALL_CHECK_IS_COMPRESSED
   ↔ ∃ stem, stem ≠ ""%string ∧ filename = (stem +:+ ".gz")%string)
  ∧ (deen_install_check_for_ding_format fs filename = DEEN_INSTALL_CHECK_IO_PROBLEM
     ↔ ends_in_gz filename = false ∧ fs !! filename = None)
  ∧ (deen_install_check_for_ding_format fs filename = DEEN_INSTALL_CHECK_TOO_SMALL
     ↔ ends_in_gz filename = false
       ∧ ∃ content, fs !! filename = Some content
           ∧ length content < DEEN_SIZE_CHECK_DING_BUFFER).
Proof.
  rewrite <- ends_in_gz_iff. unfold deen_install_check_for_ding_format.
  destruct (ends_in_gz filename).
  { split_and!; (split; [done|]); try done; by intros [? _]. }
  destruct (fs !! filename) as [content|].
  2:{ split_and!; (split; [done|]); try done. by intros (_ & ? & ? & _). }
  cbv zeta. rewrite length_take. case_bool_decide as Hlen.
  { split_and!.
    - done.
    - split; [done|]. by intros [_ ?].
    - split; [|done]. intros _. split; [done|]. exists content. split; [done|lia]. }
  rewrite check_lines_first_significant by (rewrite length_take; lia).
  assert (∀ r, (let '(result, found_ok_line) :=
              match first_significant (take DEEN_SIZE_CHECK_DING_BUFFER content) with
              | Some line =>
                  match strstr_off (cstr line) (bytes "::") with
                  | Some _ => (DEEN_INSTALL_CHECK_OK, true)
                  | None => (DEEN_INSTALL_CHECK_BAD_FORMAT, false)
                  end
              | None => (DEEN_INSTALL_CHECK_OK, false)
              end in
            if bool_decide (result = DEEN_INSTALL_CHECK_OK) && negb found_ok_line
            then DEEN_INSTALL_CHECK_BAD_FORMAT else result) = r →
          r = DEEN_INSTALL_CHECK_OK ∨ r = DEEN_INSTALL_CHECK_BAD_FORMAT) as Hr.
  { intros r <-. destruct (first_significant _); [|by right].
    destruct (strstr_off _ _); [by left|by right]. }
  split_and!; (split; [intros Heq; destruct (Hr _ Heq); congruence|]).
  - done.
  - by intros [_ ?].
  - intros (_ & ? & [= <-] & ?). lia.
Qed.

(** ** The helpers of the install on files *)

Section install_files.
Context {common : Common}.

(** [deen_remove_fileobject], with what it does to the files. *)
Lemma total_remove_fileobject_files (env : environment) (filename : string) (w : world)
    (post : bool → world → Prop) :
  (∀ r w', same_but_fs w w' →
           (r = true ↔ fs w' !! filename = None ∨ env_stat_ok env filename = false) →
           (r = false → fs w' = fs w ∧ env_remove_succeeds env filename = false) →
           (env_stat_ok env filename = false → fs w' = fs w) →
           (env_remove_ok env filename = true → fs w' !! filename = None) →
           (∀ p, fs w' !! p = fs w !! p ∨ (p = filename ∧ fs w' !! p = None)) →
           post r w') →
  total (deen_remove_fileobject env filename) w post.
Proof.
  intros Hpost.
  unfold deen_remove_fileobject, deen_exists_fileobject, env_remove_ok in *.
  apply total_bind, total_gets.
  destruct (env_stat_ok env filename) eqn:Hstat; cbn [andb] in *.
  2:{ apply total_ret. apply Hpost; [done| |done|done|done|by left].
      split; [by right|done]. }
  case_bool_decide as Hex.
  - destruct (env_remove_succeeds env filename) eqn:Hrm.
    + apply total_bind, total_modify, total_ret. apply Hpost; [done| |done|done| |].
      * split; [intros _; left|done]. simpl. apply lookup_delete_eq.
      * intros _. simpl. apply lookup_delete_eq.
      * intros p. simpl. destruct (decide (p = filename)) as [->|Hne].
        -- right. split; [done|]. apply lookup_delete_eq.
        -- left. by apply lookup_delete_ne.
    + apply total_ret. apply Hpost; [done| |done|done|done|by left].
      split; [done|]. intros [Hnone|?]; [|done]. rewrite Hnone in Hex. by destruct Hex.
  - apply total_ret. apply Hpost; [done| |done|done| |by left].
    + split; [intros _; left|done]. by apply eq_None_not_Some.
    + intros _. by apply eq_None_not_Some.
Qed.

Lemma total_install_init_files (env : environment) (deen_root_dir : string) (w : world)
    (post : bool → world → Prop) :
  let index := (deen_root_dir +:+ DEEN_FILE_SEP +:+ DEEN_LEAF_INDEX)%string in
  let data := (deen_root_dir +:+ DEEN_FILE_SEP +:+ DEEN_LEAF_DING_DATA)%string in
  (∀ r w',
     same_but_fs w w' →
     (r = true →
      (fs w' !! index = None ∨ env_stat_ok env index = false)
      ∧ (fs w' !! data = None ∨ env_stat_ok env data = false)
      ∧ (deen_root_dir ≠ index → deen_root_dir ≠ data →
         is_Some (fs w' !! deen_root_dir))) →
     (∀ p, fs w' !! p = fs w !! p
           ∨ ((p = index ∨ p = data) ∧ fs w' !! p = None)
           ∨ (p = deen_root_dir ∧ fs w !! p = None ∧ fs w' !! p = Some [])) →
     post r w') →
  total (deen_install_init env deen_root_dir) w post.
Proof.
  intros index data Hpost. unfold deen_install_init, deen_remove_fileobject_in_root_dir.
  fold index data.
  apply total_bind. unfold deen_exists_fileobject at 1. apply total_gets.
  apply total_bind.
  assert (∀ (post1 : bool → world → Prop),
            (∀ r w1, same_but_fs w w1 →
                     (r = true → is_Some (fs w1 !! deen_root_dir)) →
                     (∀ p, fs w1 !! p = fs w !! p
                           ∨ (p = deen_root_dir ∧ fs w !! p = None
                              ∧ fs w1 !! p = Some [])) →
                     post1 r w1) →
            total (if env_stat_ok env deen_root_dir
                      && bool_decide (is_Some (fs w !! deen_root_dir))
                   then mret true else mkdir env deen_root_dir) w post1) as Hmk.
  { intros post1 Hp.
    destruct (env_stat_ok env deen_root_dir && _) eqn:Hex.
    { apply andb_prop in Hex as [_ Hex%bool_decide_eq_true_1].
      apply total_ret, Hp; by try left. }
    unfold mkdir. apply total_bind, total_gets.
    destruct (env_mkdir_ok env); cbn [andb]; [|apply total_ret, Hp; by try left].
    destruct (bool_decide (fs w !! deen_root_dir = None)) eqn:Habsent;
      [|apply total_ret, Hp; by try left].
    apply bool_decide_eq_true_1 in Habsent.
    apply total_bind, total_modify, total_ret. apply Hp; [done|..].
    - intros _. simpl. rewrite lookup_insert_eq. by eexists.
    - intros p. simpl. destruct (decide (p = deen_root_dir)) as [->|Hne].
      + right. by rewrite lookup_insert_eq.
      + left. by rewrite lookup_insert_ne. }
  apply Hmk. intros [|] w1 Hw1 Hroot1 Hfiles1.
  2:{ apply total_ret. apply Hpost; [done|done|].
      intros p. destruct (Hfiles1 p) as [?|?]; auto. }
  apply total_bind, total_remove_fileobject_files.
  intros [|] w2 Hw2 Hindex2 _ _ _ Hfiles2.
  2:{ apply total_ret. apply Hpost; [eauto using same_but_fs_trans|done|].
      intros p. destruct (Hfiles2 p) as [->|[-> ?]]; [|by auto].
      destruct (Hfiles1 p) as [?|?]; auto. }
  apply total_remove_fileobject_files. intros r w3 Hw3 Hdata3 _ _ _ Hfiles3.
  assert (∀ p, fs w3 !! p = fs w !! p
               ∨ ((p = index ∨ p = data) ∧ fs w3 !! p = None)
               ∨ (p = deen_root_dir ∧ fs w !! p = None ∧ fs w3 !! p = Some [])) as Hfiles.
  { intros p. destruct (Hfiles3 p) as [->|[-> ?]]; [|by auto].
    destruct (Hfiles2 p) as [->|[-> ?]]; [|by auto].
    destruct (Hfiles1 p) as [?|?]; auto. }
  apply Hpost; [eauto using same_but_fs_trans| |done].
  intros ->. split_and!.
  - destruct (proj1 Hindex2 eq_refl) as [Hnone|?]; [|by right].
    left. destruct (Hfiles3 index) as [->|[_ ?]]; done.
  - by apply Hdata3.
  - intros Hne1 Hne2.
    destruct (Hfiles3 deen_root_dir) as [->|[? _]]; [|done].
    destruct (Hfiles2 deen_root_dir) as [->|[? _]]; [|done]. by apply Hroot1.
Qed.

End install_files.

Section file_helpers.
Context {common : Common}.

(** X8.  [deen_remove_fileobject] answers true exactly when [stat] finds
    no object at the path when it returns: none was there, it was removed,
    or it is one that [stat] cannot examine, which is left as it is.  So a
    [deen_exists_fileobject] that follows answers the opposite.  When it
    answers false [remove] has failed and the files are as they were; and
    in no case is an object of another name touched. *)
Theorem deen_remove_fileobject_absent (env : environment) (filename : string) (w : world) :
  total (deen_remove_fileobject env filename) w (λ r w',
    same_but_fs w w'
    ∧ (r = true ↔ fs w' !! filename = None ∨ env_stat_ok env filename = false)
    ∧ deen_exists_fileobject env filename w' = Some (negb r, w')
    ∧ (r = false → fs w' = fs w ∧ env_remove_succeeds env filename = false)
    ∧ (env_stat_ok env filename = false → fs w' = fs w)
    ∧ ∀ other, other ≠ filename → fs w' !! other = fs w !! other).
Proof.
  apply total_remove_fileobject_files.
  intros r w' Hsame Htrue Hfalse Hhidden _ Hfiles.
  split_and!; [done..| | | |]; [|done|done|].
  - unfold deen_exists_fileobject, gets. do 2 f_equal. destruct r.
    + destruct (proj1 Htrue eq_refl) as [->| ->]; [|done].
      apply andb_false_intro2, bool_decide_eq_false_2. by intros [? ?].
    + destruct (env_stat_ok env filename) eqn:Hstat.
      * cbn [andb negb]. apply bool_decide_eq_true_2.
        destruct (fs w' !! filename) eqn:Hf; [by eexists|].
        assert (false = true); [|done]. apply Htrue. by left.
      * assert (false = true); [|done]. apply Htrue. by right.
  - intros other Hne. destruct (Hfiles other) as [?|[? _]]; done.
Qed.

(** X9.  When [deen_install_init] answers true, [stat] finds neither an
    index nor a data file of an earlier install under the root: each is
    gone, or is one that [stat] cannot examine.  So [deen_is_installed]
    answers false; and the root exists.  Whatever it answers, it touches
    no object but the root and these two. *)
Theorem deen_install_init_clears (env : environment) (deen_root_dir : string) (w : world) :
  let index := (deen_root_dir +:+ DEEN_FILE_SEP +:+ DEEN_LEAF_INDEX)%string in
  let data := (deen_root_dir +:+ DEEN_FILE_SEP +:+ DEEN_LEAF_DING_DATA)%string in
  total (deen_install_init env deen_root_dir) w (λ r w',
    same_but_fs w w'
    ∧ (r = true →
       (fs w' !! index = None ∨ env_stat_ok env index = false)
       ∧ (fs w' !! data = None ∨ env_stat_ok env data = false)
       ∧ deen_is_installed env deen_root_dir w' = Some (false, w')
       ∧ (deen_root_dir ≠ index → deen_root_dir ≠ data →
          is_Some (fs w' !! deen_root_dir)))
    ∧ ∀ other, other ≠ deen_root_dir → other ≠ index → other ≠ data →
               fs w' !! other = fs w !! other).
Proof.
  intros index data. apply total_install_init_files. fold index data.
  intros r w' Hsame Htrue Hfiles. split_and!; [done| |].
  - intros Hr. destruct (Htrue Hr) as (Hi & Hd & Hroot). split_and!; [done..| |done].
    unfold deen_is_installed, deen_exists_fileobject, gets. fold data.
    do 2 f_equal. destruct Hd as [-> | ->]; [|done].
    apply andb_false_intro2, bool_decide_eq_false_2. by intros [? ?].
  - intros other H1 H2 H3. destruct (Hfiles other) as [?|[[[?|?] _]|[? _]]]; done.
Qed.

End file_helpers.

(** ** More of the index callback *)

Section run_more.
Context {A : Type}.

Lemma total_and (m : M A) (w : world) (post1 post2 : A → world → Prop) :
  total m w post1 → total m w post2 → total m w (λ x w', post1 x w' ∧ post2 x w').
Proof.
  intros (x & w' & Hm & H1) H2. exists x, w'. split; [done|]. split; [done|].
  by eapply total_run.
Qed.

End run_more.

Section sort_more.
Context {A : Type} (cmp : A → A → Z) (R : relation A).
Hypothesis cmp_le : ∀ x y, (cmp x y ≤ 0)%Z → R x y.
Hypothesis cmp_gt : ∀ x y, (0 < cmp x y)%Z → R y x.
Hypothesis R_trans : ∀ x y z, R x y → R y z → R x z.

Lemma sort_insert_sorted (x : A) (l : list A) :
  StronglySorted R l → StronglySorted R (sort_insert cmp x l).
Proof.
  induction 1 as [|y l Hl IH Hy]; simpl; [by repeat constructor|].
  destruct (Z.leb_spec (cmp x y) 0) as [Hle|Hgt].
  - constructor; [by constructor|]. constructor; [by apply cmp_le|].
    eapply Forall_impl; [exact Hy|]. intros z Hz. eapply R_trans; [|exact Hz].
    by apply cmp_le.
  - constructor; [done|]. rewrite sort_insert_perm.
    constructor; [by apply cmp_gt|done].
Qed.

Lemma qsort_sorted (l : list A) : StronglySorted R (qsort cmp l).
Proof.
  induction l as [|x l IH]; simpl; [constructor|]. by apply sort_insert_sorted.
Qed.

End sort_more.

(** ** The prefixes of a ref *)
Section bag_sorted.

Lemma prefix_lt_iff (a b : list byte) : prefix_lt a b ↔ lex_le a b ∧ a ≠ b.
Proof.
  unfold prefix_lt, deen_index_prefix_compare.
  rewrite <- strcmp_le, <- (strcmp_eq a b). lia.
Qed.

Lemma sorted_lt_NoDup (l : list (list byte)) : StronglySorted prefix_lt l → NoDup l.
Proof.
  induction 1 as [|x l Hl IH Hx]; constructor; [|done].
  intros Hin. rewrite Forall_forall in Hx. apply Hx, prefix_lt_iff in Hin as [_ ?]. done.
Qed.

Lemma sorted_le_lt (l : list (list byte)) :
  StronglySorted lex_le l → NoDup l → StronglySorted prefix_lt l.
Proof.
  induction 1 as [|x l Hl IH Hx]; intros Hnd; [constructor|].
  apply NoDup_cons in Hnd as [Hx' Hnd]. constructor; [by apply IH|].
  rewrite Forall_forall in *. intros y Hy. apply prefix_lt_iff. split; [by apply Hx|].
  by intros ->.
Qed.

Lemma add_prefix_to_context_bag_eq (c : deen_index_context) (s : list byte) (len : nat) :
  context_ok c →
  bag (deen_index_add_prefix_to_context c s len)
  = qsort deen_index_prefix_compare (bag c ++ [take len s]).
Proof.
  intros [Hcount Halloc]. unfold deen_index_add_prefix_to_context.
  set (ext := if decide (prefix_count c = prefix_count_allocated c)
              then (S (prefix_count_allocated c), prefixes c ++ [[]])
              else (prefix_count_allocated c, prefixes c)).
  assert (ext.1 = length ext.2 ∧ prefix_count c < length ext.2
          ∧ take (prefix_count c) ext.2 = bag c) as (Hext & Hlt & Htake).
  { unfold ext, bag. case_decide; simpl.
    - rewrite length_app. simpl. split_and!; [lia..|]. by rewrite take_app_le by lia.
    - split_and!; [lia..|done]. }
  destruct ext as [allocated slots]. simpl in *.
  set (slots1 := <[prefix_count c := take len s]> slots).
  assert (take (S (prefix_count c)) slots1 = bag c ++ [take len s]) as Hslots1.
  { unfold slots1. erewrite take_S_r; [|by apply list_lookup_insert_eq].
    by rewrite take_insert_ge, Htake by lia. }
  assert (length (qsort deen_index_prefix_compare (take (S (prefix_count c)) slots1))
          = S (prefix_count c)) as Hlen.
  { rewrite qsort_perm, length_take. unfold slots1. rewrite length_insert. lia. }
  unfold bag. simpl. rewrite take_app_length' by done. by rewrite Hslots1.
Qed.

Lemma add_prefix_to_context_if_not_present_sorted (c : deen_index_context)
    (s : list byte) :
  context_ok c → StronglySorted prefix_lt (bag c) →
  StronglySorted prefix_lt
    (bag (deen_index_add_prefix_to_context_if_not_present c s (length s)))
  ∧ (s ∈ bag c → deen_index_add_prefix_to_context_if_not_present c s (length s) = c).
Proof.
  intros Hok Hsorted. unfold deen_index_add_prefix_to_context_if_not_present.
  assert (s ∉ bag c →
          StronglySorted prefix_lt (bag (deen_index_add_prefix_to_context c s (length s))))
    as Hadd.
  { intros Hnot. rewrite add_prefix_to_context_bag_eq, firstn_all by done.
    apply sorted_le_lt.
    - apply (qsort_sorted deen_index_prefix_compare lex_le).
      + intros x y. apply strcmp_le.
      + intros x y. apply strcmp_gt.
      + apply lex_le_trans.
    - rewrite qsort_perm. apply NoDup_app. split_and!.
      + by apply sorted_lt_NoDup.
      + intros x Hx ->%list_elem_of_singleton. done.
      + apply NoDup_singleton. }
  case_decide as Hcount.
  - assert (bag c = []) as Hnil by (unfold bag; by rewrite Hcount).
    split; [apply Hadd|]; rewrite Hnil; by intros ?%elem_of_nil.
  - fold (bag c).
    destruct (bsearch deen_index_prefix_compare s (bag c)) as [found|] eqn:Hb.
    + done.
    + apply (bsearch_None deen_index_prefix_compare strcmp_eq) in Hb.
      split; [by apply Hadd|done].
Qed.

End bag_sorted.

(** X10.  [deen_index_add_prefix_to_context_if_not_present] keeps the prefixes
    of a ref sorted by [strcmp] and free of duplicates, within the slots
    allocated: the prefixes after the call are those before it and the
    new one; a prefix that is there already leaves the context as it is,
    so that adding a prefix twice is adding it once. *)
Theorem deen_index_add_prefix_to_context_if_not_present_set
    (context : deen_index_context) (s : list byte) :
  context_ok context → StronglySorted prefix_lt (bag context) →
  let context' :=
    deen_index_add_prefix_to_context_if_not_present context s (length s) in
  context_ok context'
  ∧ StronglySorted prefix_lt (bag context')
  ∧ (∀ p, p ∈ bag context' ↔ p = s ∨ p ∈ bag context)
  ∧ (s ∈ bag context → context' = context)
  ∧ deen_index_add_prefix_to_context_if_not_present context' s (length s) = context'.
Proof.
  intros Hok Hsorted context'.
  destruct (add_prefix_to_context_if_not_present_bag context s Hok) as (Hok' & Hperm & _).
  destruct (add_prefix_to_context_if_not_present_sorted context s Hok Hsorted)
    as [Hsorted' Hsame].
  fold context' in Hok', Hperm, Hsorted', Hsame.
  assert (∀ p, p ∈ bag context' ↔ p = s ∨ p ∈ bag context) as Hmem.
  { intros p. rewrite Hperm. case_decide as Hin.
    - split; [by right|]. by intros [->|?].
    - rewrite elem_of_app, list_elem_of_singleton. tauto. }
  split_and!; [done..|].
  apply (add_prefix_to_context_if_not_present_sorted context' s Hok' Hsorted').
  apply Hmem. by left.
Qed.

Section bag_slots.

(** X11.  [deen_index_add_prefix_to_context] adds the prefix whether or not it
    is there already, and leaves the prefixes of the ref sorted by
    [strcmp].  It takes a new slot only when every slot is in use, so
    that the slots, which a flush does not give back, are as many as the
    most prefixes that a ref has had. *)
Theorem deen_index_add_prefix_to_context_slots
    (context : deen_index_context) (s : list byte) (len : nat) :
  context_ok context →
  let context' := deen_index_add_prefix_to_context context s len in
  context_ok context'
  ∧ prefix_count context' = S (prefix_count context)
  ∧ prefix_count_allocated context'
    = prefix_count_allocated context `max` S (prefix_count context)
  ∧ bag context' ≡ₚ bag context ++ [take len s]
  ∧ StronglySorted lex_le (bag context').
Proof.
  intros Hok context'.
  destruct (add_prefix_to_context_bag context s len Hok) as (Hok' & Hperm & _).
  split_and!; [done| | |done|].
  - unfold context', deen_index_add_prefix_to_context. by case_decide.
  - destruct Hok as [Hcount _].
    unfold context', deen_index_add_prefix_to_context. case_decide; simpl; lia.
  - unfold context'. rewrite add_prefix_to_context_bag_eq by done.
    apply (qsort_sorted deen_index_prefix_compare lex_le).
    + intros x y. apply strcmp_le.
    + intros x y. apply strcmp_gt.
    + apply lex_le_trans.
Qed.

End bag_slots.

(** ** The rows an indexing run hands to the index *)
Section index_rows.
Context {common : Common}.

Lemma sorted_bag_at_ref (ref : Z) (c : deen_index_context) :
  StronglySorted prefix_lt (bag c) → StronglySorted prefix_lt (bag_at_ref ref c).
Proof. unfold bag_at_ref. case_decide; [constructor|done]. Qed.

Lemma total_index_callback_word_sorted (s : list byte) (c : deen_index_context)
    (w : world) (f : deen_is_cancelled_cb) :
  is_cancelled_cb c = Some f → context_ok c → StronglySorted prefix_lt (bag c) →
  total (index_callback_word s (length s) c) w
    (λ r _, StronglySorted prefix_lt (bag r.2)).
Proof.
  intros Hf Hok Hsorted. unfold index_callback_word. rewrite !firstn_all.
  case_decide as Hmin; [|by apply total_ret].
  rewrite Hf. apply total_bind, total_call_is_cancelled.
  destruct (f (length (polls w))); [by apply total_ret|].
  cbv zeta.
  destruct (deen_is_common_upper_word (take (length s) (deen_to_upper s)));
    [by apply total_ret|].
  cbn [negb].
  destruct (deen_utf8_crop_to_unicode_len (take (length s) (deen_to_upper s))
              DEEN_INDEXING_DEPTH) as [cropped unicode_length].
  case_decide; apply total_ret; [|done].
  unfold strlen. by apply add_prefix_to_context_if_not_present_sorted.
Qed.

Lemma total_index_callback_sorted (s : list byte) (ref : Z) (progress : Q)
    (c : deen_index_context) (w : world)
    (f : deen_is_cancelled_cb) (g : deen_install_progress_cb) :
  is_cancelled_cb c = Some f → progress_cb c = Some g →
  context_ok c → StronglySorted prefix_lt (bag c) →
  total (deen_index_callback s (length s) ref progress c) w
    (λ r _, StronglySorted prefix_lt (bag r.2)).
Proof.
  intros Hf Hg Hok Hsorted. unfold deen_index_callback.
  apply total_bind. apply (total_index_callback_new_ref _ _ _ _ g); [exact Hg|].
  intros c1 w1 Hc1 Hp1 Hr1 Hok1 Hbag1 Hfs1 Hpolls1 Hev1.
  apply (total_index_callback_word_sorted _ _ _ f); [congruence|by apply Hok1|].
  rewrite Hbag1. by apply sorted_bag_at_ref.
Qed.

(** What a call of the callback tells the index and the progress
    callback. *)
Lemma total_index_callback_rows (s : list byte) (ref : Z) (progress : Q)
    (c : deen_index_context) (w : world)
    (f : deen_is_cancelled_cb) (g : deen_install_progress_cb) :
  is_cancelled_cb c = Some f → progress_cb c = Some g →
  total (deen_index_callback s (length s) ref progress c) w (λ r w',
    index_rows w'
    = index_rows w ++ (if decide (current_ref c ≠ ref ∧ prefix_count c ≠ 0)
                       then [(current_ref c, bag c)] else [])
    ∧ db_initialised w' = db_initialised w
    ∧ ∃ reports,
        events w' = events w ++ indexing_reports reports
        ∧ percent_changes (lastprogress c) reports
        ∧ lastprogress r.2 = List.last reports (lastprogress c)).
Proof.
  intros Hf Hg.
  assert (∀ c1 w1, is_cancelled_cb c1 = Some f →
            total (index_callback_word s (length s) c1) w1 (λ r w',
              index_rows w' = index_rows w1 ∧ db_initialised w' = db_initialised w1
              ∧ events w' = events w1 ∧ lastprogress r.2 = lastprogress c1)) as Hword.
  { intros c1 w1 Hf1. unfold index_callback_word. rewrite !firstn_all.
    case_decide as Hmin; [|by apply total_ret].
    rewrite Hf1. apply total_bind, total_call_is_cancelled.
    destruct (f (length (polls w1))); [by apply total_ret|].
    cbv zeta.
    destruct (deen_is_common_upper_word (take (length s) (deen_to_upper s)));
      [by apply total_ret|].
    cbn [negb].
    destruct (deen_utf8_crop_to_unicode_len (take (length s) (deen_to_upper s))
                DEEN_INDEXING_DEPTH) as [cropped unicode_length].
    case_decide; apply total_ret; [|done].
    split_and!; [done..|].
    unfold deen_index_add_prefix_to_context_if_not_present,
      deen_index_add_prefix_to_context.
    repeat (case_decide || case_match); done. }
  unfold deen_index_callback. apply total_bind.
  unfold index_callback_new_ref. case_decide as Href.
  - apply total_bind. unfold deen_index_flush_context_prefixes_to_index.
    assert (∀ c1 w1 rows,
              is_cancelled_cb c1 = Some f → progress_cb c1 = Some g →
              lastprogress c1 = lastprogress c →
              index_rows w1 = index_rows w ++ rows →
              db_initialised w1 = db_initialised w → events w1 = events w →
              total
                (let context2 := set_progress ref (lastprogress c1) c1 in
                 let last_percent := percent (lastprogress context2) in
                 let percent0 := percent progress in
                 if decide (percent0 ≠ last_percent)
                 then call_progress (progress_cb context2) DEEN_INSTALL_STATE_INDEXING
                        progress ≫= λ _, mret (set_progress ref progress context2)
                 else mret context2) w1
                (λ c2 w2,
                   total (index_callback_word s (length s) c2) w2 (λ r w',
                     index_rows w' = index_rows w ++ rows
                     ∧ db_initialised w' = db_initialised w
                     ∧ ∃ reports,
                         events w' = events w ++ indexing_reports reports
                         ∧ percent_changes (lastprogress c) reports
                         ∧ lastprogress r.2 = List.last reports (lastprogress c))))
      as Hrest.
    { intros c1 w1 rows Hf1 Hg1 Hl1 Hrows1 Hdb1 Hev1. cbv zeta. simpl.
      case_decide as Hpercent.
      - rewrite Hg1. apply total_bind, total_call_progress, total_ret.
        eapply total_mono; [by apply Hword|].
        intros r w' (Hrows & Hdb & Hev & Hlast). simpl in *.
        split_and!; [congruence..|]. exists [progress]. simpl.
        split_and!; [by rewrite Hev, Hev1|by rewrite <- Hl1|done..].
      - apply total_ret. eapply total_mono; [by apply Hword|].
        intros r w' (Hrows & Hdb & Hev & Hlast). simpl in *.
        split_and!; [congruence..|]. exists []. simpl.
        rewrite app_nil_r. split_and!; [congruence|done|congruence]. }
    case_decide as Hcount.
    + apply total_bind, total_modify, total_ret.
      rewrite (decide_True (P := current_ref c ≠ ref ∧ prefix_count c ≠ 0)) by done.
      by apply Hrest.
    + apply total_ret.
      rewrite (decide_False (P := current_ref c ≠ ref ∧ prefix_count c ≠ 0)) by tauto.
      apply Hrest; try done. by rewrite app_nil_r.
  - apply total_ret. eapply total_mono; [by apply Hword|].
    intros r w' (Hrows & Hdb & Hev & Hlast).
    rewrite (decide_False (P := current_ref c ≠ ref ∧ prefix_count c ≠ 0)) by tauto.
    rewrite app_nil_r.
    split_and!; [done..|]. exists []. simpl. rewrite app_nil_r. done.
Qed.

End index_rows.

Section index_run.
Context {common : Common}.

Lemma percent_changes_app (last : Q) (reports1 reports2 : list Q) :
  percent_changes last (reports1 ++ reports2)
  ↔ percent_changes last reports1
    ∧ percent_changes (List.last reports1 last) reports2.
Proof.
  revert last. induction reports1 as [|p reports1 IH]; intros last.
  - simpl. tauto.
  - cbn [app percent_changes]. rewrite IH.
    replace (List.last (p :: reports1) last) with (List.last reports1 p); [tauto|].
    clear. revert p. induction reports1 as [|q reports1 IH]; intros p; [done|].
    simpl. by destruct reports1.
Qed.

Lemma last_app_last (last : Q) (reports1 reports2 : list Q) :
  List.last (reports1 ++ reports2) last = List.last reports2 (List.last reports1 last).
Proof.
  destruct reports2 as [|q reports2 _] using rev_ind.
  - by rewrite app_nil_r.
  - by rewrite app_assoc, !List.last_last.
Qed.

Lemma prefixes_of_words_mono (words words' : list (list byte * Z * Q)) (ref : Z)
    (ps : list (list byte)) :
  words ⊆ words' → prefixes_of_words words ref ps → prefixes_of_words words' ref ps.
Proof.
  intros Hsub Hps p Hp. destruct (Hps p Hp) as (s & progress & Hin & ?).
  exists s, progress. split; [by apply Hsub|done].
Qed.

Lemma row_from_mono (words words' : list (list byte * Z * Q))
    (row : Z * list (list byte)) :
  words ⊆ words' → row_from words row → row_from words' row.
Proof.
  intros Hsub (? & ? & ?). split_and!; [done..|]. by eapply prefixes_of_words_mono.
Qed.

Lemma run_inv_mono (words words' : list (list byte * Z * Q)) (c : deen_index_context) :
  words ⊆ words' → run_inv words c → run_inv words' c.
Proof.
  intros Hsub (? & ? & ?). split_and!; [done..|]. by eapply prefixes_of_words_mono.
Qed.

Lemma word_in_rows_app (rows rows' : list (Z * list (list byte)))
    (word : list byte * Z * Q) :
  word_in_rows rows word ∨ word_in_rows rows' word → word_in_rows (rows ++ rows') word.
Proof.
  intros [(ps & ? & ?)|(ps & ? & ?)]; exists ps; (split; [|done]);
    apply elem_of_app; auto.
Qed.

Lemma bag_nonempty (c : deen_index_context) :
  context_ok c → prefix_count c ≠ 0 → bag c ≠ [].
Proof.
  intros [Hcount Halloc] Hne Hnil. apply (f_equal length) in Hnil.
  unfold bag in Hnil. rewrite length_take in Hnil. simpl in Hnil. lia.
Qed.

Lemma bag_empty (c : deen_index_context) : prefix_count c = 0 → bag c = [].
Proof. intros Hz. unfold bag. by rewrite Hz. Qed.

(** The row a flush writes. *)
Lemma flushed_row (seen : list (list byte * Z * Q)) (c : deen_index_context)
    (P : Prop) `{Decision P} :
  run_inv seen c →
  Forall (row_from seen)
    (if decide (P ∧ prefix_count c ≠ 0) then [(current_ref c, bag c)] else []).
Proof.
  intros (Hok & Hsorted & Hps). case_decide as Hd; [|constructor].
  constructor; [|constructor]. split_and!; [|done..].
  apply bag_nonempty; tauto.
Qed.

(** One call of the callback, in a run. *)
Lemma index_callback_step (s : list byte) (ref : Z) (progress : Q)
    (c : deen_index_context) (w : world)
    (f : deen_is_cancelled_cb) (g : deen_install_progress_cb)
    (seen : list (list byte * Z * Q)) :
  is_cancelled_cb c = Some f → progress_cb c = Some g → run_inv seen c →
  total (deen_index_callback s (length s) ref progress c) w (λ r w',
    is_cancelled_cb r.2 = Some f ∧ progress_cb r.2 = Some g
    ∧ run_inv (seen ++ [(s, ref, progress)]) r.2
    ∧ fs w' = fs w ∧ db_initialised w' = db_initialised w
    ∧ (∃ rows, index_rows w' = index_rows w ++ rows
         ∧ Forall (row_from seen) rows
         ∧ ∀ word, word_in_bag c word → word_in_rows rows word ∨ word_in_bag r.2 word)
    ∧ (r.1 = true → indexable s → word_in_bag r.2 (s, ref, progress))
    ∧ (∃ reports,
         events w' = events w ++ indexing_reports reports
         ∧ percent_changes (lastprogress c) reports
         ∧ lastprogress r.2 = List.last reports (lastprogress c))).
Proof.
  intros Hf Hg Hinv. pose proof Hinv as (Hok & Hsorted & Hps).
  eapply total_mono.
  { apply total_and; [apply total_and|].
    - by apply (total_index_callback s ref progress c w f g).
    - by apply (total_index_callback_sorted s ref progress c w f g).
    - by apply (total_index_callback_rows s ref progress c w f g). }
  intros [continue c'] w'
    [[(Hf' & Hg' & Hr' & Hok' & Hfs & _ & _ & Hcont & Hbag) Hsorted']
     (Hrows & Hdb & Hreports)].
  cbn [fst snd] in *. specialize (Hok' Hok).
  fold (word_upper s) in Hbag. fold (word_prefix s) in Hbag.
  assert (∀ p, p ∈ bag_at_ref ref c → current_ref c = ref ∧ p ∈ bag c) as Hat.
  { intros p. unfold bag_at_ref.
    destruct (decide (current_ref c ≠ ref)) as [Hne|Hne]; [by intros ?%elem_of_nil|].
    intros Hp. split; [|done]. by destruct (decide (current_ref c = ref)). }
  assert (∀ p, p ∈ bag c' →
               (current_ref c = ref ∧ p ∈ bag c)
               ∨ (p = word_prefix s ∧ indexable s)) as Hfrom.
  { intros p Hp.
    match type of Hbag with
    | if decide ?P then _ else _ => destruct (decide P) as [Hd|Hd]
    end.
    - rewrite (Hbag Hok) in Hp. destruct Hd as (? & _ & ? & ?).
      destruct (decide (word_prefix s ∈ bag_at_ref ref c)); [left; by apply Hat|].
      apply elem_of_app in Hp as [Hp|Hp]; [left; by apply Hat|].
      apply list_elem_of_singleton in Hp as ->. right. done.
    - rewrite Hbag in Hp. left. by apply Hat. }
  assert (current_ref c = ref → ∀ p, p ∈ bag c → p ∈ bag c') as Hkeep.
  { intros Href p Hp.
    assert (p ∈ bag_at_ref ref c) as Hp'.
    { unfold bag_at_ref. by rewrite decide_False by (by intros ?). }
    match type of Hbag with
    | if decide ?P then _ else _ => destruct (decide P) as [Hd|Hd]
    end; [|by rewrite Hbag].
    rewrite (Hbag Hok).
    destruct (decide (word_prefix s ∈ bag_at_ref ref c)); [done|].
    apply elem_of_app. by left. }
  split_and!; [done..| |done|done| | |done].
  - split_and!; [done..|]. rewrite Hr'. intros p Hp.
    destruct (Hfrom p Hp) as [[Href Hin]|[-> Hidx]].
    + destruct (Hps p Hin) as (s0 & progress0 & Hin0 & ?).
      exists s0, progress0. split; [|done]. rewrite <- Href.
      apply elem_of_app. by left.
    + exists s, progress. split; [|done]. apply elem_of_app. right. left.
  - eexists. split; [exact Hrows|]. split; [by apply flushed_row|].
    intros word [Hwref Hwin]. destruct (decide (current_ref c = ref)) as [Href|Href].
    + right. split; [congruence|by apply Hkeep].
    + left. exists (bag c). split; [|done]. rewrite decide_True.
      * rewrite Hwref. left.
      * split; [done|]. intros Hz. rewrite (bag_empty c Hz) in Hwin.
        by apply elem_of_nil in Hwin.
  - intros -> (Hmin & Hcommon & Hcrop). split; [done|]. simpl.
    assert (f (length (polls w)) = false) as Hpoll.
    { destruct (f (length (polls w))) eqn:E; [|done].
      destruct Hcont as [_ Hcont]. by discriminate Hcont. }
    rewrite decide_True in Hbag by done. rewrite (Hbag Hok).
    destruct (decide (word_prefix s ∈ bag_at_ref ref c)) as [Hin|Hin].
    + apply Hat in Hin as [Href Hin]. unfold bag_at_ref.
      by rewrite decide_False by (by intros ?).
    + apply elem_of_app. right. left.
Qed.

(** A run of the tokenizer with the callback. *)
Lemma for_each_word_index (f : deen_is_cancelled_cb) (g : deen_install_progress_cb)
    (todo seen : list (list byte * Z * Q)) (c : deen_index_context) (w : world) :
  is_cancelled_cb c = Some f → progress_cb c = Some g → run_inv seen c →
  total (for_each_word todo deen_index_callback c) w (λ r w',
    run_inv (seen ++ todo) r.2
    ∧ fs w' = fs w ∧ db_initialised w' = db_initialised w
    ∧ (∃ rows, index_rows w' = index_rows w ++ rows
         ∧ Forall (row_from (seen ++ todo)) rows
         ∧ (∀ word, word_in_bag c word → word_in_rows rows word ∨ word_in_bag r.2 word)
         ∧ (r.1 = true →
            ∀ word, word ∈ todo → indexable word.1.1 →
                    word_in_rows rows word ∨ word_in_bag r.2 word))
    ∧ (∃ reports,
         events w' = events w ++ indexing_reports reports
         ∧ percent_changes (lastprogress c) reports
         ∧ lastprogress r.2 = List.last reports (lastprogress c))).
Proof.
  revert seen c w. induction todo as [|[[s ref] progress] todo IH];
    intros seen c w Hf Hg Hinv; simpl.
  { apply total_ret. rewrite app_nil_r. split_and!; [done..| |].
    - exists []. rewrite app_nil_r. split_and!; [done|constructor|by right|].
      by intros _ word ?%elem_of_nil.
    - exists []. simpl. by rewrite app_nil_r. }
  apply total_bind. eapply total_mono; [by apply (index_callback_step s ref progress c w f g seen)|].
  intros [continue c1] w1
    (Hf1 & Hg1 & Hinv1 & Hfs1 & Hdb1 & (rows1 & Hrows1 & Hall1 & Hcov1) & Hnew1
     & (reports1 & Hev1 & Hpc1 & Hlast1)).
  cbn [fst snd] in *.
  assert (seen ⊆ seen ++ (s, ref, progress) :: todo) as Hsub0.
  { intros x Hx. apply elem_of_app. by left. }
  assert (seen ++ [(s, ref, progress)] ⊆ seen ++ (s, ref, progress) :: todo) as Hsub1.
  { intros x [Hx|Hx%list_elem_of_singleton]%elem_of_app; apply elem_of_app;
      [by left|right]. subst x. left. }
  destruct continue.
  - eapply total_mono; [by apply (IH (seen ++ [(s, ref, progress)]) c1 w1)|].
    intros [ok c2] w2
      (Hinv2 & Hfs2 & Hdb2 & (rows2 & Hrows2 & Hall2 & Hcov2 & Hdone2)
       & (reports2 & Hev2 & Hpc2 & Hlast2)).
    cbn [fst snd] in *. rewrite <- app_assoc in *. cbn [app] in *.
    split_and!; [done|congruence|congruence| |].
    + exists (rows1 ++ rows2). split_and!.
      * by rewrite Hrows2, Hrows1, app_assoc.
      * apply Forall_app. split; [|done].
        eapply Forall_impl; [exact Hall1|]. intros row. by apply row_from_mono.
      * intros word Hword. destruct (Hcov1 word Hword) as [?|Hin1].
        -- left. apply word_in_rows_app. by left.
        -- destruct (Hcov2 word Hin1) as [?|?]; [left|by right].
           apply word_in_rows_app. by right.
      * intros -> word [->|Hin]%elem_of_cons Hidx.
        -- destruct (Hcov2 _ (Hnew1 eq_refl Hidx)) as [?|?]; [left|by right].
           apply word_in_rows_app. by right.
        -- destruct (Hdone2 eq_refl word Hin Hidx) as [?|?]; [left|by right].
           apply word_in_rows_app. by right.
    + exists (reports1 ++ reports2). split_and!.
      * rewrite Hev2, Hev1. unfold indexing_reports. by rewrite fmap_app, app_assoc.
      * apply percent_changes_app. split; [done|]. by rewrite <- Hlast1.
      * by rewrite Hlast2, Hlast1, last_app_last.
  - apply total_ret. cbn [fst snd].
    split_and!; [by eapply run_inv_mono|done|done| |].
    + exists rows1. split_and!; [done| |done|done].
      eapply Forall_impl; [exact Hall1|]. intros row. by apply row_from_mono.
    + by exists reports1.
Qed.

End index_run.

Section index_block.
Context {common : Common}.

(** The indexing block of the install: what it leaves in the index, and
    what it tells the progress callback. *)
Lemma total_install_index_rows (f : deen_is_cancelled_cb) (g : deen_install_progress_cb)
    (env : environment) (fd_data : option (list byte)) (is_error : bool) (w : world) :
  total (install_index env fd_data (Some g) (Some f) is_error) w (λ is_error' w',
    fs w' = fs w ∧ db_initialised w' = db_initialised w
    ∧ ∃ rows reports (raised : bool),
        index_rows w' = index_rows w ++ rows
        ∧ Forall (row_from (deen_file_words (default [] fd_data))) rows
        ∧ (raised = false →
           ∀ word, word ∈ deen_file_words (default [] fd_data) →
                   indexable word.1.1 → word_in_rows rows word)
        ∧ events w' = events w ++ indexing_reports reports
                      ++ (if raised then [(DEEN_INSTALL_STATE_ERROR, 0%Q)] else [])
        ∧ percent_changes (-1) reports
        ∧ is_error' = is_error || raised).
Proof.
  unfold install_index, deen_for_each_word_from_file.
  set (words := deen_file_words (default [] fd_data)).
  fold (initial_context (Some g) (Some f)).
  assert (run_inv [] (initial_context (Some g) (Some f))) as Hinit.
  { split_and!; [done|constructor|]. by intros p ?%elem_of_nil. }
  assert (∀ todo (ok : bool) (c : deen_index_context) (w1 : world) rows reports,
            todo ⊆ words →
            run_inv todo c → fs w1 = fs w → db_initialised w1 = db_initialised w →
            index_rows w1 = index_rows w ++ rows → Forall (row_from todo) rows →
            (ok = true → ∀ word, word ∈ words → indexable word.1.1 →
                         word_in_rows rows word ∨ word_in_bag c word) →
            events w1 = events w ++ indexing_reports reports →
            percent_changes (-1) reports →
            total ((if ok then mret is_error else DEEN_INSTALL_RAISE_ERROR (Some g))
                   ≫= λ is_error0,
                        deen_index_flush_context_prefixes_to_index c
                        ≫= λ _, mret is_error0) w1
              (λ is_error' w',
                 fs w' = fs w ∧ db_initialised w' = db_initialised w
                 ∧ ∃ rows reports (raised : bool),
                     index_rows w' = index_rows w ++ rows
                     ∧ Forall (row_from words) rows
                     ∧ (raised = false →
                        ∀ word, word ∈ words → indexable word.1.1 →
                                word_in_rows rows word)
                     ∧ events w' = events w ++ indexing_reports reports
                         ++ (if raised then [(DEEN_INSTALL_STATE_ERROR, 0%Q)] else [])
                     ∧ percent_changes (-1) reports
                     ∧ is_error' = is_error || raised)) as Hrest.
  { intros todo ok c w1 rows reports Hsub Hinv Hfs Hdb Hrows Hall Hcov Hev Hpc.
    assert (∀ (e' : bool) w2,
              fs w2 = fs w → db_initialised w2 = db_initialised w →
              index_rows w2 = index_rows w ++ rows →
              total (deen_index_flush_context_prefixes_to_index c ≫= λ _, mret e') w2
                (λ is_error' w',
                   is_error' = e' ∧ fs w' = fs w ∧ db_initialised w' = db_initialised w
                   ∧ events w' = events w2
                   ∧ ∃ rows, index_rows w' = index_rows w ++ rows
                       ∧ Forall (row_from words) rows
                       ∧ (ok = true → ∀ word, word ∈ words → indexable word.1.1 →
                                      word_in_rows rows word))) as Hflush.
    { intros e' w2 Hfs2 Hdb2 Hrows2.
      unfold deen_index_flush_context_prefixes_to_index.
      assert (Forall (row_from words) rows) as Hall'.
      { eapply Forall_impl; [exact Hall|]. intros row. by apply row_from_mono. }
      case_decide as Hcount.
      - apply total_bind, total_bind, total_modify, total_ret, total_ret.
        split_and!; [done..|]. exists (rows ++ [(current_ref c, bag c)]). simpl.
        split_and!.
        + by rewrite Hrows2, app_assoc.
        + apply Forall_app. split; [done|].
          pose proof (flushed_row todo c True Hinv) as Hrow.
          rewrite decide_True in Hrow by done.
          eapply Forall_impl; [exact Hrow|]. intros row. by apply row_from_mono.
        + intros Hok word Hword Hidx. apply word_in_rows_app.
          destruct (Hcov Hok word Hword Hidx) as [?|[Href Hin]]; [by left|right].
          exists (bag c). split; [|done]. rewrite Href. left.
      - apply total_bind, total_ret, total_ret. split_and!; [done..|].
        exists rows. split_and!; [done..|].
        intros Hok word Hword Hidx.
        destruct (Hcov Hok word Hword Hidx) as [?|[Href Hin]]; [done|].
        rewrite bag_empty in Hin by lia. by apply elem_of_nil in Hin. }
    apply total_bind. destruct ok.
    - apply total_ret. eapply total_mono; [by apply Hflush|].
      intros e' w' (-> & Hfs' & Hdb' & Hev' & rows' & Hrows' & Hall' & Hcov').
      split_and!; [done..|]. exists rows', reports, false.
      rewrite app_nil_r, orb_false_r. split_and!; [done..| |congruence|done|done].
      intros _. by apply Hcov'.
    - unfold DEEN_INSTALL_RAISE_ERROR.
      apply total_bind, total_call_progress, total_ret.
      eapply total_mono; [by apply Hflush|].
      intros e' w' (-> & Hfs' & Hdb' & Hev' & rows' & Hrows' & Hall' & Hcov').
      split_and!; [done..|]. exists rows', reports, true.
      rewrite orb_true_r. split_and!; [done..| | |done|done].
      + by intros ?.
      + rewrite Hev'. simpl. rewrite Hev. by rewrite <- app_assoc. }
  assert (∀ todo, todo ⊆ words →
            total (for_each_word todo deen_index_callback
                     (initial_context (Some g) (Some f))) w
              (λ r w1,
                 ∃ rows reports,
                   run_inv todo r.2 ∧ fs w1 = fs w ∧ db_initialised w1 = db_initialised w
                   ∧ index_rows w1 = index_rows w ++ rows ∧ Forall (row_from todo) rows
                   ∧ (r.1 = true → ∀ word, word ∈ todo → indexable word.1.1 →
                                   word_in_rows rows word ∨ word_in_bag r.2 word)
                   ∧ events w1 = events w ++ indexing_reports reports
                   ∧ percent_changes (-1) reports)) as Hwords.
  { intros todo Hsub.
    eapply total_mono; [by apply (for_each_word_index f g todo [] _ w)|].
    intros r w1 (Hinv & Hfs & Hdb & (rows & Hrows & Hall & _ & Hcov)
                 & (reports & Hev & Hpc & _)).
    exists rows, reports. done. }
  apply total_bind.
  destruct (env_read_fails_after env) as [n|].
  - apply total_bind. eapply total_mono; [apply (Hwords (take n words))|].
    { apply subseteq_take. }
    intros [ok c] w1 (rows & reports & Hinv & Hfs & Hdb & Hrows & Hall & _ & Hev & Hpc).
    apply total_ret. apply (Hrest (take n words) false c w1 rows reports); try done.
    apply subseteq_take.
  - eapply total_mono; [by apply (Hwords words)|].
    intros [ok c] w1 (rows & reports & Hinv & Hfs & Hdb & Hrows & Hall & Hcov & Hev & Hpc).
    by apply (Hrest words ok c w1 rows reports).
Qed.

(** X12.  Every row that the indexing block of the install hands to
    [deen_index_add] holds at least one prefix, holds its prefixes sorted
    by [strcmp] and each only once, and holds only prefixes of indexable
    words that the data file has at the ref of the row; this whatever the
    callbacks answer and whether or not reading fails. *)
Theorem deen_install_from_path_index_rows_sound
    (f : deen_is_cancelled_cb) (g : deen_install_progress_cb)
    (env : environment) (fd_data : option (list byte)) (is_error : bool) (w : world) :
  total (install_index env fd_data (Some g) (Some f) is_error) w (λ _ w',
    ∃ rows, index_rows w' = index_rows w ++ rows
      ∧ Forall (row_from (deen_file_words (default [] fd_data))) rows).
Proof.
  eapply total_mono; [apply total_install_index_rows|].
  intros e' w' (_ & _ & rows & reports & raised & Hrows & Hall & _). eauto.
Qed.

(** X13.  When the indexing block of the install raises no error, so when the
    tokenizer got through the file and the install was not cancelled,
    every indexable word of the data file has its prefix in a row of its
    ref: nothing is left behind in the context. *)
Theorem deen_install_from_path_index_rows_complete
    (f : deen_is_cancelled_cb) (g : deen_install_progress_cb)
    (env : environment) (fd_data : option (list byte)) (w : world) :
  total (install_index env fd_data (Some g) (Some f) false) w (λ is_error' w',
    is_error' = false →
    ∃ rows, index_rows w' = index_rows w ++ rows
      ∧ ∀ word, word ∈ deen_file_words (default [] fd_data) →
                indexable word.1.1 → word_in_rows rows word).
Proof.
  eapply total_mono; [apply total_install_index_rows|].
  intros e' w' (_ & _ & rows & reports & raised & Hrows & _ & Hcov & _ & _ & ->).
  simpl. intros ->. eauto.
Qed.

(** X14.  While indexing, the progress callback is told INDEXING only, and
    never twice in a row with the same whole percentage; the first report
    is measured against the initial -1.  An error of the block is told
    once, behind these reports. *)
Theorem deen_install_from_path_index_progress
    (f : deen_is_cancelled_cb) (g : deen_install_progress_cb)
    (env : environment) (fd_data : option (list byte)) (is_error : bool) (w : world) :
  total (install_index env fd_data (Some g) (Some f) is_error) w (λ is_error' w',
    ∃ reports (raised : bool),
      events w' = events w ++ indexing_reports reports
                  ++ (if raised then [(DEEN_INSTALL_STATE_ERROR, 0%Q)] else [])
      ∧ percent_changes (-1) reports
      ∧ is_error' = is_error || raised).
Proof.
  eapply total_mono; [apply total_install_index_rows|].
  intros e' w' (_ & _ & rows & reports & raised & _ & _ & _ & Hev & Hpc & He).
  eauto.
Qed.

End index_block.

(** ** More of the install *)

Section install_blocks.
Context {common : Common}.

(** A guarded step of the install, [if (!is_error && !is_cancelled_cb(..))
    { block }], with what holds behind it. *)
Lemma total_guarded {A B : Type} (f : deen_is_cancelled_cb) (is_error : bool)
    (block : M A) (skipped : A) (proj : A → bool) (k : A → M B) (w : world)
    (after : bool → world → Prop) (post : B → world → Prop) :
  proj skipped = is_error →
  (is_error = true → after true w) →
  (is_error = false → f (length (polls w)) = true → after false (add_poll true w)) →
  (is_error = false → f (length (polls w)) = false →
   total block (add_poll false w) (λ r w', after (proj r) w')) →
  (∀ r w', after (proj r) w' → total (k r) w' post) →
  total (go ← neither_error_nor_cancelled is_error (Some f);
         r ← (if go : bool then block else mret skipped);
         k r) w post.
Proof.
  intros Hskip Herr Hcancel Hblock Hk.
  apply total_bind, total_neither_error_nor_cancelled.
  - intros ->. apply total_bind, total_ret, Hk. rewrite Hskip. by apply Herr.
  - intros ->. destruct (f (length (polls w))) eqn:Hpoll; cbn [negb].
    + apply total_bind, total_ret, Hk. rewrite Hskip. by apply Hcancel.
    + apply total_bind. eapply total_mono; [by apply Hblock|]. intros r w'. apply Hk.
Qed.

(** The copy loop, from no error: it appends what is left to read to the
    data file, or it tells one error and stops. *)
Lemma total_copy_loop_full (g : deen_install_progress_cb)
    (fuel : nat) (env : environment) (data_path : string) (src : list byte) (n : nat)
    (w : world) :
  length src < fuel → is_Some (fs w !! data_path) →
  total (copy_loop fuel env data_path (Some g) src n false) w (λ is_error' w',
    polls w' = polls w ∧ db_initialised w' = db_initialised w
    ∧ index_rows w' = index_rows w
    ∧ events w' = events w
                  ++ (if is_error' then [(DEEN_INSTALL_STATE_ERROR, 0%Q)] else [])
    ∧ (∀ p, p ≠ data_path → fs w' !! p = fs w !! p)
    ∧ is_Some (fs w' !! data_path)
    ∧ (is_error' = false
       → fs w' !! data_path = Some (default [] (fs w !! data_path) ++ src))
    ∧ ((∀ k, env_write_ok env k = true) → is_error' = false)).
Proof.
  revert src n w. induction fuel as [|fuel IH]; intros src n w Hfuel Hex; [lia|].
  cbn [copy_loop]. case_decide as Hchunk.
  - assert (length (drop DEEN_SIZE_FILE_COPY_BUFFER src) < fuel) as Hfuel'.
    { rewrite length_drop. rewrite length_take in Hchunk.
      unfold DEEN_SIZE_FILE_COPY_BUFFER in *. lia. }
    destruct (env_write_ok env n) eqn:Hwrite.
    + apply total_bind, total_modify. eapply total_mono.
      { apply IH; [done|]. simpl. rewrite lookup_insert_eq. by eexists. }
      intros e' w' (Hp & Hdb & Hrows & Hev & Hfr & Hex' & Hdata & Hok). simpl in *.
      split_and!; [done..| |done| |done].
      * intros p Hne. rewrite Hfr by done. by rewrite lookup_insert_ne.
      * intros He. rewrite (Hdata He), lookup_insert_eq. simpl.
        by rewrite <- app_assoc, take_drop.
    + apply total_bind. unfold DEEN_INSTALL_RAISE_ERROR.
      apply total_bind, total_call_progress, total_ret.
      destruct fuel as [|fuel]; cbn [copy_loop]; apply total_ret;
        (split_and!; [done..| |]; [done|]);
        intros Hall; by rewrite Hall in Hwrite.
  - apply total_ret. rewrite app_nil_r. split_and!; [done..| |done].
    intros _. destruct Hex as [old Hold]. rewrite Hold. simpl.
    rewrite length_take in Hchunk.
    assert (src = []) as ->.
    { destruct src; [done|]. unfold DEEN_SIZE_FILE_COPY_BUFFER in *. simpl in *. lia. }
    by rewrite app_nil_r.
Qed.

Lemma total_install_copy_full (g : deen_install_progress_cb) (env : environment)
    (ding_filename data_path : string) (w : world) (post : bool → world → Prop) :
  (∀ (is_error' : bool) w',
     polls w' = polls w → db_initialised w' = db_initialised w →
     index_rows w' = index_rows w →
     events w' = events w
                 ++ (if is_error' then [(DEEN_INSTALL_STATE_ERROR, 0%Q)] else []) →
     (∀ p, p ≠ data_path → fs w' !! p = fs w !! p) →
     (is_error' = false →
      ∃ src, fs w !! ding_filename = Some src
        ∧ fs w' !! data_path
          = Some (if decide (ding_filename = data_path) then [] else src)) →
     (is_Some (fs w !! ding_filename) → env_dest_open_ok env = true →
      (∀ k, env_write_ok env k = true) → is_error' = false) →
     post is_error' w') →
  total (install_copy env ding_filename data_path (Some g) false) w post.
Proof.
  intros Hpost. unfold install_copy. apply total_bind, total_gets.
  assert (total (DEEN_INSTALL_RAISE_ERROR (Some g)) w
            (λ is_error' w', is_error' = true ∧ polls w' = polls w
               ∧ db_initialised w' = db_initialised w ∧ index_rows w' = index_rows w
               ∧ events w' = events w ++ [(DEEN_INSTALL_STATE_ERROR, 0%Q)]
               ∧ fs w' = fs w)) as Hraise.
  { unfold DEEN_INSTALL_RAISE_ERROR. by apply total_bind, total_call_progress, total_ret. }
  destruct (fs w !! ding_filename) as [src|] eqn:Hsrc.
  - destruct (env_dest_open_ok env) eqn:Hopen.
    + apply total_bind, total_modify, total_bind, total_gets.
      eapply total_mono.
      { apply total_copy_loop_full; [lia|]. simpl. rewrite lookup_insert_eq. by eexists. }
      intros e' w' (Hp & Hdb & Hrows & Hev & Hfr & _ & Hdata & Hok). simpl in *.
      apply Hpost; [done..| | |].
      * intros p Hne. rewrite Hfr by done. by rewrite lookup_insert_ne.
      * intros He. exists src. split; [done|]. rewrite (Hdata He), lookup_insert_eq.
        simpl. f_equal. destruct (decide (ding_filename = data_path)) as [Heq|Hne].
        -- subst. by rewrite lookup_insert_eq.
        -- rewrite lookup_insert_ne by done. by rewrite Hsrc.
      * intros _ _ Hall. by apply Hok.
    + eapply total_mono; [exact Hraise|].
      intros e' w' (-> & Hp & Hdb & Hrows & Hev & Hfs).
      apply Hpost; first [done | by rewrite Hfs].
  - eapply total_mono; [exact Hraise|].
    intros e' w' (-> & Hp & Hdb & Hrows & Hev & Hfs).
    apply Hpost; first [done | by rewrite Hfs | by intros [? ?]].
Qed.

Lemma total_install_open_db_full (g : deen_install_progress_cb) (env : environment)
    (index_path : string) (w : world) (post : bool * bool → world → Prop) :
  (∀ (r : bool * bool) w',
     polls w' = polls w → db_initialised w' = db_initialised w →
     index_rows w' = index_rows w →
     events w' = events w ++ (if r.1 then [(DEEN_INSTALL_STATE_ERROR, 0%Q)] else []) →
     (∀ p, p ≠ index_path → fs w' !! p = fs w !! p) →
     (∀ p x, fs w !! p = Some x → fs w' !! p = Some x) →
     r.1 = negb (env_db_open_ok env) →
     (r.1 = false → is_Some (fs w' !! index_path)) →
     post r w') →
  total (install_open_db env index_path (Some g) false) w post.
Proof.
  intros Hpost. unfold install_open_db. destruct (env_db_open_ok env) eqn:Hopen.
  - apply total_bind, total_modify, total_ret. apply Hpost; simpl; try done.
    + by rewrite app_nil_r.
    + intros p Hne. by rewrite lookup_insert_ne.
    + intros p x Hp. destruct (decide (p = index_path)) as [->|Hne].
      * by rewrite lookup_insert_eq, Hp.
      * by rewrite lookup_insert_ne.
    + intros _. rewrite lookup_insert_eq. by eexists.
  - unfold DEEN_INSTALL_RAISE_ERROR.
    apply total_bind, total_bind, total_call_progress, total_ret, total_ret.
    by apply Hpost.
Qed.

Lemma total_install_open_data_full (g : deen_install_progress_cb)
    (data_path : string) (w : world) (post : bool * option (list byte) → world → Prop) :
  (∀ (r : bool * option (list byte)) w',
     polls w' = polls w → db_initialised w' = db_initialised w →
     index_rows w' = index_rows w → fs w' = fs w →
     events w' = events w ++ (if r.1 then [(DEEN_INSTALL_STATE_ERROR, 0%Q)] else []) →
     r.2 = fs w !! data_path →
     r.1 = bool_decide (fs w !! data_path = None) || DEEN_CAUSE_ERROR_IN_INSTALL →
     post r w') →
  total (install_open_data data_path (Some g) false) w post.
Proof.
  intros Hpost. unfold install_open_data. apply total_bind, total_gets.
  destruct (_ || _) eqn:Hd.
  - unfold DEEN_INSTALL_RAISE_ERROR.
    apply total_bind, total_bind, total_call_progress, total_ret, total_ret.
    by apply Hpost.
  - apply total_ret. apply Hpost; simpl; try done. by rewrite app_nil_r.
Qed.

(** When reading does not fail and the callback never cancels, the
    indexing block raises no error. *)
Lemma total_install_index_ok (f : deen_is_cancelled_cb) (g : deen_install_progress_cb)
    (env : environment) (fd_data : option (list byte)) (is_error : bool) (w : world) :
  total (install_index env fd_data (Some g) (Some f) is_error) w (λ is_error' w',
    (∃ ps, polls w' = polls w ++ ps ∧ Forall (λ b, ∃ n, b = f n) ps)
    ∧ (env_read_fails_after env = None → (∀ n, f n = false) → is_error' = is_error)).
Proof.
  unfold install_index, deen_for_each_word_from_file. apply total_bind.
  assert (∀ words,
            total (for_each_word words deen_index_callback
                     (initial_context (Some g) (Some f))) w
              (λ r w', advances f is_error is_error w w'
                       ∧ (r.1 = false → ∃ n, f n = true))) as Hwords.
  { intros words. by apply (total_for_each_word f g). }
  assert (∀ (ok : bool) (c : deen_index_context) (w1 : world) (P : Prop),
            advances f is_error is_error w w1 → (P → ok = true) →
            total ((if ok then mret is_error else DEEN_INSTALL_RAISE_ERROR (Some g))
                   ≫= λ is_error0,
                        deen_index_flush_context_prefixes_to_index c
                        ≫= λ _, mret is_error0) w1
              (λ is_error' w',
                 (∃ ps, polls w' = polls w ++ ps ∧ Forall (λ b, ∃ n, b = f n) ps)
                 ∧ (P → is_error' = is_error))) as Hrest.
  { intros ok c w1 P (ps & evs & Hp & _ & Hfa & _) HP. apply total_bind. destruct ok.
    - apply total_ret, total_bind, total_flush.
      intros c' w' _ _ _ _ _ _ Hfs Hpolls Hev. apply total_ret.
      split; [|done]. exists ps. by rewrite Hpolls.
    - unfold DEEN_INSTALL_RAISE_ERROR.
      apply total_bind, total_call_progress, total_ret, total_bind, total_flush.
      intros c' w' _ _ _ _ _ _ Hfs Hpolls Hev. apply total_ret.
      split; [exists ps; by rewrite Hpolls|]. intros HP'. by discriminate (HP HP'). }
  destruct (env_read_fails_after env) as [n|].
  - apply total_bind. eapply total_mono; [apply Hwords|].
    intros [ok c] w1 [Hadv _]. apply total_ret.
    eapply total_mono; [apply (Hrest false c w1 False); [done|done]|].
    intros e' w' [Hp _]. split; [done|]. by intros ?.
  - eapply total_mono; [apply Hwords|]. intros [ok c] w1 [Hadv Hstop]. simpl in *.
    eapply total_mono; [apply (Hrest ok c w1 (∀ n, f n = false)); [done|]|].
    + intros Hnever. destruct ok; [done|]. destruct (Hstop eq_refl) as [n Hn].
      by rewrite Hnever in Hn.
    + intros e' w' [Hp He]. split; [done|]. intros _. exact He.
Qed.

End install_blocks.

Section install_trace.
Context {common : Common}.

Lemma proceeds_refl (f : deen_is_cancelled_cb) (paths : list string) (w0 : world) :
  proceeds f paths w0 false w0.
Proof.
  split_and!; [exists []|exists []|done]; simpl; rewrite ?app_nil_r; [|done].
  split; [done|constructor].
Qed.

Lemma proceeds_poll (f : deen_is_cancelled_cb) (paths : list string) (w0 w : world)
    (is_error : bool) :
  proceeds f paths w0 is_error w →
  proceeds f paths w0 is_error (add_poll (f (length (polls w))) w).
Proof.
  intros ((ps & Hp & Hfa) & Hev & Hfs). split_and!; [|done..].
  exists (ps ++ [f (length (polls w))]). simpl. rewrite Hp, <- app_assoc.
  split; [done|]. apply Forall_app. split; [done|]. by repeat econstructor.
Qed.

Lemma proceeds_poll_eq (f : deen_is_cancelled_cb) (paths : list string) (w0 w : world)
    (is_error answer : bool) :
  f (length (polls w)) = answer → proceeds f paths w0 is_error w →
  proceeds f paths w0 is_error (add_poll answer w).
Proof. intros <-. apply proceeds_poll. Qed.

(** A block that ran from no error. *)
Lemma proceeds_block (f : deen_is_cancelled_cb) (paths : list string) (w0 w w' : world)
    (ps : list bool) (reports : list Q) (is_error' : bool) :
  proceeds f paths w0 false w →
  polls w' = polls w ++ ps → Forall (λ b, ∃ n, b = f n) ps →
  events w' = events w ++ indexing_reports reports
              ++ (if is_error' then [(DEEN_INSTALL_STATE_ERROR, 0%Q)] else []) →
  (∀ p, p ∉ paths → fs w' !! p = fs w !! p) →
  proceeds f paths w0 is_error' w'.
Proof.
  intros ((ps0 & Hp0 & Hfa0) & (reports0 & Hev0) & Hfs0) Hp Hfa Hev Hfs. split_and!.
  - exists (ps0 ++ ps). rewrite Hp, Hp0, <- app_assoc. split; [done|].
    by apply Forall_app.
  - exists (reports0 ++ reports). rewrite Hev, Hev0, app_nil_r.
    unfold indexing_reports. by rewrite fmap_app, <- !app_assoc.
  - intros p Hp'. by rewrite Hfs, Hfs0.
Qed.

Lemma install_paths_data (deen_root_dir p : string) :
  p ∉ install_paths deen_root_dir → p ≠ deen_data_path deen_root_dir.
Proof. intros Hp ->. apply Hp. unfold install_paths. set_solver. Qed.

Lemma install_paths_index (deen_root_dir p : string) :
  p ∉ install_paths deen_root_dir → p ≠ deen_index_path deen_root_dir.
Proof. intros Hp ->. apply Hp. unfold install_paths. set_solver. Qed.

(** The install with both callbacks given: what it tells, what it
    touches, and what it leaves when it fails. *)
Lemma total_install_trace (f : deen_is_cancelled_cb) (g : deen_install_progress_cb)
    (env : environment) (deen_root_dir ding_filename : string) (w : world) :
  total (deen_install_from_path env deen_root_dir ding_filename (Some g) (Some f)) w
    (λ r w',
       (∃ reports final,
          events w' = events w ++ [(DEEN_INSTALL_STATE_STARTING, 0%Q)]
                      ++ indexing_reports reports ++ final
          ∧ if r then final = [(DEEN_INSTALL_STATE_COMPLETED, 1%Q)]
            else ∃ ps,
              polls w' = polls w ++ ps ++ [f (length (polls w ++ ps))]
              ∧ final = (DEEN_INSTALL_STATE_ERROR, 0%Q)
                        :: (if f (length (polls w ++ ps))
                            then [(DEEN_INSTALL_STATE_IDLE, 0%Q)] else []))
       ∧ (∀ p, p ∉ install_paths deen_root_dir → fs w' !! p = fs w !! p)
       ∧ (r = false →
          (env_remove_ok env (deen_data_path deen_root_dir) = true →
           fs w' !! deen_data_path deen_root_dir = None)
          ∧ (env_remove_ok env (deen_index_path deen_root_dir) = true →
             fs w' !! deen_index_path deen_root_dir = None))).
Proof.
  unfold deen_install_from_path.
  set (paths := install_paths deen_root_dir).
  set (data := deen_data_path deen_root_dir).
  set (index := deen_index_path deen_root_dir).
  apply total_bind, total_call_progress.
  apply total_bind, total_install_init_files. intros r0 w0 (Hp0 & He0 & _) _ Hfiles0.
  simpl in Hp0, He0.
  assert (∀ p, p ∉ paths → fs w0 !! p = fs w !! p) as Hfs0.
  { intros p Hp. destruct (Hfiles0 p) as [?|[[[Hi|Hd] _]|[Hr _]]]; [done|..];
      destruct Hp; subst p; unfold paths, install_paths; set_solver. }
  pose proof (proceeds_refl f paths w0) as H0.
  (* the copy *)
  apply (total_guarded f false _ false id _ _ (proceeds f paths w0)); [done|done|..].
  { intros _ Hpoll. by apply proceeds_poll_eq. }
  { intros _ Hpoll. apply total_install_copy_full.
    intros e' w' Hp Hdb Hrows Hev Hfr _ _. unfold id.
    apply (proceeds_block f paths w0 (add_poll false w0) w' [] [] e'); [|by rewrite app_nil_r|done|done|].
    - by apply proceeds_poll_eq.
    - intros p Hp'. apply Hfr. by apply install_paths_data. }
  intros e1 w1 H1. unfold id in H1.
  (* the database *)
  apply (total_guarded f e1 _ (e1, false) fst _ _ (proceeds f paths w0)); [done|..].
  { by intros ->. }
  { intros -> Hpoll. by apply proceeds_poll_eq. }
  { intros -> Hpoll. apply total_install_open_db_full.
    intros r w' Hp Hdb Hrows Hev Hfr _ _ _.
    apply (proceeds_block f paths w0 (add_poll false w1) w' [] [] r.1); [|by rewrite app_nil_r|done|done|].
    - by apply proceeds_poll_eq.
    - intros p Hp'. apply Hfr. by apply install_paths_index. }
  intros [e2 db] w2 H2. cbn [fst] in H2.
  (* deen_index_init *)
  apply (total_guarded f e2 _ tt (λ _, e2) _ _ (proceeds f paths w0)); [done|..].
  { by intros ->. }
  { intros -> Hpoll. by apply proceeds_poll_eq. }
  { intros -> Hpoll. apply total_modify.
    apply (proceeds_block f paths w0 (add_poll false w2) _ [] [] false);
      [|by rewrite app_nil_r|done|by rewrite app_nil_r|done].
    by apply proceeds_poll_eq. }
  intros [] w3 H3.
  (* the data file *)
  apply (total_guarded f e2 _ (e2, None) fst _ _ (proceeds f paths w0)); [done|..].
  { by intros ->. }
  { intros -> Hpoll. by apply proceeds_poll_eq. }
  { intros -> Hpoll. apply total_install_open_data_full.
    intros r w' Hp Hdb Hrows Hfs Hev _ _.
    apply (proceeds_block f paths w0 (add_poll false w3) w' [] [] r.1); [|by rewrite app_nil_r|done|done|].
    - by apply proceeds_poll_eq.
    - intros p _. by rewrite Hfs. }
  intros [e4 fd_data] w4 H4. cbn [fst] in H4.
  (* the index *)
  apply (total_guarded f e4 _ e4 id _ _ (proceeds f paths w0)); [done|..].
  { by intros ->. }
  { intros -> Hpoll. by apply proceeds_poll_eq. }
  { intros -> Hpoll. eapply total_mono.
    { apply total_and; [apply total_install_index_rows|apply total_install_index_ok]. }
    intros e' w' [(Hfs & _ & rows & reports & raised & _ & _ & _ & Hev & _ & He)
                  [(ps & Hp & Hfa) _]].
    simpl in He. subst e'. unfold id.
    apply (proceeds_block f paths w0 (add_poll false w4) w' ps reports raised); [|done..|].
    - by apply proceeds_poll_eq.
    - intros p _. by rewrite Hfs. }
  intros e5 w5 H5. unfold id in H5.
  destruct H5 as ((ps & Hps & _) & (reports & He5) & Hfs5).
  rewrite He0 in He5. rewrite Hp0 in Hps. simpl in He5, Hps.
  assert (∀ (clean_up : bool) w6 (post : unit → world → Prop),
            (∀ w7, polls w7 = polls w6 → events w7 = events w6 →
                   (∀ p, p ∉ paths → fs w7 !! p = fs w6 !! p) →
                   (clean_up = true →
                    (env_remove_ok env data = true → fs w7 !! data = None)
                    ∧ (env_remove_ok env index = true → fs w7 !! index = None)) →
                   post tt w7) →
            total (if clean_up
                   then deen_remove_fileobject env data
                        ≫= λ _, deen_remove_fileobject env index ≫= λ _, mret ()
                   else mret ()) w6 post) as Hclean.
  { intros clean_up w6 post Hpost. destruct clean_up; [|by apply total_ret, Hpost].
    apply total_bind, total_remove_fileobject_files.
    intros r7 w7 (Hp7 & He7 & _) _ _ _ Hok7 Hf7.
    apply total_bind, total_remove_fileobject_files.
    intros r8 w8 (Hp8 & He8 & _) _ _ _ Hok8 Hf8.
    apply total_ret, Hpost; [congruence|congruence| |].
    - intros p Hp.
      destruct (Hf8 p) as [->|[-> _]]; [|by apply install_paths_index in Hp].
      destruct (Hf7 p) as [->|[-> _]]; [done|by apply install_paths_data in Hp].
    - intros _. split; [intros Hd|intros Hi; by apply Hok8].
      destruct (Hf8 data) as [->|[_ ?]]; [|done]. by apply Hok7. }
  destruct e5.
  - apply total_bind, total_error_or_cancelled; [intros _|done].
    apply total_bind, (Hclean true). intros w7 Hp7 He7 Hfs7 Hgone. cbn [negb].
    apply total_bind, total_bind, total_call_is_cancelled.
    assert (polls w7 = polls w ++ ps) as Hpolls by congruence.
    destruct (f (length (polls w7))) eqn:Hpoll.
    + apply total_call_progress, total_ret. simpl. split_and!.
      * exists reports, [(DEEN_INSTALL_STATE_ERROR, 0%Q); (DEEN_INSTALL_STATE_IDLE, 0%Q)].
        split; [by rewrite He7, He5, <- !app_assoc|].
        exists ps. rewrite <- Hpolls, Hpoll. split; [|done].
        by rewrite Hpolls, <- app_assoc.
      * intros p Hp. by rewrite Hfs7, Hfs5, Hfs0.
      * intros _. by apply Hgone.
    + apply total_ret, total_ret. simpl. split_and!.
      * exists reports, [(DEEN_INSTALL_STATE_ERROR, 0%Q)].
        split; [by rewrite He7, He5, <- !app_assoc|].
        exists ps. rewrite <- Hpolls, Hpoll. split; [|done].
        by rewrite Hpolls, <- app_assoc.
      * intros p Hp. by rewrite Hfs7, Hfs5, Hfs0.
      * intros _. by apply Hgone.
  - apply total_bind, total_error_or_cancelled; [done|intros _].
    apply total_bind, (Hclean (f (length (polls w5)))). intros w7 Hp7 He7 Hfs7 _.
    cbn [negb]. apply total_bind, total_call_progress, total_ret. simpl. split_and!.
    + exists reports, [(DEEN_INSTALL_STATE_COMPLETED, 1%Q)].
      split; [|done]. rewrite He7. simpl. rewrite He5, app_nil_r, <- !app_assoc. done.
    + intros p Hp. rewrite Hfs7 by done. simpl. by rewrite Hfs5, Hfs0.
    + done.
Qed.

End install_trace.

Section install_uncancelled.
Context {common : Common}.

Lemma install_callbacks (env : environment) (deen_root_dir ding_filename : string)
    (progress_cb : option deen_install_progress_cb)
    (is_cancelled_cb : option deen_is_cancelled_cb) :
  ∃ g f,
    deen_install_from_path env deen_root_dir ding_filename progress_cb is_cancelled_cb
    = deen_install_from_path env deen_root_dir ding_filename (Some g) (Some f)
    ∧ (is_cancelled_cb = None → f = deen_noop_is_cancelled_cb).
Proof.
  destruct progress_cb as [g|], is_cancelled_cb as [f|].
  - by exists g, f.
  - by exists g, deen_noop_is_cancelled_cb.
  - by exists deen_noop_install_progress_cb, f.
  - by exists deen_noop_install_progress_cb, deen_noop_is_cancelled_cb.
Qed.

(** The install that is never cancelled: what it leaves when it returns
    true, and when it does. *)
Lemma total_install_uncancelled (g : deen_install_progress_cb)
    (env : environment) (deen_root_dir ding_filename : string) (w : world) :
  let data := deen_data_path deen_root_dir in
  let index := deen_index_path deen_root_dir in
  total (deen_install_from_path env deen_root_dir ding_filename (Some g)
           (Some deen_noop_is_cancelled_cb)) w
    (λ r w',
       (r = true →
        is_Some (fs w' !! data) ∧ is_Some (fs w' !! index)
        ∧ db_initialised w' = true
        ∧ (ding_filename ≠ data →
           ∀ src, fs w !! ding_filename = Some src → fs w' !! data = Some src))
       ∧ (is_Some (fs w !! ding_filename) →
          ding_filename ≠ (deen_root_dir +:+ DEEN_FILE_SEP +:+ DEEN_LEAF_INDEX)%string →
          ding_filename ≠ (deen_root_dir +:+ DEEN_FILE_SEP +:+ DEEN_LEAF_DING_DATA)%string →
          cooperates env → DEEN_CAUSE_ERROR_IN_INSTALL = false →
          r = true)).
Proof.
  intros data index. unfold deen_install_from_path. fold data index.
  set (Suff := is_Some (fs w !! ding_filename)
     ∧ ding_filename ≠ (deen_root_dir +:+ DEEN_FILE_SEP +:+ DEEN_LEAF_INDEX)%string
     ∧ ding_filename ≠ (deen_root_dir +:+ DEEN_FILE_SEP +:+ DEEN_LEAF_DING_DATA)%string
     ∧ cooperates env ∧ DEEN_CAUSE_ERROR_IN_INSTALL = false).
  apply total_bind, total_call_progress.
  apply total_bind, total_install_init_files. intros r0 w0 _ _ Hfiles0.
  simpl in Hfiles0.
  set (stage := λ (k : nat) (e : bool) (w1 : world),
     (Suff → e = false)
     ∧ (e = false →
        (∃ src', fs w0 !! ding_filename = Some src'
           ∧ fs w1 !! data = Some (if decide (ding_filename = data) then [] else src'))
        ∧ (2 ≤ k → is_Some (fs w1 !! index))
        ∧ (3 ≤ k → db_initialised w1 = true))).
  assert (Suff → is_Some (fs w0 !! ding_filename)) as Hsrc0.
  { intros (Hex & Hni & Hnd & _). destruct (Hfiles0 ding_filename) as [->|[[[?|?] _]|(_ & Hn & _)]];
      [done|done|done|]. rewrite Hn in Hex. by destruct Hex. }
  (* the copy *)
  apply (total_guarded deen_noop_is_cancelled_cb false _ false id _ _ (stage 1));
    [done|done|done|..].
  { intros _ _. apply total_install_copy_full.
    intros e' w' _ _ _ _ _ Hdata Hok. unfold id. split.
    - intros HS. pose proof HS as (_ & _ & _ & (Hopen & Hwrite & _) & _).
      apply Hok; [by apply Hsrc0|done..].
    - intros He. split_and!; [by apply Hdata|lia..]. }
  intros e1 w1 [HS1 H1]. unfold id in *.
  (* the database *)
  apply (total_guarded deen_noop_is_cancelled_cb e1 _ (e1, false) fst _ _ (stage 2));
    [done| |done|..].
  { intros ->. split; [done|by intros ?]. }
  { intros -> _. apply total_install_open_db_full.
    intros r w' _ _ _ _ _ Hkeep Hr Hindex. split.
    - intros HS. pose proof HS as (_ & _ & _ & (_ & _ & Hdb & _) & _).
      by rewrite Hr, Hdb.
    - intros He. destruct (H1 eq_refl) as ((src' & Hsrc & Hdata) & _).
      split_and!; [|by intros _; apply Hindex|lia].
      exists src'. split; [done|]. by apply Hkeep. }
  intros [e2 db] w2 [HS2 H2]. cbn [fst] in *.
  (* deen_index_init *)
  apply (total_guarded deen_noop_is_cancelled_cb e2 _ tt (λ _, e2) _ _ (stage 3));
    [done| |done|..].
  { intros ->. split; [done|by intros ?]. }
  { intros -> _. apply total_modify. split; [by intros _|]. intros _.
    destruct (H2 eq_refl) as (Hdata & Hindex & _).
    split_and!; [exact Hdata|intros _; apply Hindex; lia|done]. }
  intros [] w3 [HS3 H3].
  (* the data file *)
  apply (total_guarded deen_noop_is_cancelled_cb e2 _ (e2, None) fst _ _ (stage 3));
    [done| |done|..].
  { intros ->. split; [done|by intros ?]. }
  { intros -> _. apply total_install_open_data_full.
    intros r w' _ Hdb _ Hfs _ _ Hr. destruct (H3 eq_refl) as (Hdata & Hindex & Hinit).
    simpl in Hfs, Hdb. split.
    - intros HS. pose proof HS as (_ & _ & _ & _ & Hcause).
      rewrite Hr, Hcause, orb_false_r. apply bool_decide_eq_false_2. simpl.
      destruct Hdata as (src' & _ & Hd). by rewrite Hd.
    - intros _. rewrite Hfs, Hdb. done. }
  intros [e4 fd_data] w4 [HS4 H4]. cbn [fst] in *.
  (* the index *)
  apply (total_guarded deen_noop_is_cancelled_cb e4 _ e4 id _ _ (stage 3));
    [done| |done|..].
  { intros ->. split; [done|by intros ?]. }
  { intros -> _. eapply total_mono.
    { apply total_and; [apply total_install_index_rows|apply total_install_index_ok]. }
    intros e' w' [(Hfs & Hdb & _) [_ Hok]]. unfold id.
    destruct (H4 eq_refl) as (Hdata & Hindex & Hinit). simpl in Hfs, Hdb. split.
    - intros HS. pose proof HS as (_ & _ & _ & (_ & _ & _ & Hread) & _).
      by apply Hok.
    - intros _. rewrite Hfs, Hdb. done. }
  intros e5 w5 [HS5 H5]. unfold id in *.
  destruct e5.
  - apply total_bind, total_error_or_cancelled; [intros _|done].
    apply total_bind. apply total_bind, total_remove_fileobject. intros ? w6 _ _ _.
    apply total_bind, total_remove_fileobject. intros ? w7 _ _ _. apply total_ret.
    cbn [negb]. apply total_bind, total_bind, total_call_is_cancelled.
    unfold deen_noop_is_cancelled_cb at 1. apply total_ret, total_ret. simpl.
    split; [done|]. intros Hex Hni Hnd Hcoop Hcause.
    by discriminate HS5.
  - apply total_bind, total_error_or_cancelled; [done|intros _].
    unfold deen_noop_is_cancelled_cb at 1 2.
    apply total_bind, total_ret. cbn [negb].
    apply total_bind, total_call_progress, total_ret. simpl. split; [|done].
    intros _. destruct (H5 eq_refl) as ((src' & Hsrc & Hdata) & Hindex & Hinit).
    split_and!; [by rewrite Hdata|by apply Hindex; lia|by apply Hinit; lia|].
    intros Hne src Hsrc'. rewrite Hdata, decide_False by done. f_equal.
    destruct (Hfiles0 ding_filename) as [Heq|[[_ Hn]|(_ & Hn & _)]]; congruence.
Qed.

End install_uncancelled.

Section install_more.
Context {common : Common}.

(** X15.  What [deen_install_from_path] tells the progress callback of an
    install from well-formed UTF-8, whatever the callbacks and the system
    do: first STARTING, then INDEXING any number of times, then either
    COMPLETED with progress 1, when it returns true, or ERROR, once, when
    it returns false; and then the last answer of the cancellation
    callback decides: behind the ERROR follows IDLE when it is true, and
    nothing when it is false.  COMPLETED is never told behind an ERROR. *)
Theorem deen_install_from_path_reports
    (env : environment) (deen_root_dir ding_filename : string)
    (progress_cb : option deen_install_progress_cb)
    (is_cancelled_cb : option deen_is_cancelled_cb) (w : world) :
  (∀ src, fs w !! ding_filename = Some src →
          (deen_utf8_sequences_count src).1 = DEEN_SEQUENCE_OK) →
  total (deen_install_from_path env deen_root_dir ding_filename
           progress_cb is_cancelled_cb) w
    (λ r w',
       ∃ reports final,
         events w' = events w ++ [(DEEN_INSTALL_STATE_STARTING, 0%Q)]
                     ++ indexing_reports reports ++ final
         ∧ if r then final = [(DEEN_INSTALL_STATE_COMPLETED, 1%Q)]
           else ∃ ps answer,
             polls w' = polls w ++ ps ++ [answer]
             ∧ final = (DEEN_INSTALL_STATE_ERROR, 0%Q)
                       :: (if answer : bool
                           then [(DEEN_INSTALL_STATE_IDLE, 0%Q)] else [])).
Proof.
  intros _.
  destruct (install_callbacks env deen_root_dir ding_filename progress_cb is_cancelled_cb)
    as (g & f & -> & _).
  eapply total_mono; [apply total_install_trace|].
  intros r w' ((reports & final & Hev & Hfinal) & _). exists reports, final.
  split; [done|]. destruct r; [done|].
  destruct Hfinal as (ps & Hpolls & ->). by exists ps, (f (length (polls w ++ ps))).
Qed.

(** X16.  [deen_install_from_path] touches no object but the root directory,
    the index and the data file under it: every other file, the source
    among them when it is none of these, is left as it was, whether the
    install succeeds, fails or is cancelled. *)
Theorem deen_install_from_path_touches
    (env : environment) (deen_root_dir ding_filename : string)
    (progress_cb : option deen_install_progress_cb)
    (is_cancelled_cb : option deen_is_cancelled_cb) (w : world) :
  total (deen_install_from_path env deen_root_dir ding_filename
           progress_cb is_cancelled_cb) w
    (λ _ w', ∀ p, p ∉ install_paths deen_root_dir → fs w' !! p = fs w !! p).
Proof.
  destruct (install_callbacks env deen_root_dir ding_filename progress_cb is_cancelled_cb)
    as (g & f & -> & _).
  eapply total_mono; [apply total_install_trace|]. by intros r w' (_ & ? & _).
Qed.

(** X17.  When [deen_install_from_path] returns false it has removed what it
    wrote: the data file does not exist when it returns, if [remove]
    works on it, and neither does the index. *)
Theorem deen_install_from_path_failure_cleans_up
    (env : environment) (deen_root_dir ding_filename : string)
    (progress_cb : option deen_install_progress_cb)
    (is_cancelled_cb : option deen_is_cancelled_cb) (w : world) :
  total (deen_install_from_path env deen_root_dir ding_filename
           progress_cb is_cancelled_cb) w
    (λ r w',
       r = false →
       (env_remove_ok env (deen_data_path deen_root_dir) = true →
        fs w' !! deen_data_path deen_root_dir = None)
       ∧ (env_remove_ok env (deen_index_path deen_root_dir) = true →
          fs w' !! deen_index_path deen_root_dir = None)).
Proof.
  destruct (install_callbacks env deen_root_dir ding_filename progress_cb is_cancelled_cb)
    as (g & f & -> & _).
  eapply total_mono; [apply total_install_trace|]. by intros r w' (_ & _ & ?).
Qed.

(** X18.  An install that cannot be cancelled and returns true has copied the
    source: the data file under the root holds the bytes that the source
    held before the call; the index exists and [deen_index_init] was
    called on it.  The source must not be the data file itself, which the
    install truncates before it reads. *)
Theorem deen_install_from_path_copies_source
    (env : environment) (deen_root_dir ding_filename : string)
    (progress_cb : option deen_install_progress_cb) (w : world) (src : list byte) :
  fs w !! ding_filename = Some src →
  ding_filename ≠ deen_data_path deen_root_dir →
  total (deen_install_from_path env deen_root_dir ding_filename progress_cb None) w
    (λ r w',
       r = true →
       fs w' !! deen_data_path deen_root_dir = Some src
       ∧ is_Some (fs w' !! deen_index_path deen_root_dir)
       ∧ db_initialised w' = true).
Proof.
  intros Hsrc Hne.
  destruct (install_callbacks env deen_root_dir ding_filename progress_cb None)
    as (g & f & -> & Hf). rewrite (Hf eq_refl).
  eapply total_mono; [apply total_install_uncancelled|].
  intros r w' [Htrue _] ->. destruct (Htrue eq_refl) as (_ & Hindex & Hinit & Hdata).
  split_and!; [by apply Hdata|done..].
Qed.

(** X19.  An install that cannot be cancelled returns true when the source
    opens for reading and holds well-formed UTF-8, its path is neither of
    the two paths that [deen_install_init] removes, the system does what
    is asked of it, and [DEEN_CAUSE_ERROR_IN_INSTALL] is not set. *)
Theorem deen_install_from_path_succeeds
    (env : environment) (deen_root_dir ding_filename : string)
    (progress_cb : option deen_install_progress_cb) (w : world) (src : list byte) :
  fs w !! ding_filename = Some src →
  (deen_utf8_sequences_count src).1 = DEEN_SEQUENCE_OK →
  ding_filename ≠ (deen_root_dir +:+ DEEN_FILE_SEP +:+ DEEN_LEAF_INDEX)%string →
  ding_filename ≠ (deen_root_dir +:+ DEEN_FILE_SEP +:+ DEEN_LEAF_DING_DATA)%string →
  cooperates env → DEEN_CAUSE_ERROR_IN_INSTALL = false →
  total (deen_install_from_path env deen_root_dir ding_filename progress_cb None) w
    (λ r _, r = true).
Proof.
  intros Hsrc _ Hni Hnd Hcoop Hcause.
  destruct (install_callbacks env deen_root_dir ding_filename progress_cb None)
    as (g & f & -> & Hf). rewrite (Hf eq_refl).
  eapply total_mono; [apply total_install_uncancelled|].
  intros r w' [_ Hok]. by apply Hok.
Qed.

(** X20.  Behind an install that cannot be cancelled, [deen_is_installed]
    answers what the install returned, when the data file is the one that
    [deen_is_installed] looks for and [remove] works on it: an install
    that failed leaves no data file behind, one that succeeded leaves
    one. *)
Theorem deen_install_from_path_then_is_installed
    (env : environment) (deen_root_dir ding_filename : string)
    (progress_cb : option deen_install_progress_cb) (w : world) :
  deen_data_path deen_root_dir
  = (deen_root_dir +:+ DEEN_FILE_SEP +:+ DEEN_LEAF_DING_DATA)%string →
  env_remove_ok env (deen_data_path deen_root_dir) = true →
  total (r ← deen_install_from_path env deen_root_dir ding_filename progress_cb None;
         installed ← deen_is_installed env deen_root_dir;
         mret (r, installed)) w
    (λ r _, r.2 = r.1).
Proof.
  intros Hpath Hremove.
  destruct (install_callbacks env deen_root_dir ding_filename progress_cb None)
    as (g & f & -> & Hf). rewrite (Hf eq_refl).
  apply total_bind. eapply total_mono.
  { apply total_and; [apply total_install_trace|apply total_install_uncancelled]. }
  intros r w' [(_ & _ & Hfail) [Htrue _]].
  unfold deen_is_installed, deen_exists_fileobject. rewrite <- Hpath.
  apply total_bind, total_gets, total_ret. simpl.
  pose proof Hremove as [-> _]%andb_prop. cbn [andb]. destruct r.
  - destruct (Htrue eq_refl) as (Hdata & _). by apply bool_decide_eq_true_2.
  - destruct (Hfail eq_refl) as [Hdata _]. rewrite (Hdata Hremove).
    apply bool_decide_eq_false_2. by intros [? ?].
Qed.

End install_more.

(** ** The terminal output *)

Section render.
Context {text : Text}.

(** X21.  [deen_term_is_utf8_langenv] answers true exactly for a value of LANG
    that ends in ".UTF-8" and has something in front of it: not for NULL,
    not for ".UTF-8" alone, and not for another spelling of the suffix. *)
Theorem deen_term_is_utf8_langenv_iff (lang_value : option (list byte)) :
  deen_term_is_utf8_langenv lang_value = true
  ↔ ∃ name, name ≠ [] ∧ lang_value = Some (name ++ bytes ".UTF-8").
Proof.
  destruct lang_value as [lang|]; simpl.
  2:{ split; [done|]. by intros (? & _ & ?). }
  rewrite andb_true_iff, Nat.ltb_lt, Z.eqb_eq, strcmp_eq. split.
  - intros [Hlen Hdrop]. exists (take (length lang - 6) lang). split.
    + intros Hnil. apply (f_equal length) in Hnil. rewrite length_take in Hnil.
      simpl in Hnil. lia.
    + by rewrite <- Hdrop, take_drop.
  - intros (name & Hne & [= ->]). rewrite length_app.
    change (length (bytes ".UTF-8")) with 6. split.
    + destruct name; [done|simpl; lia].
    + replace (length name + 6 - 6) with (length name) by lia.
      by rewrite drop_app_length.
Qed.

Lemma print_ascii_loop_range (str : list byte) (n i : nat) :
  i + n ≤ length str → print_ascii_loop str n i = take n (drop i str).
Proof.
  revert i. induction n as [|n IH]; intros i Hlen; simpl; [done|].
  rewrite IH by lia.
  destruct (lookup_lt_is_Some_2 str i ltac:(lia)) as [b Hb].
  rewrite (drop_S _ _ _ Hb). simpl. f_equal.
  by apply nth_lookup_Some with (d := x00) in Hb.
Qed.

(** X22.  On a terminal that takes UTF-8, [deen_term_print_str_range] puts the
    bytes of the range on stdout as they are, and [deen_term_print_str]
    the string; the same where the text is clean by
    [deen_utf8_is_usascii_clean].  No error is logged. *)
Theorem deen_term_print_str_range_verbatim
    (fuel : nat) (lang : option (list byte)) (str : list byte) (from to : nat) :
  from ≤ to → to ≤ length str →
  deen_term_is_utf8 lang = true
  ∨ deen_utf8_is_usascii_clean (take (size_sub to from) (drop from str)) = true →
  deen_term_print_str_range fuel lang str from to
  = Some (take (to - from) (drop from str), false)
  ∧ (from = 0 → to = strlen str →
     deen_term_print_str fuel lang str = Some (cstr str, false)).
Proof.
  intros Hft Hto Hsame.
  assert (deen_term_print_str_range fuel lang str from to
          = Some (take (to - from) (drop from str), false)) as Hrange.
  { unfold deen_term_print_str_range, deen_term_print_ascii_str.
    rewrite print_ascii_loop_range by lia.
    destruct (deen_term_is_utf8 lang); [done|].
    destruct Hsame as [? | ->]; done. }
  split; [done|]. intros -> ->. unfold deen_term_print_str. rewrite Hrange.
  rewrite drop_0, Nat.sub_0_r. f_equal. f_equal. unfold strlen.
  clear. induction str as [|b str IH]; simpl; [done|].
  case_decide; [done|]. simpl. by rewrite IH.
Qed.

Lemma size_sub_small (a b : nat) : (Z.of_nat a < 2 ^ 64)%Z → b ≤ a → size_sub a b = a - b.
Proof.
  intros Ha Hb. unfold size_sub. rewrite Z.mod_small by lia. lia.
Qed.

Lemma size_add_small (a b : nat) : (Z.of_nat (a + b) < 2 ^ 64)%Z → size_add a b = a + b.
Proof.
  intros Hab. unfold size_add. rewrite Z.mod_small by lia. lia.
Qed.

Lemma print_sequences_loop_ascii (fuel : nat) (str : list byte) (len to i : nat)
    (out : list byte) :
  text_ok → (Z.of_nat (length str) < 2 ^ 64)%Z → to ≤ length str →
  to - i < fuel → Forall ascii out →
  ∃ out' logged,
    print_sequences_loop fuel str len to i out = Some (out', logged)
    ∧ Forall ascii out'.
Proof.
  intros (Hclean & Hlen & Hone & Hequiv) Hsize Hto.
  revert i out. induction fuel as [|fuel IH]; intros i out Hfuel Hout; [lia|].
  cbn [print_sequences_loop]. destruct (Nat.ltb_spec i to) as [Hi|Hi]; [|eauto].
  set (c := take (size_sub len i) (drop i str)).
  destruct (deen_utf8_sequence_len c) as [[] n] eqn:Hc; [|eauto..].
  pose proof (Hlen c n Hc) as [Hn1 Hn2].
  assert (length c ≤ length str - i) as Hcl.
  { unfold c. rewrite length_take, length_drop. lia. }
  rewrite size_add_small by lia.
  apply IH; [lia|]. case_decide as Hn.
  - subst n. apply Forall_app. split; [done|].
    pose proof (Hone c Hc) as Hhead. unfold c in Hhead, Hn2.
    destruct (lookup_lt_is_Some_2 str i ltac:(lia)) as [b Hb].
    rewrite (nth_lookup_Some _ _ x00 _ Hb).
    rewrite (drop_S _ _ _ Hb) in Hhead, Hn2.
    destruct (size_sub len i) as [|m]; [simpl in Hn2; lia|].
    simpl in Hhead. rewrite take_0 in Hhead. exact Hhead.
  - destruct (deen_utf8_usascii_equivalent c) as [e|] eqn:He.
    + apply Forall_app. split; [done|]. by eapply Hequiv.
    + apply Forall_app. split; [done|]. by repeat constructor.
Qed.

(** X23.  On a terminal that does not take UTF-8, [deen_term_print_str_range]
    puts none but US-ASCII bytes on stdout, when the text primitives keep
    their contracts: it ends, after at most one round for each byte of the
    range, and every byte it has put is below 128, whether it got through
    the range or stopped at a sequence that is not well-formed. *)
Theorem deen_term_print_str_range_ascii
    (fuel : nat) (lang : option (list byte)) (str : list byte) (from to : nat) :
  text_ok → (Z.of_nat (length str) < 2 ^ 64)%Z → from ≤ to → to ≤ length str →
  deen_term_is_utf8 lang = false → to - from < fuel →
  ∃ out logged,
    deen_term_print_str_range fuel lang str from to = Some (out, logged)
    ∧ Forall ascii out.
Proof.
  intros Hok Hsize Hft Hto Hlang Hfuel. unfold deen_term_print_str_range.
  rewrite Hlang.
  destruct (deen_utf8_is_usascii_clean (take (size_sub to from) (drop from str)))
    eqn:Hclean.
  - eexists _, _. split; [done|]. unfold deen_term_print_ascii_str.
    rewrite print_ascii_loop_range by lia.
    destruct Hok as (Hc & _). rewrite <- (size_sub_small to from) by lia.
    by apply Hc.
  - by apply print_sequences_loop_ascii.
Qed.

End render.

(* ================================================================== *)
(** * Part III: examples on the implementation of the specification    *)
(* ================================================================== *)

Import SpecCommon ExampleData.

Example adjust_strasse :
  deen_keywords_adjust [bytes "STRASSE"; bytes "HAUS"]
  = ([bytes "STRA" ++ [xc3; x9f] ++ bytes "E"; bytes "HAUS"], true).
Proof. reflexivity. Qed.

Example adjust_schneeeule :  deen_keywords_adjust [bytes "SCHNEEEULE"]
  = ([bytes "SCHN" ++ [xc3; x8b] ++ bytes "EULE"], true).
Proof. reflexivity. Qed.


Example adjust_energieeffizienz :
  deen_keywords_adjust [bytes "ENERGIEEFFIZIENZ"]
  = ([bytes "ENERGI" ++ [xc3; x8b] ++ bytes "FFIZ" ++ [xc3; x8f] ++ bytes "NZ"], true).
Proof. reflexivity. Qed.

Example words_baum :
  words (bytes " der  Baum apfel ") = [bytes "der"; bytes "Baum"; bytes "apfel"].
Proof. reflexivity. Qed.

Example spec_add_1 :
  deen_keywords_add_from_string [] (bytes "der Baum  apfel ei")
  = Some [bytes "APFEL"; bytes "BAUM"; bytes "EI"].
Proof. vm_compute. reflexivity. Qed.

Example spec_add_2 :
  deen_keywords_add_from_string [] (bytes "haus hausboot")
  = Some [bytes "HAUSBOOT"; bytes "HAUS"].
Proof. vm_compute. reflexivity. Qed.

Example spec_add_3 :
  deen_keywords_add_from_string [] (bytes "hausboot haus")
  = Some [bytes "HAUSBOOT"].
Proof. vm_compute. reflexivity. Qed.

(** C4 as it is stated fails: the first 4 KiB of the file hold the valid
    data line "Haus :: house", and the result is BAD_FORMAT all the same,
    because the line "hello" before it lacks the separator. *)
Lemma deen_install_check_for_ding_format_first_line_decides :
  deen_install_check_for_ding_format {[ "de-en.txt"%string := ding_hello ]} "de-en.txt"
    = DEEN_INSTALL_CHECK_BAD_FORMAT
  ∧ bytes "Haus :: house"
      ∈ terminated_lines (take DEEN_SIZE_CHECK_DING_BUFFER ding_hello)
  ∧ data_line (bytes "Haus :: house").
Proof.
  split_and!.
  - vm_compute. reflexivity.
  - assert (terminated_lines (take DEEN_SIZE_CHECK_DING_BUFFER ding_hello)
            = [bytes "hello"; bytes "Haus :: house"]) as ->
      by (vm_compute; reflexivity).
    right. left.
  - split; [reflexivity|]. exists 5. reflexivity.
Qed.

(** C1 as it is stated fails: from "haus hausboot" both tokens are kept,
    and HAUS is a prefix of HAUSBOOT.  (From "hausboot haus" only HAUSBOOT
    is kept: the order of the tokens matters.) *)
Lemma deen_keywords_add_from_string_not_prefix_free :
  deen_keywords_add_from_string deen_keywords_create (bytes "haus hausboot")
    = Some [bytes "HAUSBOOT"; bytes "HAUS"]
  ∧ ¬ prefix_free [bytes "HAUSBOOT"; bytes "HAUS"].
Proof.
  split; [vm_compute; reflexivity|]. intros Hfree.
  apply (Hfree 1 0 (bytes "HAUS") (bytes "HAUSBOOT")); [done|reflexivity..|].
  exists (bytes "BOOT"). reflexivity.
Qed.

Lemma deen_keywords_add_from_string_no_later_prefix_witness :
  deen_keywords_add_from_string [bytes "HAUSBOOT"; bytes "HAUS"]
      (bytes "haus boot der hausboote boot")
    = Some [bytes "HAUSBOOTE"; bytes "HAUSBOOT"; bytes "BOOT"; bytes "HAUS"]
  ∧ ∃ added,
    deen_keywords_collect [bytes "HAUSBOOT"; bytes "HAUS"] (bytes "haus boot der hausboote boot")
      = [bytes "HAUSBOOT"; bytes "HAUS"] ++ added
    ∧ [bytes "HAUSBOOTE"; bytes "HAUSBOOT"; bytes "BOOT"; bytes "HAUS"]
        ≡ₚ [bytes "HAUSBOOT"; bytes "HAUS"] ++ added
    ∧ added `sublist_of` words (cstr (deen_to_upper (bytes "haus boot der hausboote boot")))
    ∧ (∀ i t, added !! i = Some t →
         ∀ k, k ∈ [bytes "HAUSBOOT"; bytes "HAUS"] ++ take i added → ¬ t `prefix_of` k)
    ∧ (∀ t, t ∈ words (cstr (deen_to_upper (bytes "haus boot der hausboote boot"))) →
         deen_is_common_upper_word t = false →
         ∃ k, k ∈ [bytes "HAUSBOOTE"; bytes "HAUSBOOT"; bytes "BOOT"; bytes "HAUS"]
              ∧ t `prefix_of` k)
    ∧ (NoDup [bytes "HAUSBOOT"; bytes "HAUS"]
       → NoDup [bytes "HAUSBOOTE"; bytes "HAUSBOOT"; bytes "BOOT"; bytes "HAUS"]).
Proof.
  split; [vm_compute; reflexivity|].
  apply (deen_keywords_add_from_string_no_later_prefix
           [bytes "HAUSBOOT"; bytes "HAUS"] (bytes "haus boot der hausboote boot")).
  vm_compute. reflexivity.
Defined.

Lemma deen_keywords_add_from_string_sorted_witness :
  deen_keywords_add_from_string deen_keywords_create (bytes "der Baum  apfel ei")
    = Some [bytes "APFEL"; bytes "BAUM"; bytes "EI"]
  ∧ StronglySorted keyword_before [bytes "APFEL"; bytes "BAUM"; bytes "EI"]
  ∧ [bytes "APFEL"; bytes "BAUM"; bytes "EI"]
      ≡ₚ deen_keywords_collect deen_keywords_create (bytes "der Baum  apfel ei").
Proof.
  split; [vm_compute; reflexivity|].
  apply (deen_keywords_add_from_string_sorted
           deen_keywords_create (bytes "der Baum  apfel ei")
           [bytes "APFEL"; bytes "BAUM"; bytes "EI"]).
  vm_compute. reflexivity.
Defined.

(** C3 as it is stated fails: HAUS is no common word and has four code
    points, at least [DEEN_INDEXING_MIN], and yet no prefix is added for
    "Haus" when the cancellation callback answers true for it. *)
Lemma deen_index_callback_cancelled_adds_nothing :
  deen_is_common_upper_word (deen_to_upper (bytes "Haus")) = false
  ∧ deen_utf8_sequences_count (deen_to_upper (bytes "Haus")) = (DEEN_SEQUENCE_OK, 4)
  ∧ DEEN_INDEXING_MIN ≤ 4
  ∧ ∃ context' w',
      deen_index_callback (bytes "Haus") 4 0 0 context_cancelled empty_world
        = Some ((false, context'), w')
      ∧ bag context' = [].
Proof.
  split_and!; [vm_compute; reflexivity..|vm_compute; lia|].
  eexists _, _. split; [vm_compute; reflexivity|]. reflexivity.
Qed.

Lemma deen_index_callback_prefix_witness :
  context_ok context_never
  ∧ length (deen_to_upper (bytes "Haus")) = length (bytes "Haus")
  ∧ deen_utf8_sequences_count (deen_to_upper (bytes "Haus")) = (DEEN_SEQUENCE_OK, 4)
  ∧ (deen_utf8_crop_to_unicode_len (deen_to_upper (bytes "Haus")) DEEN_INDEXING_DEPTH).2
      = 4 `min` DEEN_INDEXING_DEPTH
  ∧ DEEN_INDEXING_MIN ≤ DEEN_INDEXING_DEPTH
  ∧ total (deen_index_callback (bytes "Haus") (length (bytes "Haus")) 0 0 context_never)
      empty_world (λ r w', bag r.2 ≡ₚ [bytes "HAU"]).
Proof.
  assert (context_ok context_never) as Hok by (split; simpl; [lia|done]).
  assert (length (deen_to_upper (bytes "Haus")) = length (bytes "Haus")) as Hlen
    by (vm_compute; reflexivity).
  assert (deen_utf8_sequences_count (deen_to_upper (bytes "Haus"))
          = (DEEN_SEQUENCE_OK, 4)) as Hcount by (vm_compute; reflexivity).
  assert ((deen_utf8_crop_to_unicode_len (deen_to_upper (bytes "Haus"))
             DEEN_INDEXING_DEPTH).2 = 4 `min` DEEN_INDEXING_DEPTH) as Hcrop
    by (vm_compute; reflexivity).
  assert (DEEN_INDEXING_MIN ≤ DEEN_INDEXING_DEPTH) as HMD by (vm_compute; lia).
  split_and!; [done..|].
  eapply total_mono.
  - apply (deen_index_callback_prefix (bytes "Haus") 0 0 context_never empty_world
             deen_noop_is_cancelled_cb deen_noop_install_progress_cb 4
             Hok eq_refl eq_refl Hlen Hcount ltac:(vm_compute; lia) Hcrop HMD).
  - intros r w' (_ & _ & Hbag). exact Hbag.
Defined.

(** C8 as it is stated fails: the word "Ei" has fewer than
    [DEEN_INDEXING_MIN] bytes, and the callback goes through it without
    asking the cancellation callback, which would have answered true. *)
Lemma deen_index_callback_short_word_not_polled :
  length (bytes "Ei") < DEEN_INDEXING_MIN
  ∧ ∃ context' w',
      deen_index_callback (bytes "Ei") 2 0 0 context_cancelled empty_world
        = Some ((true, context'), w')
      ∧ polls w' = [].
Proof.
  split; [vm_compute; lia|].
  eexists _, _. split; [vm_compute; reflexivity|]. reflexivity.
Qed.

Lemma deen_index_callback_polls_and_stops_witness :
  total (deen_index_callback (bytes "Haus") (length (bytes "Haus")) 0 0 context_cancelled)
    empty_world (λ r w', polls w' = [true] ∧ r.1 = false ∧ bag r.2 = []).
Proof.
  eapply total_mono.
  - apply (deen_index_callback_polls_and_stops (bytes "Haus") 0 0 context_cancelled
             empty_world (λ _, true) deen_noop_install_progress_cb eq_refl eq_refl).
  - intros r w' (Hpolls & Hcont & Hstop). split_and!.
    + exact Hpolls.
    + apply Hcont. split; [vm_compute; lia|done].
    + apply Hstop, Hcont. split; [vm_compute; lia|done].
Defined.

(** An install that nobody cancels. *)
Example install_completes :
  outcome (deen_install_from_path env_ok "root" "de-en.txt" None None world_ding)
  = Some (true, replicate 12 false,
          [DEEN_INSTALL_STATE_STARTING; DEEN_INSTALL_STATE_INDEXING;
           DEEN_INSTALL_STATE_INDEXING; DEEN_INSTALL_STATE_COMPLETED],
          [(0%Z, [bytes "COM"]); (10%Z, [bytes "HAU"; bytes "HOU"]);
           (24%Z, [bytes "DAS"; bytes "EGG"])],
          true, true).
Proof. vm_compute. reflexivity. Qed.

(** A cancellation that the index callback sees (the sixth poll, at the
    word "comment") goes through the error path: the install returns
    false, reports ERROR and then IDLE, and leaves no file. *)
Example install_cancelled_while_indexing :
  outcome (deen_install_from_path env_ok "root" "de-en.txt" None
             (Some (λ n, 5 <=? n)) world_ding)
  = Some (false, [false; false; false; false; false; true; true],
          [DEEN_INSTALL_STATE_STARTING; DEEN_INSTALL_STATE_ERROR;
           DEEN_INSTALL_STATE_IDLE],
          [], false, false).
Proof. vm_compute. reflexivity. Qed.

(** A cancellation after the copy step, which [deen_install_from_path]
    itself sees: the files are removed, and the install reports COMPLETED
    and returns true. *)
Example install_cancelled_after_copy :
  outcome (deen_install_from_path env_ok "root" "de-en.txt" None
             (Some (λ n, 1 <=? n)) world_ding)
  = Some (true, [false; true; true; true; true; true],
          [DEEN_INSTALL_STATE_STARTING; DEEN_INSTALL_STATE_COMPLETED],
          [], false, false).
Proof. vm_compute. reflexivity. Qed.

(** ** The contracts of the text primitives, for this implementation *)
Section spec_common_facts.

Lemma to_upper_cons2 (b c : byte) (rest : list byte) :
  to_upper (b :: c :: rest)
  = if decide (b = xc3) then
      if bool_decide (c ∈ [xa4; xb6; xbc; xaf; xab])
      then xc3 :: byte_sub_32 c :: to_upper rest
      else xc3 :: to_upper (c :: rest)
    else (if byte_in 97 122 b then byte_sub_32 b else b) :: to_upper (c :: rest).
Proof. reflexivity. Qed.

Lemma to_upper_length (s : list byte) : length (to_upper s) = length s.
Proof.
  remember (length s) as n eqn:Hn. revert s Hn.
  induction (lt_wf n) as [n _ IH]. intros [|b [|c rest]] ->.
  - done.
  - simpl. by case_decide.
  - rewrite to_upper_cons2. case_decide.
    + case_bool_decide; cbn [length]; f_equal.
      * f_equal. eapply IH; [|done]. cbn [length]. lia.
      * eapply (IH (length (c :: rest))); [cbn [length]; lia|done].
    + cbn [length]. f_equal.
      eapply (IH (length (c :: rest))); [cbn [length]; lia|done].
Qed.

Lemma utf8_sequence_len_OK (c : list byte) (k : nat) :
  utf8_sequence_len c = (DEEN_SEQUENCE_OK, k) → 0 < k ≤ length c.
Proof.
  unfold utf8_sequence_len. destruct c as [|b c]; [done|].
  repeat case_decide; intros; simplify_eq; lia.
Qed.

(** Counting goes through the sequences one by one, and a sequence takes at
    least one byte. *)
Lemma sequences_count_from_OK (fuel : nat) (c : list byte) (count n : nat) :
  length c ≤ fuel →
  sequences_count_from fuel c count = (DEEN_SEQUENCE_OK, n) →
  count ≤ n ≤ count + length c
  ∧ ∀ unicode_length, (crop_from c unicode_length).2 = (n - count) `min` unicode_length.
Proof.
  revert c count. induction fuel as [|fuel IH]; intros c count Hfuel.
  { destruct c; [|simpl in Hfuel; lia]. simpl. intros [= <-].
    split; [lia|]. intros [|N]; simpl; lia. }
  destruct c as [|b c].
  { simpl. intros [= <-]. split; [lia|]. intros [|N]; simpl; lia. }
  cbn [sequences_count_from].
  destruct (utf8_sequence_len (b :: c)) as [[] k] eqn:Hk; [|done..].
  apply utf8_sequence_len_OK in Hk as Hbound. intros Hcount.
  destruct (IH (drop k (b :: c)) (S count)) as [Hn Hcrop]; [|done|].
  { rewrite length_drop. simpl in *. lia. }
  rewrite length_drop in Hn. split; [lia|].
  intros [|N]; [simpl; lia|]. cbn [crop_from]. rewrite Hk.
  specialize (Hcrop N).
  destruct (crop_from (drop k (b :: c)) N) as [rest m]. simpl in *. lia.
Qed.

(** The contract of the crop that the callback relies on. *)
Lemma crop_from_count (c : list byte) (n unicode_length : nat) :
  utf8_sequences_count c = (DEEN_SEQUENCE_OK, n) →
  n ≤ length c ∧ (crop_from c unicode_length).2 = n `min` unicode_length.
Proof.
  intros Hcount. destruct (sequences_count_from_OK _ _ _ _ (le_n _) Hcount) as [Hn Hcrop].
  split; [lia|]. rewrite Hcrop. f_equal. lia.
Qed.

Lemma ifind_first_from_None (fuel : nat) (s f : list byte) (from to : nat) :
  to < from + fuel →
  ifind_first_from fuel s f from to = None
  ↔ ∀ i, from ≤ i → i + length f ≤ to → imatches_at s f i = false.
Proof.
  revert from. induction fuel as [|fuel IH]; intros from Hfuel; simpl.
  { split; [|done]. intros _ i ? ?. lia. }
  case_decide as Hroom.
  - destruct (imatches_at s f from) eqn:Hm.
    + split; [done|]. intros Hno. rewrite Hno in Hm; [done|lia|done].
    + rewrite IH by lia. split.
      * intros Hno i Hi Hto. destruct (decide (i = from)) as [->|]; [done|].
        apply Hno; lia.
      * intros Hno i Hi Hto. apply Hno; lia.
  - split; [|done]. intros _ i Hi Hto. lia.
Qed.

Lemma ifind_first_from_Some (fuel : nat) (s f : list byte) (from to i : nat) :
  ifind_first_from fuel s f from to = Some i →
  from ≤ i ∧ i + length f ≤ to ∧ imatches_at s f i = true.
Proof.
  revert from. induction fuel as [|fuel IH]; intros from; simpl; [done|].
  case_decide as Hroom; [|done]. destruct (imatches_at s f from) eqn:Hm.
  - intros [= <-]. done.
  - intros Hi. destruct (IH _ Hi) as (? & ? & ?). split_and!; [lia|done..].
Qed.

(** The search finds a needle exactly when it stands somewhere in the
    text, bytes compared after upper-casing those of the text. *)
Lemma ifind_first_is_Some (s f : list byte) :
  is_Some (ifind_first s f 0 (length s))
  ↔ ∃ i, i + length f ≤ length s ∧ imatches_at s f i = true.
Proof.
  unfold ifind_first. split.
  - intros [i Hi]. apply ifind_first_from_Some in Hi as (_ & ? & ?). eauto.
  - intros (i & Hto & Hm).
    destruct (ifind_first_from (S (length s) - 0) s f 0 (length s)) eqn:Hfind; [done|].
    rewrite ifind_first_from_None in Hfind by lia.
    rewrite Hfind in Hm; [done|lia|done].
Qed.

End spec_common_facts.

(** Under a root that cannot be searched the old files are not seen:
    nothing is removed, and both calls answer as if nothing were there. *)
Example remove_unsearchable :
  deen_remove_fileobject env_unsearchable "root/dict.txt" world_installed
  = Some (true, world_installed).
Proof. reflexivity. Qed.

Example init_unsearchable :
  deen_install_init env_unsearchable "root" world_installed = Some (true, world_installed)
  ∧ deen_is_installed env_unsearchable "root" world_installed
    = Some (false, world_installed)
  ∧ deen_is_installed env_ok "root" world_installed = Some (true, world_installed).
Proof. split_and!; reflexivity. Qed.

Example all_present_haus :
  deen_keywords_all_present [bytes "HAUS"; bytes "BOOT"] (bytes "Das Hausboot") = true
  ∧ deen_keywords_all_present [bytes "HAUS"; bytes "BAUM"] (bytes "Das Hausboot") = false.
Proof. split; vm_compute; reflexivity. Qed.

(** ** More examples *)

Import SpecText.

Lemma deen_keywords_compare_length_consistent_witness :
  deen_keywords_compare_length (bytes "HAUS") (bytes "BOOT") = Some 1%Z
  ∧ ∃ c', deen_keywords_compare_length (bytes "BOOT") (bytes "HAUS") = Some c'
          ∧ Z.sgn c' = (- Z.sgn 1)%Z.
Proof.
  assert (deen_keywords_compare_length (bytes "HAUS") (bytes "BOOT") = Some 1%Z) as Hc
    by (vm_compute; reflexivity).
  split; [exact Hc|].
  exact (proj1 (deen_keywords_compare_length_consistent
                  (bytes "HAUS") (bytes "BOOT") 1%Z Hc)).
Defined.

Lemma deen_keywords_has_prefix_iff_witness :
  deen_keywords_has_prefix [bytes "HAUSBOOT"] (bytes "HAUS BOOT") 4 = true
  ↔ ∃ k, k ∈ [bytes "HAUSBOOT"] ∧ take 4 (bytes "HAUS BOOT") `prefix_of` k.
Proof.
  apply (deen_keywords_has_prefix_iff [bytes "HAUSBOOT"] (bytes "HAUS BOOT") 4).
  - vm_compute. lia.
  - apply (bool_decide_unpack _). vm_compute. reflexivity.
Defined.

Lemma deen_keywords_add_from_string_adds_words_witness :
  ∃ added,
    [bytes "HAUSBOOT"; bytes "HAUS"] ≡ₚ deen_keywords_create ++ added
    ∧ NoDup added
    ∧ ∀ t, t ∈ added →
        (t ∉ deen_keywords_create)
        ∧ token_of t (cstr (deen_to_upper (bytes "haus hausboot der Haus")))
        ∧ deen_is_common_upper_word t = false.
Proof.
  apply (deen_keywords_add_from_string_adds_words
           deen_keywords_create (bytes "haus hausboot der Haus")
           [bytes "HAUSBOOT"; bytes "HAUS"]).
  vm_compute. reflexivity.
Defined.

Lemma deen_keywords_add_from_string_twice_witness :
  deen_keywords_add_from_string [bytes "HAUSBOOT"; bytes "HAUS"]
    (bytes "haus hausboot der Haus")
  = Some [bytes "HAUSBOOT"; bytes "HAUS"].
Proof.
  apply (deen_keywords_add_from_string_twice
           deen_keywords_create (bytes "haus hausboot der Haus")
           [bytes "HAUSBOOT"; bytes "HAUS"]).
  vm_compute. reflexivity.
Defined.

Lemma deen_index_add_prefix_to_context_if_not_present_set_witness :
  let context' :=
    deen_index_add_prefix_to_context_if_not_present context_never (bytes "HAU")
      (length (bytes "HAU")) in
  context_ok context'
  ∧ StronglySorted prefix_lt (bag context')
  ∧ (∀ p, p ∈ bag context' ↔ p = bytes "HAU" ∨ p ∈ bag context_never)
  ∧ (bytes "HAU" ∈ bag context_never → context' = context_never)
  ∧ deen_index_add_prefix_to_context_if_not_present context' (bytes "HAU")
      (length (bytes "HAU")) = context'.
Proof.
  apply (deen_index_add_prefix_to_context_if_not_present_set context_never (bytes "HAU")).
  - split; simpl; [lia|reflexivity].
  - constructor.
Defined.

Lemma deen_index_add_prefix_to_context_slots_witness :
  let context' := deen_index_add_prefix_to_context context_never (bytes "HAU") 3 in
  context_ok context'
  ∧ prefix_count context' = S (prefix_count context_never)
  ∧ prefix_count_allocated context'
    = prefix_count_allocated context_never `max` S (prefix_count context_never)
  ∧ bag context' ≡ₚ bag context_never ++ [take 3 (bytes "HAU")]
  ∧ StronglySorted lex_le (bag context').
Proof.
  apply (deen_index_add_prefix_to_context_slots context_never (bytes "HAU") 3).
  split; simpl; [lia|reflexivity].
Defined.

Lemma deen_install_from_path_reports_witness :
  total (deen_install_from_path env_ok "root" "de-en.txt" None None) world_ding
    (λ r w',
       ∃ reports final,
         events w' = events world_ding ++ [(DEEN_INSTALL_STATE_STARTING, 0%Q)]
                     ++ indexing_reports reports ++ final
         ∧ if r then final = [(DEEN_INSTALL_STATE_COMPLETED, 1%Q)]
           else ∃ ps answer,
             polls w' = polls world_ding ++ ps ++ [answer]
             ∧ final = (DEEN_INSTALL_STATE_ERROR, 0%Q)
                       :: (if answer : bool
                           then [(DEEN_INSTALL_STATE_IDLE, 0%Q)] else [])).
Proof.
  apply (deen_install_from_path_reports env_ok "root" "de-en.txt" None None world_ding).
  intros src Hsrc. vm_compute in Hsrc. injection Hsrc as <-. vm_compute. reflexivity.
Defined.

Lemma deen_install_from_path_copies_source_witness :
  total (deen_install_from_path env_ok "root" "de-en.txt" None None) world_ding
    (λ r w',
       r = true →
       fs w' !! deen_data_path "root" = Some ding_small
       ∧ is_Some (fs w' !! deen_index_path "root")
       ∧ db_initialised w' = true).
Proof.
  apply (deen_install_from_path_copies_source env_ok "root" "de-en.txt" None
           world_ding ding_small).
  - vm_compute. reflexivity.
  - vm_compute. discriminate.
Defined.

Lemma deen_install_from_path_succeeds_witness :
  total (deen_install_from_path env_ok "root" "de-en.txt" None None) world_ding
    (λ r _, r = true).
Proof.
  apply (deen_install_from_path_succeeds env_ok "root" "de-en.txt" None world_ding
           ding_small).
  - vm_compute. reflexivity.
  - vm_compute. reflexivity.
  - vm_compute. discriminate.
  - vm_compute. discriminate.
  - split_and!; [reflexivity|intros k; reflexivity|reflexivity|reflexivity].
  - reflexivity.
Defined.

Lemma deen_install_from_path_then_is_installed_witness :
  total (r ← deen_install_from_path env_ok "root" "de-en.txt" None None;
         installed ← deen_is_installed env_ok "root";
         mret (r, installed)) world_ding
    (λ r _, r.2 = r.1).
Proof.
  apply (deen_install_from_path_then_is_installed env_ok "root" "de-en.txt" None
           world_ding).
  - reflexivity.
  - reflexivity.
Defined.

(** The text primitives of the specification keep the contracts that the
    terminal output expects. *)
Lemma spec_text_ok : text_ok.
Proof.
  split_and!.
  - intros c Hc. simpl in Hc. unfold is_usascii_clean in Hc.
    rewrite List.forallb_forall in Hc. apply Forall_forall. intros b Hb.
    apply list_elem_of_In, Hc in Hb. unfold byte_in in Hb.
    apply andb_prop in Hb as [_ Hb]. unfold ascii. apply N.leb_le in Hb. lia.
  - intros c n Hc. apply utf8_sequence_len_OK in Hc. lia.
  - intros c. simpl. unfold utf8_sequence_len. destruct c as [|b c]; [done|].
    destruct (byte_in 0 127 b) eqn:Hb.
    + intros _. simpl. rewrite take_0. constructor; [|constructor].
      unfold byte_in in Hb. apply andb_prop in Hb as [_ Hb].
      unfold ascii. apply N.leb_le in Hb. lia.
    + repeat case_match; intros; simplify_eq.
  - intros c e. simpl. unfold usascii_equivalent.
    repeat case_match; intros; simplify_eq; by repeat constructor.
Qed.

Lemma deen_term_print_str_range_verbatim_witness :
  deen_term_print_str_range 0 (Some (bytes "de_DE.UTF-8"))
    (bytes "B" ++ [xc3; xa4] ++ bytes "r" ++ [x00]) 0 4
  = Some (take (4 - 0) (drop 0 (bytes "B" ++ [xc3; xa4] ++ bytes "r" ++ [x00])), false)
  ∧ (0 = 0 → 4 = strlen (bytes "B" ++ [xc3; xa4] ++ bytes "r" ++ [x00]) →
     deen_term_print_str 0 (Some (bytes "de_DE.UTF-8"))
       (bytes "B" ++ [xc3; xa4] ++ bytes "r" ++ [x00])
     = Some (cstr (bytes "B" ++ [xc3; xa4] ++ bytes "r" ++ [x00]), false)).
Proof.
  apply (deen_term_print_str_range_verbatim 0 (Some (bytes "de_DE.UTF-8"))
           (bytes "B" ++ [xc3; xa4] ++ bytes "r" ++ [x00]) 0 4).
  - lia.
  - vm_compute. lia.
  - left. vm_compute. reflexivity.
Defined.

Lemma deen_term_print_str_range_ascii_witness :
  deen_term_print_str_range 5 (Some (bytes "C"))
    (bytes "B" ++ [xc3; xa4] ++ bytes "r" ++ [x00]) 0 4
  = Some (bytes "Baer", false)
  ∧ ∃ out logged,
      deen_term_print_str_range 5 (Some (bytes "C"))
        (bytes "B" ++ [xc3; xa4] ++ bytes "r" ++ [x00]) 0 4
      = Some (out, logged)
      ∧ Forall ascii out.
Proof.
  split; [vm_compute; reflexivity|].
  apply (deen_term_print_str_range_ascii 5 (Some (bytes "C"))
           (bytes "B" ++ [xc3; xa4] ++ bytes "r" ++ [x00]) 0 4 spec_text_ok).
  - vm_compute. reflexivity.
  - lia.
  - vm_compute. lia.
  - vm_compute. reflexivity.
  - lia.
Defined.

(** The search of the specification finds a needle that stands in a text
    without small letters. *)
Lemma spec_ifind_first_exact (text f : list byte) (i : nat) :
  (λ b, if byte_in 97 122 b then byte_sub_32 b else b) <$> text = text →
  i + length f ≤ length text → take (length f) (drop i text) = f →
  is_Some (ifind_first text f 0 (length text)).
Proof.
  intros Hupper Hlen Hf. apply ifind_first_is_Some. exists i. split; [done|].
  unfold imatches_at. apply bool_decide_eq_true_2.
  by rewrite fmap_take, fmap_drop, Hupper.
Qed.

Lemma deen_keywords_all_present_after_add_witness :
  deen_keywords_all_present [bytes "HAUSBOOT"; bytes "HAUS"]
    (cstr (deen_to_upper (bytes "haus hausboot der Haus"))) = true.
Proof.
  apply (deen_keywords_all_present_after_add deen_keywords_create
           (bytes "haus hausboot der Haus") [bytes "HAUSBOOT"; bytes "HAUS"]).
  - intros f i. apply spec_ifind_first_exact. vm_compute. reflexivity.
  - reflexivity.
  - vm_compute. reflexivity.
Defined.
